(** * snowoptics: snow albedo and BRF formulas (snowoptics/snowoptics.py)

    A shallow embedding of [snowoptics.py] and the properties of its
    specification.

    Numbers.  The program computes on IEEE doubles through numpy.  They are
    modelled by [fval]: a real number, one of the two infinities, or
    not-a-number.  Finite arithmetic is exact real arithmetic (no rounding,
    no overflow), but for the two results of [double_arith], where the
    rounding of doubles decides what kind of value comes out; the special
    values follow numpy: a division by zero gives an infinity or NaN (a
    warning, never an exception), [sqrt] and [arccos] outside their domain
    give NaN, every comparison with NaN is false.  There is one NaN and one
    zero, and [PI] stands for the double [np.pi].  A division of one Python
    float by another is not numpy's: a zero divisor raises
    ZeroDivisionError ([py_div]).

    Arrays.  A spectral quantity is either a scalar or a 1-D array ([nd]);
    binary operations broadcast as numpy does.

    Exceptions.  A function that can raise returns a [result].

    Arguments.  Angles, SSA, B, g, the diffuse ratio, concentrations and
    densities are Python floats; [wavelengths] and an array [ni] are numpy
    values, 0-d or 1-D, of finite reals.  Python keyword arguments with
    defaults are explicit arguments here.

    Collaborators.  [refice], [refsoot_imag], [refhulis_imag],
    [refdust_imag] and [MAE_dust_caponi] are imported by the program from
    [refractive_index.py]; the scipy optimizers are library code.  They are
    parameters of the development (record [refractive_index], section
    variables for the optimizers). *)

From Stdlib Require Import Reals Lra Lia List String Bool ZArith.
From Stdlib Require Import R_Ifp.
Import ListNotations.

Local Open Scope R_scope.

(** ** Floating-point values *)

Inductive fval : Type :=
| Fin (r : R)
| PInf
| NInf
| NaN.

Declare Scope float_scope.
Delimit Scope float_scope with fl.
Bind Scope float_scope with fval.

(** Decidable tests on reals, as booleans. *)

Definition Rltb (x y : R) : bool := if Rlt_dec x y then true else false.
Definition Rleb (x y : R) : bool := if Rle_dec x y then true else false.
Definition Reqb (x y : R) : bool := if Req_dec_T x y then true else false.

Module Float.

(** Sign of an infinity times the sign of a real: [sgn_inf pos r] is the
    product of (+inf if [pos], -inf otherwise) with the nonzero real [r],
    and NaN for [r = 0]. *)
Definition inf_of (pos : bool) : fval := if pos then PInf else NInf.

Definition sgn_inf (pos : bool) (r : R) : fval :=
  if Rltb 0 r then inf_of pos
  else if Rltb r 0 then inf_of (negb pos)
  else NaN.

Definition neg (x : fval) : fval :=
  match x with
  | Fin a => Fin (- a)
  | PInf => NInf
  | NInf => PInf
  | NaN => NaN
  end.

Definition add (x y : fval) : fval :=
  match x, y with
  | NaN, _ | _, NaN => NaN
  | Fin a, Fin b => Fin (a + b)
  | PInf, NInf | NInf, PInf => NaN
  | PInf, _ | _, PInf => PInf
  | NInf, _ | _, NInf => NInf
  end.

Definition sub (x y : fval) : fval := add x (neg y).

Definition mul (x y : fval) : fval :=
  match x, y with
  | NaN, _ | _, NaN => NaN
  | Fin a, Fin b => Fin (a * b)
  | PInf, Fin b | Fin b, PInf => sgn_inf true b
  | NInf, Fin b | Fin b, NInf => sgn_inf false b
  | PInf, PInf | NInf, NInf => PInf
  | PInf, NInf | NInf, PInf => NInf
  end.

(** numpy division: [x / 0] is an infinity of the sign of [x], [0 / 0] is
    NaN, a finite number over an infinity is zero. *)
Definition div (x y : fval) : fval :=
  match x, y with
  | NaN, _ | _, NaN => NaN
  | Fin a, Fin b => if Reqb b 0 then sgn_inf true a else Fin (a / b)
  | Fin _, (PInf | NInf) => Fin 0
  | PInf, Fin b => if Rltb b 0 then NInf else PInf
  | NInf, Fin b => if Rltb b 0 then PInf else NInf
  | (PInf | NInf), (PInf | NInf) => NaN
  end.

Definition abs (x : fval) : fval :=
  match x with
  | Fin a => Fin (Rabs a)
  | PInf | NInf => PInf
  | NaN => NaN
  end.

Definition sqrt (x : fval) : fval :=
  match x with
  | Fin a => if Rleb 0 a then Fin (R_sqrt.sqrt a) else NaN
  | PInf => PInf
  | NInf | NaN => NaN
  end.

Definition exp (x : fval) : fval :=
  match x with
  | Fin a => Fin (Rtrigo_def.exp a)
  | PInf => PInf
  | NInf => Fin 0
  | NaN => NaN
  end.

Definition cos (x : fval) : fval :=
  match x with
  | Fin a => Fin (Rtrigo_def.cos a)
  | _ => NaN
  end.

Definition sin (x : fval) : fval :=
  match x with
  | Fin a => Fin (Rtrigo_def.sin a)
  | _ => NaN
  end.

Definition arccos (x : fval) : fval :=
  match x with
  | Fin a => if Rleb (-1) a && Rleb a 1 then Fin (acos a) else NaN
  | _ => NaN
  end.

(** [np.degrees], [np.radians]. *)
Definition degrees (x : fval) : fval := div (mul x (Fin 180)) (Fin PI).
Definition radians (x : fval) : fval := div (mul x (Fin PI)) (Fin 180).

(** Comparisons; all are false on NaN, except [ne]. *)
Definition lt (x y : fval) : bool :=
  match x, y with
  | NaN, _ | _, NaN => false
  | Fin a, Fin b => Rltb a b
  | NInf, (Fin _ | PInf) => true
  | Fin _, PInf => true
  | _, _ => false
  end.

Definition le (x y : fval) : bool :=
  match x, y with
  | NaN, _ | _, NaN => false
  | Fin a, Fin b => Rleb a b
  | NInf, _ => true
  | _, PInf => true
  | _, _ => false
  end.

Definition gt (x y : fval) : bool := lt y x.
Definition ge (x y : fval) : bool := le y x.

Definition eq (x y : fval) : bool :=
  match x, y with
  | Fin a, Fin b => Reqb a b
  | PInf, PInf | NInf, NInf => true
  | _, _ => false
  end.

Definition ne (x y : fval) : bool := negb (eq x y).

(** Python's builtin [max(a, b)]: [b] if [b > a], else [a]. *)
Definition pymax (a b : fval) : fval := if gt b a then b else a.

(** [np.clip(x, lo, hi)] on one element: [minimum(maximum(x, lo), hi)],
    NaN going through. *)
Definition clip (x lo hi : fval) : fval :=
  match x with
  | NaN => NaN
  | _ => let y := if lt x lo then lo else x in
         if gt y hi then hi else y
  end.

(** [np.floor] of a real. *)
Definition Rfloor (a : R) : R := IZR (Int_part a).

(** [np.mod(x, y)], the remainder with the sign of the divisor:
    [x - floor(x / y) * y]. *)
Definition np_mod (x y : fval) : fval :=
  match x, y with
  | Fin a, Fin b => if Reqb b 0 then NaN else Fin (a - Rfloor (a / b) * b)
  | Fin a, PInf => if Rleb 0 a then Fin a else PInf
  | Fin a, NInf => if Rleb a 0 then Fin a else NInf
  | _, _ => NaN
  end.

Definition is_integer (b : R) : bool := Reqb (Rfloor b) b.
Definition is_odd (b : R) : bool := is_integer b && Z.odd (Int_part b).

(** [x ** y] on floats (C [pow]). *)
Definition pow (x y : fval) : fval :=
  match x, y with
  | _, Fin b =>
      if Reqb b 0 then Fin 1
      else
        match x with
        | NaN => NaN
        | Fin a =>
            if Rltb 0 a then Fin (Rpower a b)
            else if Reqb a 0 then (if Rltb 0 b then Fin 0 else PInf)
            else if is_integer b
            then Fin ((if is_odd b then -1 else 1) * Rpower (- a) b)
            else NaN
        | PInf => if Rltb 0 b then PInf else Fin 0
        | NInf => if Rltb 0 b then (if is_odd b then NInf else PInf)
                  else Fin 0
        end
  | Fin a, (PInf | NInf) =>
      if Reqb (Rabs a) 1 then Fin 1
      else if Bool.eqb (Rltb 1 (Rabs a))
                (match y with PInf => true | _ => false end)
      then PInf else Fin 0
  | PInf, PInf | NInf, PInf => PInf
  | PInf, NInf | NInf, NInf => Fin 0
  | Fin a, NaN => if Reqb a 1 then Fin 1 else NaN
  | _, NaN | NaN, _ => NaN
  end.

(** Truth value of a Python float: anything but zero. *)
Definition truthy (x : fval) : bool := ne x (Fin 0).

End Float.

Notation "x + y" := (Float.add x y) : float_scope.
Notation "x - y" := (Float.sub x y) : float_scope.
Notation "x * y" := (Float.mul x y) : float_scope.
Notation "x / y" := (Float.div x y) : float_scope.
Notation "- x" := (Float.neg x) : float_scope.
Notation "x <? y" := (Float.lt x y) : float_scope.
Notation "x <=? y" := (Float.le x y) : float_scope.
Notation "x >? y" := (Float.gt x y) : float_scope.
Notation "x >=? y" := (Float.ge x y) : float_scope.
Notation "x =? y" := (Float.eq x y) : float_scope.

(** ** numpy values: a scalar or a 1-D array *)

Inductive nd (A : Type) : Type :=
| Sc (x : A)
| Arr (xs : list A).

Arguments Sc {A} x.
Arguments Arr {A} xs.

Declare Scope nd_scope.
Delimit Scope nd_scope with nd.

Module Nd.

Definition map {A B} (f : A -> B) (a : nd A) : nd B :=
  match a with
  | Sc x => Sc (f x)
  | Arr xs => Arr (List.map f xs)
  end.

Fixpoint zip_with {A B C} (f : A -> B -> C) (xs : list A) (ys : list B)
  : list C :=
  match xs, ys with
  | x :: xs', y :: ys' => f x y :: zip_with f xs' ys'
  | _, _ => []
  end.

(** numpy broadcasting of two 1-D shapes: equal lengths, or one of them 1. *)
Definition compatible {A B} (a : nd A) (b : nd B) : bool :=
  match a, b with
  | Arr xs, Arr ys =>
      Nat.eqb (List.length xs) (List.length ys)
      || Nat.eqb (List.length xs) 1 || Nat.eqb (List.length ys) 1
  | _, _ => true
  end.

(** Elementwise binary operation with broadcasting.  On shapes that numpy
    refuses (see [compatible]) the arrays are cut to the shorter one; the
    functions below only combine arrays of compatible shapes, the one place
    where the caller supplies a second array being checked. *)
Definition map2 {A B C} (f : A -> B -> C) (a : nd A) (b : nd B) : nd C :=
  match a, b with
  | Sc x, Sc y => Sc (f x y)
  | Sc x, Arr ys => Arr (List.map (f x) ys)
  | Arr xs, Sc y => Arr (List.map (fun x => f x y) xs)
  | Arr [x], Arr ys => Arr (List.map (f x) ys)
  | Arr xs, Arr [y] => Arr (List.map (fun x => f x y) xs)
  | Arr xs, Arr ys => Arr (zip_with f xs ys)
  end.

Definition add := map2 Float.add.
Definition sub := map2 Float.sub.
Definition mul := map2 Float.mul.
Definition div := map2 Float.div.
Definition neg := map Float.neg.
Definition sqrt := map Float.sqrt.
Definition exp := map Float.exp.
Definition abs := map Float.abs.

(** Every element satisfies [P]. *)
Definition all {A} (P : A -> Prop) (a : nd A) : Prop :=
  match a with
  | Sc x => P x
  | Arr xs => Forall P xs
  end.

(** Two values of the same shape, related elementwise. *)
Definition all2 {A B} (P : A -> B -> Prop) (a : nd A) (b : nd B) : Prop :=
  match a, b with
  | Sc x, Sc y => P x y
  | Arr xs, Arr ys => Forall2 P xs ys
  | _, _ => False
  end.

End Nd.

Notation "x + y" := (Nd.add x y) : nd_scope.
Notation "x - y" := (Nd.sub x y) : nd_scope.
Notation "x * y" := (Nd.mul x y) : nd_scope.
Notation "x / y" := (Nd.div x y) : nd_scope.
Notation "- x" := (Nd.neg x) : nd_scope.

(** ** Exceptions *)

Inductive exn : Type :=
| AssertionError
| ValueError (msg : string)
| NotImplementedError (msg : string)
| RuntimeError (msg : string)
| TypeError (msg : string)
| IndexError
| ZeroDivisionError
| RecursionError
| CollaboratorError (name : string).

Inductive result (A : Type) : Type :=
| Ret (v : A)
| Raise (e : exn).

Arguments Ret {A} v.
Arguments Raise {A} e.

Definition bind {A B} (m : result A) (k : A -> result B) : result B :=
  match m with
  | Ret v => k v
  | Raise e => Raise e
  end.

Notation "x <- m ;; k" := (bind m (fun x => k))
  (at level 61, m at next level, right associativity).

Definition raises {A} (m : result A) : Prop := exists e, m = Raise e.

(** [x / y] on two Python floats: a zero divisor raises, where numpy
    gives an infinity or NaN. *)
Definition py_div (x y : fval) : result fval :=
  if (y =? Fin 0)%fl then Raise ZeroDivisionError else Ret (x / y)%fl.

(** ** Rounding that decides

    Finite arithmetic is exact in this development, except in the two
    places of the program where the rounding of doubles changes the kind
    of value that comes out: the sum of products whose [arccos] is the
    local solar zenith angle (it is not clipped: it can leave [-1, 1] by an
    ulp, and its [arccos] is then NaN), and [np.mod], whose result can be
    the divisor itself.  What the doubles give there is a parameter, with
    the laws that hold exactly in IEEE arithmetic. *)
Record double_arith : Type := {
  (* np.cos(sza) * np.cos(slope)
     + np.sin(sza) * np.sin(slope) * np.cos(saa - aspect), as computed *)
  cos_sum : R -> R -> R -> R -> R;      (* sza, saa, slope, aspect *)
  (* on flat terrain c * 1 + s * 0 * x is c, with no rounding *)
  cos_sum_flat :
    forall sza saa aspect : R, cos_sum sza saa 0 aspect = cos sza;
  (* np.mod(x, m) for a positive m, as computed *)
  remainder : R -> R -> R;
  remainder_range : forall x m : R, 0 < m -> 0 <= remainder x m <= m;
  (* fmod is exact: nothing is done to a value already in [0, m) *)
  remainder_small : forall x m : R, 0 <= x < m -> remainder x m = x
}.

(** ** Collaborators imported from [refractive_index.py]

    Each is a pure function of one wavelength of the grid, applied
    elementwise.  [refice name] is [None] when the dataset is unknown, and
    returns the real and the imaginary part of the index of ice otherwise;
    [MAE_dust_caponi formulation] is [None] when the collaborator raises
    ValueError on the formulation. *)

Record refractive_index : Type := {
  refice : string -> option (R -> R * R);
  refsoot_imag : R -> R -> R;           (* enhancement_param, wavelength *)
  refhulis_imag : R -> R;
  refdust_imag : option string -> R -> R; (* formulation, wavelength *)
  MAE_dust_caponi : string -> option (R -> R)
}.

(** ** Inputs *)

(** The [ni] argument: a dataset name, or an array of imaginary indices. *)
Inductive ni_arg : Type :=
| NiName (dataset_name : string)
| NiArr (ni : nd R).

(** A value of the [impurities] dict: a concentration, or a tuple of a
    concentration and a bulk density. *)
Inductive impurity : Type :=
| Content (content : fval)
| ContentDensity (content density : fval).

(** The dict itself, in iteration order. *)
Definition impurities_dict : Type := list (string * impurity).

Definition default_B : fval := Fin 1.6.
Definition default_g : fval := Fin 0.845.

Definition lift (a : nd R) : nd fval := Nd.map Fin a.

Definition in_strings (s : string) (l : list string) : bool :=
  existsb (String.eqb s) l.

Section Snowoptics.

Variable RI : refractive_index.
Variable FP : double_arith.

(** ** Single-scattering core *)

(** [content_impurities, density_impurities = impurities[species]], the
    TypeError of a bare concentration caught. *)
Definition unpack_impurity (v : impurity) : fval * option fval :=
  match v with
  | ContentDensity c d => (c, Some d)
  | Content c => (c, None)
  end.

(** The body of the loop over the species, up to the mass absorption
    cross-section [MAC] of the species. *)
Definition species_MAC (wavelengths : nd R) (species : string)
  (density_impurities : option fval) : result (nd fval) :=
  sel <-
    (if in_strings species ["soot"; "BC"]%string then
       let density_impurities :=
         match density_impurities with
         | None => Some (Fin 1270)
         | d => d
         end in
       Ret (Some (Nd.map (refsoot_imag RI 1) wavelengths),
            density_impurities, None)
     else if String.eqb species "hulis" then
       Ret (Some (Nd.map (refhulis_imag RI) wavelengths),
            density_impurities, None)
     else if String.eqb species "dust" then
       Ret (Some (Nd.map (refdust_imag RI None) wavelengths),
            density_impurities, None)
     else if String.eqb species "dust_skiles" then
       Ret (Some (Nd.map (refdust_imag RI (Some "skiles2014"%string))
                    wavelengths),
            density_impurities, None)
     else if String.prefix "dust_" species then
       match MAE_dust_caponi RI
               (String.substring 5 (String.length species - 5) species) with
       | Some mae => Ret (None, density_impurities,
                          Some (lift (Nd.map mae wavelengths)))
       | None => Raise (ValueError "Invalid species")
       end
     else Raise (ValueError "Invalid species")) ;;
  match sel with
  | (Some abs_impurities, density_impurities, _) =>
      match density_impurities with
      | None =>
          Raise (ValueError
                   ("No default density for the impurities '" ++ species ++ "'"))
      | Some density =>
          Ret (Sc (Fin 6 * Fin PI)%fl / lift wavelengths / Sc density
               * Nd.abs (lift abs_impurities))%nd
      end
  | (None, _, Some MAC) => Ret MAC
  | (None, _, None) => Raise (RuntimeError "MAC is not bound")
  end.

(** The loop [for species in impurities: ... cossalb += ...]. *)
Fixpoint add_impurities (wavelengths : nd R) (ssa : fval)
  (impurities : impurities_dict) (cossalb : nd fval) : result (nd fval) :=
  match impurities with
  | [] => Ret cossalb
  | (species, v) :: rest =>
      let '(content_impurities, density_impurities) := unpack_impurity v in
      MAC <- species_MAC wavelengths species density_impurities ;;
      k <- py_div (Fin 2) ssa ;;
      add_impurities wavelengths ssa rest
        (cossalb + Sc (k * content_impurities)%fl * MAC)%nd
  end.

(** [if isinstance(ni, str): n, ni = refice(wavelengths, dataset_name)];
    an array [ni] must broadcast against [wavelengths]. *)
Definition resolve_ni (wavelengths : nd R) (ni : ni_arg)
  : result (nd fval) :=
  match ni with
  | NiName dataset_name =>
      match refice RI dataset_name with
      | Some f => Ret (lift (Nd.map (fun w => snd (f w)) wavelengths))
      | None => Raise (CollaboratorError "refice")
      end
  | NiArr ni =>
      if Nd.compatible ni wavelengths then Ret (lift ni)
      else Raise (ValueError "operands could not be broadcast together")
  end.

Definition rho_ice : fval := Fin 917.

Definition compute_co_single_scattering_albedo (wavelengths : nd R)
  (ssa : fval) (impurities : option impurities_dict) (ni : ni_arg)
  (B g : fval) : result (nd fval) :=
  ni <- resolve_ni wavelengths ni ;;
  let gamma := (Sc (Fin 4 * Fin PI)%fl * ni / lift wavelengths)%nd in
  k <- py_div (Fin 2) (ssa * rho_ice)%fl ;;
  let cossalb := (Sc (k * B)%fl * gamma)%nd in
  match impurities with
  | None => Ret cossalb
  | Some impurities => add_impurities wavelengths ssa impurities cossalb
  end.

Definition compute_alpha (wavelengths : nd R) (ssa : fval)
  (impurities : option impurities_dict) (ni : ni_arg) (B g : fval)
  : result (nd fval) :=
  cossalb <- compute_co_single_scattering_albedo wavelengths ssa impurities
               ni B g ;;
  Ret (Sc (Fin 16 / Fin 3)%fl * cossalb / Sc (Fin 1 - g)%fl)%nd.

(** ** Flat terrain, Kokhanovsky and Zege 2004 *)

Definition albedo_diffuse_KZ04 (wavelengths : nd R) (ssa : fval)
  (impurities : option impurities_dict) (ni : ni_arg) (B g : fval)
  : result (nd fval) :=
  alpha <- compute_alpha wavelengths ssa impurities ni B g ;;
  Ret (Nd.exp (- Nd.sqrt alpha)%nd).

Definition albedo_direct_KZ04 (wavelengths : nd R) (sza ssa : fval)
  (impurities : option impurities_dict) (ni : ni_arg) (B g : fval)
  : result (nd fval) :=
  alpha <- compute_alpha wavelengths ssa impurities ni B g ;;
  let cos_sza := Float.cos sza in
  if negb (cos_sza >=? Fin 0)%fl then Raise AssertionError
  else
    Ret (Nd.exp (- Nd.sqrt alpha * Sc (Fin 3) / Sc (Fin 7)
                 * Sc (Fin 1 + Fin 2 * cos_sza)%fl)%nd).

Definition albedo_KZ04 (wavelengths : nd R) (sza ssa r_difftot : fval)
  (impurities : option impurities_dict) (ni : ni_arg) (B g : fval)
  : result (nd fval) :=
  direct <- albedo_direct_KZ04 wavelengths sza ssa impurities ni B g ;;
  diffuse <- albedo_diffuse_KZ04 wavelengths ssa impurities ni B g ;;
  Ret (Sc (Fin 1 - r_difftot)%fl * direct + Sc r_difftot * diffuse)%nd.

(** ** Flat terrain, Malinka 2016 *)

Definition G (theta : fval) : fval :=
  (Fin 3 / Fin 7 * (Fin 1 + Fin 2 * Float.cos theta))%fl.

(** [w0] and [y], the common prefix of the three M16 albedo functions. *)
Definition y_M16 (wavelengths : nd R) (ssa : fval)
  (impurities : option impurities_dict) (ni : ni_arg) (B g : fval)
  : result (nd fval) :=
  cossalb <- compute_co_single_scattering_albedo wavelengths ssa impurities
               ni B g ;;
  let w0 := (Sc (Fin 1) - cossalb)%nd in
  Ret (Sc (Fin 4)
       * Nd.sqrt ((Sc (Fin 1) - w0)
                  / (Sc (Fin 3) * (Sc (Fin 1) - w0 * Sc g))))%nd.

Definition albedo_direct_M16 (wavelengths : nd R) (sza ssa : fval)
  (impurities : option impurities_dict) (ni : ni_arg) (B g : fval)
  : result (nd fval) :=
  y <- y_M16 wavelengths ssa impurities ni B g ;;
  let theta0 := sza in
  Ret (Nd.exp (- y * Sc (G theta0))%nd).

Definition albedo_diffuse_M16 (wavelengths : nd R) (ssa : fval)
  (impurities : option impurities_dict) (ni : ni_arg) (B g : fval)
  : result (nd fval) :=
  y <- y_M16 wavelengths ssa impurities ni B g ;;
  Ret (Nd.exp (- y)%nd).

Definition albedo_M16 (wavelengths : nd R) (sza ssa r_difftot : fval)
  (impurities : option impurities_dict) (ni : ni_arg) (B g : fval)
  : result (nd fval) :=
  direct <- albedo_direct_M16 wavelengths sza ssa impurities ni B g ;;
  diffuse <- albedo_diffuse_M16 wavelengths ssa impurities ni B g ;;
  Ret (Sc (Fin 1 - r_difftot)%fl * direct + Sc r_difftot * diffuse)%nd.

(** ** Geometry on a slope (Picard et al. 2020, Dumont et al. 2011) *)

Definition local_sza (sza saa slope aspect : fval) : fval :=
  let mu :=
    match sza, saa, slope, aspect with
    | Fin z, Fin a, Fin s, Fin p => Fin (cos_sum FP z a s p)
    | _, _, _, _ =>
        (Float.cos sza * Float.cos slope
         + Float.sin sza * Float.sin slope * Float.cos (saa - aspect))%fl
    end in
  Float.arccos mu.

Definition local_viewing_angle
  (theta_i phi_i theta_v phi_v slope aspect : fval) : fval * fval * fval :=
  (* Local incident zenith angle *)
  let mu_i := (Float.cos theta_i * Float.cos slope
               + Float.sin theta_i * Float.sin slope
                 * Float.cos (phi_i - aspect))%fl in
  let mu_i := if (mu_i <? Fin 0.000001)%fl then NaN else mu_i in
  (* Local viewing zenith angle *)
  let mu_v := (Float.cos theta_v * Float.cos slope
               + Float.sin theta_v * Float.sin slope
                 * Float.cos (phi_v - aspect))%fl in
  let theta_i_eff := Float.arccos mu_i in
  let theta_v_eff := Float.arccos mu_v in
  let theta_v_eff :=
    if (theta_v_eff >? Float.radians (Fin 90))%fl then NaN
    else theta_v_eff in
  (* Local relative azimuth angle *)
  let mu_az_numerator :=
    (Float.cos theta_v * Float.cos theta_i
     + Float.sin theta_v * Float.sin theta_i * Float.cos (phi_v - phi_i)
     - mu_i * mu_v)%fl in
  let mu_az_denominator :=
    (Float.sin theta_i_eff * Float.sin theta_v_eff)%fl in
  let mu_az :=
    if Float.ne mu_az_denominator (Fin 0)
    then (mu_az_numerator / mu_az_denominator)%fl
    else Fin 0 in
  let mu_az := Float.clip mu_az (Fin (-1)) (Fin 1) in
  let raa_eff := Float.arccos mu_az in
  (theta_i_eff, theta_v_eff, raa_eff).

(** ** Albedo on a tilted terrain (Picard et al. 2020) *)

(** [model[:-1]] *)
Fixpoint drop_last (s : string) : string :=
  match s with
  | EmptyString => EmptyString
  | String c EmptyString => EmptyString
  | String c rest => String c (drop_last rest)
  end.

(** The end of [albedo_P20_slope]: negative values become NaN, through
    [np.where] for an array and through [if alpha < 0] for a scalar. *)
Definition negative_to_nan (alpha : nd fval) : nd fval :=
  match alpha with
  | Arr xs => Arr (List.map (fun a => if (a >=? Fin 0)%fl then a else NaN) xs)
  | Sc a => Sc (if (a <? Fin 0)%fl then NaN else a)
  end.

(** [albedo_P20_slope] is one Python function; its body is cut here in
    the parts it is made of.  First the three flat albedos: the fixed one
    when [fixed_flat_albedo] is given and true, else the direct albedo at
    the local and at the true sza and the diffuse albedo. *)
Definition flat_albedos (wavelengths : nd R) (lsza sza ssa : fval)
  (fixed_flat_albedo : option fval) (impurities : option impurities_dict)
  (ni : ni_arg) (B g : fval) : result (nd fval * nd fval * nd fval) :=
  let computed :=
    alb_loc_dir <- albedo_direct_KZ04 wavelengths lsza ssa
                     impurities ni B g ;;
    alb_dir <- albedo_direct_KZ04 wavelengths sza ssa impurities ni B g ;;
    alb_diff <- albedo_diffuse_KZ04 wavelengths ssa impurities ni B g ;;
    Ret (alb_loc_dir, alb_dir, alb_diff) in
  match fixed_flat_albedo with
  | Some f => if Float.truthy f then Ret (Sc f, Sc f, Sc f) else computed
  | None => computed
  end.

(** The branch [if (not measured_difftot) and (model in ['DM', 'SM'])],
    after the recursive call has returned [albedo_top]. *)
Definition top_of_hill_coupling (model : string) (K V r_difftot : fval)
  (M alb_loc_dir alb_dir alb_diff albedo_top : nd fval)
  : result (nd fval) :=
  if String.eqb model "DM" then
    if (K >? Fin 0)%fl then
      Ret (albedo_top
           / (Sc (Fin 1 - (Fin 1 - V) * r_difftot)%fl
              + Sc ((Fin 1 - V) / V)%fl * albedo_top))%nd
    else if (r_difftot >? Fin 0)%fl then
      Ret (Sc V * alb_diff / (Sc (Fin 1) + M))%nd
    else Ret (Sc NaN)
  else if String.eqb model "SM" then
    if (K >? Fin 0)%fl then
      Ret (albedo_top
           / (Sc (Fin 1)
              + Sc (Fin 1 - V)%fl
                * (Sc (Fin 1 - r_difftot)%fl
                   * (Sc K * alb_loc_dir + M * alb_dir)
                   / (Sc (Fin 1) - M * M)
                   + Sc r_difftot
                     * (Sc V / (Sc (Fin 1) - M) * alb_diff
                        - Sc (Fin 1)))))%nd
    else if (r_difftot >? Fin 0)%fl then Ret alb_diff
    else Ret (Sc NaN)
  else Raise (RuntimeError "should not be here").

(** The chain [if model == "small_slope": ... else: raise ValueError] and
    the end of the function. *)
Definition slope_model (model : string) (K V r_difftot : fval)
  (M alb_loc_dir alb_dir alb_diff : nd fval) : result (nd fval) :=
  AA <-
    (if String.eqb model "small_slope" then
       Ret ((Sc K * alb_loc_dir)%nd, alb_diff)
     else if String.eqb model "DT" then
       Ret ((Sc (V * K)%fl * alb_loc_dir)%nd,
            (Sc (V * V)%fl * alb_diff)%nd)
     else if String.eqb model "DM" then
       let Adir := (Sc V / (Sc (Fin 1) + M) * Sc K * alb_loc_dir)%nd in
       let Adiff := (Sc V / (Sc (Fin 1) + M) * alb_diff)%nd in
       if (K =? Fin 0)%fl
       then Raise (NotImplementedError "Incorrect in the self-shadow")
       else Ret (Adir, Adiff)
     else if String.eqb model "ST" then
       Ret (((Sc V + M * Sc (Fin 1 - V)%fl) * Sc K * alb_loc_dir
             + (M * Sc V + Sc (Fin 1 - V)%fl) * alb_dir)
            / (Sc (Fin 1) - M * M),
            Sc V / (Sc (Fin 1) - M) * alb_diff)%nd
     else if String.eqb model "SM" then
       let Adir := (Sc V / (Sc (Fin 1) + M) * Sc K * alb_loc_dir
                    + Sc (Fin 1 - V)%fl / (Sc (Fin 1) + M) * alb_dir)%nd
       in
       let Adiff := alb_diff in
       if (K =? Fin 0)%fl
       then Raise (NotImplementedError "Incorrect in the self-shadow")
       else Ret (Adir, Adiff)
     else if String.eqb model "flat" then Ret (alb_dir, alb_diff)
     else Raise (ValueError "Invalid slope model")) ;;
  let '(Adir, Adiff) := AA in
  let alpha := (Sc (Fin 1 - r_difftot)%fl * Adir
                + Sc r_difftot * Adiff)%nd in
  Ret (negative_to_nan alpha).

(** [albedo_P20_slope] calls itself once, for "DM" and "SM", on the model
    at the top of the hill ("DT", "ST"), which does not recurse: [depth]
    bounds the nesting of Python calls, and 1 is enough (see
    [albedo_P20_slope_depth]). *)
Fixpoint albedo_P20_slope_rec (depth : nat) (wavelengths : nd R)
  (sza saa ssa r_difftot slope aspect : fval) (model : string)
  (measured_difftot : bool) (fixed_flat_albedo : option fval)
  (impurities : option impurities_dict) (ni : ni_arg) (B g : fval)
  {struct depth} : result (nd fval) :=
  let lsza := local_sza sza saa slope aspect in
  if (lsza >=? Fin (PI / 2))%fl || (lsza <? Fin 0)%fl then Ret (Sc NaN)
  else
    albs <- flat_albedos wavelengths lsza sza ssa fixed_flat_albedo
              impurities ni B g ;;
    let '(alb_loc_dir, alb_dir, alb_diff) := albs in
    let K := Float.pymax (Float.cos lsza / Float.cos sza)%fl (Fin 0) in
    let V := ((Fin 1 + Float.cos slope) / Fin 2)%fl in
    let M := (Sc (Fin 1 - V)%fl * alb_diff)%nd in
    if negb measured_difftot && in_strings model ["DM"; "SM"]%string then
      match depth with
      | O => Raise RecursionError
      | S depth' =>
          (* switch to the equivalent model at the top of the hill *)
          let model_top := (drop_last model ++ "T")%string in
          albedo_top <- albedo_P20_slope_rec depth' wavelengths sza saa ssa
                          r_difftot slope aspect model_top false
                          fixed_flat_albedo impurities ni B g ;;
          top_of_hill_coupling model K V r_difftot M alb_loc_dir alb_dir
            alb_diff albedo_top
      end
    else
      slope_model model K V r_difftot M alb_loc_dir alb_dir alb_diff.

Definition albedo_P20_slope := albedo_P20_slope_rec 1.

(** ** Zero-order BRF, Kokhanovsky and Breon 2012 *)

Definition brf0_KB12 (theta_i theta_v phi : fval) (RAA_formalism : string)
  : result fval :=
  new_phi <-
    (if String.eqb RAA_formalism "angular" then Ret (Fin PI - phi)%fl
     else if String.eqb RAA_formalism "vectorial" then Ret phi
     else Raise (ValueError "Invalid RAA_formalism in brf0")) ;;
  let theta :=
    Float.degrees
      (Float.arccos
         (Float.clip
            (- Float.cos theta_i * Float.cos theta_v
             + Float.sin theta_i * Float.sin theta_v * Float.cos new_phi)%fl
            (Fin (-1)) (Fin 1))) in
  let phase := (Fin 11.1 * Float.exp (- Fin 0.087 * theta)
                + Fin 1.1 * Float.exp (- Fin 0.014 * theta))%fl in
  let rr := (Fin 1.247
             + Fin 1.186 * (Float.cos theta_i + Float.cos theta_v)
             + Fin 5.157 * (Float.cos theta_i * Float.cos theta_v)
             + phase)%fl in
  Ret (rr / (Fin 4 * (Float.cos theta_i + Float.cos theta_v)))%fl.

(** ** Correction of a timeseries of albedo *)

(** The five [extras] of [difference_function]: albedo and difftot are
    2-D, time first and wavelength second; sza and saa are 1-D over time. *)
Record extras : Type := {
  ex_albedo : list (list fval);
  ex_difftot : list (list fval);
  ex_sza : list fval;
  ex_saa : list fval;
  ex_wls : list R
}.

(** Elements of [a] selected by the mask
    [(wls >= range[0]) & (wls <= range[1])]. *)
Fixpoint select_range {A} (range : R * R) (wls : list R) (a : list A)
  : list A :=
  match wls, a with
  | w :: wls', x :: a' =>
      if Rleb (fst range) w && Rleb w (snd range)
      then x :: select_range range wls' a'
      else select_range range wls' a'
  | _, _ => []
  end.

(** [model] of [difference_function], row by row over time:
    [(1 - difftot) * K[:, None] * adiff**n[:, None] + difftot * adiff]. *)
Fixpoint model_rows (difftot : list (list fval)) (K n : list fval)
  (adiff : list fval) : list (list fval) :=
  match difftot, K, n with
  | d :: difftot', k :: K', e :: n' =>
      Nd.zip_with
        (fun dw aw => ((Fin 1 - dw) * k * Float.pow aw e + dw * aw)%fl)
        d adiff
      :: model_rows difftot' K' n' adiff
  | _, _, _ => []
  end.

Definition unwrap (a : nd fval) : list fval :=
  match a with
  | Sc x => [x]
  | Arr xs => xs
  end.

(** [np.ravel(model - albedo)] *)
Definition ravel_diff (model albedo : list (list fval)) : list fval :=
  List.concat
    (Nd.zip_with (fun m a => Nd.zip_with Float.sub m a) model albedo).

Section Closures.

Variable wavelength_range_0 : R * R.
Variable albedo_0 : fval.

(** [difference_function(params, *extras, constrained=...)], with
    [return_model] left at False as all the calls of the program do; the
    arrays of [extras] are aligned (the shapes the docstring asks for). *)
Definition difference_function (params : list fval) (e : extras)
  (constrained : bool) : result (list fval) :=
  sam <-
    (if constrained then
       match params with
       | slope :: aspect :: multiplier :: adiff =>
           Ret (slope, aspect, multiplier, adiff)
       | _ => Raise (ValueError "not enough values to unpack")
       end
     else
       match params with
       | slope :: aspect :: adiff => Ret (slope, aspect, NaN, adiff)
       | _ => Raise (ValueError "not enough values to unpack")
       end) ;;
  let '(slope, aspect, multiplier, adiff) := sam in
  let sza := Arr (ex_sza e) in
  let saa := Arr (ex_saa e) in
  (* local sza *)
  let coslsza :=
    (Nd.map Float.cos sza * Sc (Float.cos slope)
     + Nd.map Float.sin sza * Sc (Float.sin slope)
       * Nd.map Float.cos (saa - Sc aspect))%nd in
  let K := (coslsza / Nd.map Float.cos sza)%nd in
  let n := (Sc (Fin 3 / Fin 7)%fl
            * (Sc (Fin 1) + Sc (Fin 2) * coslsza))%nd in
  let model := model_rows (ex_difftot e) (unwrap K) (unwrap n) adiff in
  if constrained then
    Ret (ravel_diff model (ex_albedo e)
         ++ List.map (fun a => (multiplier * (a - albedo_0))%fl)
              (select_range wavelength_range_0 (ex_wls e) adiff))
  else Ret (ravel_diff model (ex_albedo e)).

(** The sum of the squares of [difference_function], called with the
    arguments of [cost_function]. *)
Definition cost_function (params : list fval) (e : extras)
  : result fval :=
  d <- difference_function params e false ;;
  Ret (fold_left Float.add (List.map (fun x => (x * x)%fl) d) (Fin 0)).

End Closures.

(** [np.mean(albedo, axis=0)]: the mean over time, per wavelength. *)
Fixpoint column_sums (rows : list (list fval)) : list fval :=
  match rows with
  | [] => []
  | [row] => row
  | row :: rows' => Nd.zip_with Float.add row (column_sums rows')
  end.

Definition mean_axis0 (rows : list (list fval)) : list fval :=
  List.map (fun x => (x / Fin (INR (List.length rows)))%fl)
    (column_sums rows).

(** The scipy optimizers, black boxes: [leastsq func x0] and
    [minimize fun x0 constraint] stand for
    [scipy.optimize.leastsq(func, x0, args=..., full_output=True)[0]] and
    [scipy.optimize.minimize(fun, x0, args=..., constraints=...).x], the
    [args] already given to the function. *)
Variable leastsq :
  (list fval -> result (list fval)) -> list fval -> result (list fval).
Variable minimize :
  (list fval -> result fval) -> list fval -> (list fval -> list fval)
  -> result (list fval).

(** The first part of [albedo_timeseries_correction], up to the vector
    [result] that the optimizer returns. *)
Definition fitted_parameters (wavelengths : list R)
  (albedo difftot : list (list fval)) (sza saa : list fval)
  (constrained : bool) (wavelength_range_0 : option (R * R))
  (albedo_0 : fval) : result (list fval) :=
  let wavelength_range_0 :=
    match wavelength_range_0 with
    | None => (400e-9, 500e-9)
    | Some r => r
    end in
  let e := {| ex_albedo := albedo; ex_difftot := difftot; ex_sza := sza;
              ex_saa := saa; ex_wls := wavelengths |} in
  params0 <-
    (match albedo with
     | [] => Raise (TypeError "mean of an empty timeseries is not iterable")
     | _ => Ret (Fin 0.001 :: Fin PI :: mean_axis0 albedo)
     end) ;;
  if constrained then
    minimize
      (fun params => cost_function wavelength_range_0 albedo_0 params e)
      params0
      (fun params =>
         List.map (fun a => (a - albedo_0)%fl)
           (select_range wavelength_range_0 wavelengths (skipn 2 params)))
  else
    leastsq
      (fun params =>
         difference_function wavelength_range_0 albedo_0 params e false)
      params0.

(** [np.mod(x, y)]: for finite arguments and a positive divisor, what the
    doubles give. *)
Definition np_mod (x y : fval) : fval :=
  match x, y with
  | Fin a, Fin m => if Rltb 0 m then Fin (remainder FP a m)
                    else Float.np_mod x y
  | _, _ => Float.np_mod x y
  end.

Definition albedo_timeseries_correction (wavelengths : list R)
  (albedo difftot : list (list fval)) (sza saa : list fval)
  (constrained : bool) (wavelength_range_0 : option (R * R))
  (albedo_0 : fval) : result (list fval * fval * fval) :=
  result <- fitted_parameters wavelengths albedo difftot sza saa
              constrained wavelength_range_0 albedo_0 ;;
  let albedo_diff := skipn 2 result in
  match result with
  | slope :: aspect :: _ =>
      let '(slope, aspect) :=
        if (slope <? Fin 0)%fl then ((- slope)%fl, (aspect + Fin PI)%fl)
        else (slope, aspect) in
      Ret (albedo_diff, slope, np_mod aspect (Fin 2 * Fin PI)%fl)
  | _ => Raise IndexError
  end.

End Snowoptics.

(** ** The formulas of the specification, at one wavelength *)

(** [alpha = 16/3 * cossalb / (1 - g)] *)
Definition alpha_at (g cossalb : fval) : fval :=
  (Fin 16 / Fin 3 * cossalb / (Fin 1 - g))%fl.

(** [exp(-sqrt(alpha) * 3/7 * (1 + 2 cos(sza)))] *)
Definition direct_KZ04_at (cos_sza alpha : fval) : fval :=
  Float.exp (- Float.sqrt alpha * Fin 3 / Fin 7
             * (Fin 1 + Fin 2 * cos_sza))%fl.

(** [exp(-sqrt(alpha))] *)
Definition diffuse_KZ04_at (alpha : fval) : fval :=
  Float.exp (- Float.sqrt alpha)%fl.

(** The diffuse-fraction-weighted sum [(1 - r) * direct + r * diffuse]. *)
Definition mix (r direct diffuse : fval) : fval :=
  ((Fin 1 - r) * direct + r * diffuse)%fl.

(** [y = 4 sqrt((1 - w0) / (3 (1 - w0 g)))] with [w0 = 1 - cossalb] *)
Definition y_M16_at (g cossalb : fval) : fval :=
  let w0 := (Fin 1 - cossalb)%fl in
  (Fin 4 * Float.sqrt ((Fin 1 - w0) / (Fin 3 * (Fin 1 - w0 * g))))%fl.

(** [exp(-y G(theta))] and [exp(-y)] *)
Definition direct_M16_at (theta y : fval) : fval :=
  Float.exp (- y * G theta)%fl.

Definition diffuse_M16_at (y : fval) : fval := Float.exp (- y)%fl.

(** The cosine of the local solar zenith angle, in real numbers. *)
Definition mu_local (sza saa slope aspect : R) : R :=
  cos sza * cos slope + sin sza * sin slope * cos (saa - aspect).

(** The illumination factor [K = max(cos(lsza) / cos(sza), 0)] of
    [albedo_P20_slope]. *)
Definition K_factor (lsza sza : fval) : fval :=
  Float.pymax (Float.cos lsza / Float.cos sza)%fl (Fin 0).

(** A value that the last step of [albedo_P20_slope] leaves as it is. *)
Definition not_negative (x : fval) : Prop :=
  match x with
  | Fin a => 0 <= a
  | NInf => False
  | PInf | NaN => True
  end.

(** The direct and the diffuse flat albedo at one wavelength are both
    finite, or both NaN. *)
Definition both_finite_or_nan (direct diffuse : fval) : Prop :=
  (exists a b : R, direct = Fin a /\ diffuse = Fin b)
  \/ (direct = NaN /\ diffuse = NaN).

(** [np.where(alpha >= 0, alpha, np.nan)] at one element. *)
Definition clip_negative (a : fval) : fval :=
  if (a >=? Fin 0)%fl then a else NaN.

(** The six slope models. *)
Definition slope_models : list string :=
  ["flat"; "small_slope"; "DT"; "DM"; "ST"; "SM"]%string.

(** The value of the model "flat" on a grid [X], the direct and diffuse
    flat albedos being [D] and [F] of the element. *)
Definition flat_value (A : Type) (X : nd A) (D F : A -> fval) (r : R)
  : nd fval :=
  negative_to_nan (Nd.map (fun x => mix (Fin r) (D x) (F x)) X).

(** What every model returns on a flat surface (slope 0). *)
Definition flat_surface_result (RI : refractive_index) (FP : double_arith)
  (wavelengths : nd R) (sza saa aspect r_difftot : R) (ssa : fval)
  (fixed_flat_albedo : option R) (impurities : option impurities_dict)
  (ni : ni_arg) (B g : fval) : result (nd fval) :=
  match
    flat_albedos RI wavelengths
      (local_sza FP (Fin sza) (Fin saa) (Fin 0) (Fin aspect)) (Fin sza) ssa
      (option_map Fin fixed_flat_albedo) impurities ni B g
  with
  | Raise e => Raise e
  | Ret (_, alb_dir, alb_diff) =>
      Ret (negative_to_nan
             (Sc (Fin 1 - Fin r_difftot)%fl * alb_dir
              + Sc (Fin r_difftot) * alb_diff)%nd)
  end.

(** Collaborators to evaluate the program on: constant indices, and no
    dust formulation but "caponi". *)
Definition RI_example : refractive_index :=
  {| refice := fun _ => Some (fun _ => (1.3, 1e-9));
     refsoot_imag := fun _ _ => 0.5;
     refhulis_imag := fun _ => 0.1;
     refdust_imag := fun _ _ => 0.01;
     MAE_dust_caponi :=
       fun f => if String.eqb f "caponi" then Some (fun _ => 100) else None
  |}.

(** Doubles that never round: the arithmetic to evaluate the program
    on. *)
Definition exact_arith : double_arith.
Proof.
  refine {| cos_sum := mu_local;
            remainder := fun x m => x - Float.Rfloor (x / m) * m |}.
  - intros sza saa aspect. unfold mu_local.
    rewrite cos_0, sin_0. ring.
  - intros x m Hm. unfold Float.Rfloor.
    destruct (base_Int_part (x / m)) as [Hlo Hhi].
    assert (Hx : x = x / m * m) by (field; lra).
    split; nra.
  - intros x m Hx. unfold Float.Rfloor.
    destruct (base_Int_part (x / m)) as [Hlo Hhi].
    assert (Hq : 0 <= x / m < 1).
    { split.
      - apply Rmult_le_pos; [ lra | ]. left. apply Rinv_0_lt_compat. lra.
      - apply (Rmult_lt_reg_r m); [ lra | ].
        replace (x / m * m) with x by (field; lra). lra. }
    assert (Hz : Int_part (x / m) = 0%Z).
    { assert (H1 : (Int_part (x / m) < 1)%Z) by (apply lt_IZR; lra).
      assert (H2 : (-1 < Int_part (x / m))%Z) by (apply lt_IZR; lra).
      lia. }
    rewrite Hz. lra.
Defined.

(** ** The impurity species of the specification *)

(** The recognized species: "BC"/"soot", "hulis", "dust", "dust_skiles",
    and "dust_<formulation>" for a formulation that [MAE_dust_caponi]
    knows. *)
Definition recognized_species (RI : refractive_index) (species : string)
  : bool :=
  in_strings species ["soot"; "BC"; "hulis"; "dust"; "dust_skiles"]%string
  || (String.prefix "dust_" species
      && match MAE_dust_caponi RI
                 (String.substring 5 (String.length species - 5) species)
         with
         | Some _ => true
         | None => false
         end).

(** The species whose absorption needs a density and has no default. *)
Definition no_default_density (species : string) : bool :=
  in_strings species ["hulis"; "dust"; "dust_skiles"]%string.

Definition bare_concentration (v : impurity) : bool :=
  match v with
  | Content _ => true
  | ContentDensity _ _ => false
  end.

(** An entry of the mapping that the specification rejects. *)
Definition rejected_impurity (RI : refractive_index)
  (entry : string * impurity) : bool :=
  negb (recognized_species RI (fst entry))
  || (no_default_density (fst entry) && bare_concentration (snd entry)).

(** ** Valid inputs of the specification *)

Definition positive (x : fval) : Prop :=
  match x with
  | Fin a => 0 < a
  | _ => False
  end.

Definition nonnegative (x : fval) : Prop :=
  match x with
  | Fin a => 0 <= a
  | _ => False
  end.

(** A finite value between 0 and 1. *)
Definition in_unit_interval (x : fval) : Prop :=
  match x with
  | Fin a => 0 <= a <= 1
  | _ => False
  end.

(** A recognized species whose density is resolvable (given and positive,
    or defaulted for "BC"/"soot"), or a dust formulation whose mass
    absorption efficiency is known and nonnegative on the grid. *)
Definition valid_species (RI : refractive_index) (wavelengths : nd R)
  (species : string) (density : option fval) : Prop :=
  (in_strings species ["soot"; "BC"; "hulis"; "dust"; "dust_skiles"]%string
   = true
   /\ match density with
      | Some d => positive d
      | None => in_strings species ["soot"; "BC"]%string = true
      end)
  \/ (in_strings species
        ["soot"; "BC"; "hulis"; "dust"; "dust_skiles"]%string = false
      /\ String.prefix "dust_" species = true
      /\ exists mae,
          MAE_dust_caponi RI
            (String.substring 5 (String.length species - 5) species)
          = Some mae
          /\ Nd.all (fun w => 0 <= mae w) wavelengths).

(** A valid impurity mapping: nonnegative concentrations of valid
    species. *)
Definition valid_impurities (RI : refractive_index) (wavelengths : nd R)
  (impurities : impurities_dict) : Prop :=
  Forall
    (fun entry : string * impurity =>
       nonnegative (fst (unpack_impurity (snd entry)))
       /\ valid_species RI wavelengths (fst entry)
            (snd (unpack_impurity (snd entry))))
    impurities.

(** A resolvable refractive index of ice with a nonnegative imaginary
    part on the grid. *)
Definition valid_ni (RI : refractive_index) (wavelengths : nd R)
  (ni : ni_arg) : Prop :=
  match ni with
  | NiName dataset_name =>
      exists f, refice RI dataset_name = Some f
                /\ Nd.all (fun w => 0 <= snd (f w)) wavelengths
  | NiArr ni =>
      Nd.compatible ni wavelengths = true /\ Nd.all (fun x => 0 <= x) ni
  end.

(** An entry of the impurity mapping with a concentration and a density. *)
Definition impurity_of (content : fval) (density : option fval)
  : impurity :=
  match density with
  | None => Content content
  | Some d => ContentDensity content d
  end.

(** Two numpy values of the same shape: two scalars, or two arrays of one
    length. *)
Definition same_shape {A B} (a : nd A) (b : nd B) : Prop :=
  Nd.all2 (fun _ _ => True) a b.

(** One value satisfying [P] for each wavelength of the grid: the shape of
    the grid, and [P] at every element. *)
Definition at_every_wavelength (P : fval -> Prop) (wavelengths : nd R)
  (a : nd fval) : Prop :=
  Nd.all2 (fun _ x => P x) wavelengths a.

(** An ice index given on the grid: a dataset name, one number for all
    wavelengths, or an array of the shape of [wavelengths]. *)
Definition ni_on_grid (wavelengths : nd R) (ni : ni_arg) : Prop :=
  match ni with
  | NiName _ => True
  | NiArr (Sc _) => True
  | NiArr (Arr xs) => same_shape wavelengths (Arr xs)
  end.

(** [x] is not above [y]: both finite and [x <= y], or the same special
    value on both sides. *)
Definition not_decreased (x y : fval) : Prop :=
  match x, y with
  | Fin a, Fin b => a <= b
  | _, _ => x = y
  end.

(** * The rest of the module *)

Module FloatMore.

(** [np.minimum] and [np.maximum] on one element: NaN goes through. *)
Definition minimum (x y : fval) : fval :=
  match x, y with
  | NaN, _ | _, NaN => NaN
  | _, _ => if (x <=? y)%fl then x else y
  end.

Definition maximum (x y : fval) : fval :=
  match x, y with
  | NaN, _ | _, NaN => NaN
  | _, _ => if (x >=? y)%fl then x else y
  end.

End FloatMore.



Section SnowopticsRest.

Variable RI : refractive_index.
Variable FP : double_arith.

(** ** Shape factor and extinction *)

Definition compute_b (B g : fval) : result fval :=
  q <- py_div B (Fin 1 - g)%fl ;;
  Ret (Fin 4 / Fin 3 * Float.sqrt q)%fl.


(** ** Direct albedo on a slope *)

Definition albedo_direct_KZ04_slope (wavelengths : nd R) (sza ssa : fval)
  (impurities : option impurities_dict) (ni : ni_arg) (B g : fval)
  (slope aspect saa : fval) : result (nd fval) :=
  let sza_eff := local_sza FP sza saa slope aspect in
  albedo_direct_KZ04 RI wavelengths sza_eff ssa impurities ni B g.

(** ** Correction of one albedo spectrum *)

(** The body of the loop of [albedo_correction_with_slope]. *)
Definition correction_step (albedo difftot : nd fval) (K n : fval)
  (albedo_diff : nd fval) : nd fval :=
  let albedo_diff :=
    ((albedo
      - (Sc (Fin 1) - difftot) * Sc K
        * (Nd.map (fun a => Float.pow a n) albedo_diff - albedo_diff))
     / (difftot + (Sc (Fin 1) - difftot) * Sc K))%nd in
  Nd.map (fun a => FloatMore.maximum a (Fin 0)) albedo_diff.

Fixpoint iterate {A} (niteration : nat) (step : A -> A) (x : A) : A :=
  match niteration with
  | O => x
  | S k => iterate k step (step x)
  end.

Definition albedo_correction_with_slope (albedo difftot : nd fval)
  (sza K : fval) (niteration : nat) : nd fval * nd fval :=
  let n := (Fin 3 / Fin 7 * (Fin 1 + Fin 2 * K * Float.cos sza))%fl in
  (* first guess *)
  let albedo_diff := Nd.map (fun a => FloatMore.minimum a (Fin 1)) albedo in
  let albedo_diff :=
    iterate niteration (correction_step albedo difftot K n) albedo_diff in
  (albedo_diff, Nd.map (fun a => Float.pow a n) albedo_diff).

(** The body of the loop of [albedo_correction_with_slope2]. *)
Definition correction_step2 (albedo difftot : nd fval) (K n : fval)
  (albedo_diff : nd fval) : nd fval :=
  let albedo_diff :=
    Nd.map (fun a => Float.pow a (Fin 1 / n)%fl)
      ((albedo
        - difftot
          * (albedo_diff - Nd.map (fun a => Float.pow a n) albedo_diff))
       / ((Sc (Fin 1) - difftot) * Sc K + difftot))%nd in
  Nd.map (fun a => FloatMore.maximum a (Fin 0)) albedo_diff.

Definition albedo_correction_with_slope2 (albedo difftot : nd fval)
  (sza K : fval) (niteration : nat) : nd fval * nd fval :=
  let n := (Fin 3 / Fin 7 * (Fin 1 + Fin 2 * K * Float.cos sza))%fl in
  (* first guess *)
  let albedo_diff := Nd.map (fun a => FloatMore.minimum a (Fin 1)) albedo in
  let albedo_diff :=
    iterate niteration (correction_step2 albedo difftot K n) albedo_diff in
  (albedo_diff, Nd.map (fun a => Float.pow a n) albedo_diff).


(** ** Bidirectional reflectance *)

Definition brf_KB12 (wavelengths : nd R) (theta_i theta_v phi ssa x M : fval)
  (ni : ni_arg) (RAA_formalism : string) : result (nd fval) :=
  (* r0 in kokhanovsky's paper *)
  r <- brf0_KB12 theta_i theta_v phi RAA_formalism ;;
  (* k0 for theta_v and theta i *)
  let k0v := G theta_v in
  let k0i := G theta_i in
  (* get refractive index *)
  ni <- resolve_ni RI wavelengths ni ;;
  let gamma := (Sc (Fin 4 * Fin PI)%fl * (ni + Sc M)
                / lift wavelengths)%nd in
  let alpha := Nd.sqrt (gamma * Sc x * Sc (Fin 6)
                        / Sc (Fin 917 * ssa)%fl)%nd in
  Ret (Sc r * Nd.exp (- alpha * Sc k0i * Sc k0v / Sc r))%nd.

Definition brf_M16 (wavelengths : nd R) (theta_i theta_v phi ssa : fval)
  (impurities : option impurities_dict) (ni : ni_arg) (B g : fval)
  (RAA_formalism : string) : result (nd fval) :=
  R0 <- brf0_KB12 theta_i theta_v phi RAA_formalism ;;
  y <- y_M16 RI wavelengths ssa impurities ni B g ;;
  let theta0 := theta_i in
  let theta := theta_v in
  let Y := (y * Sc (G theta0) * Sc (G theta) / Sc R0)%nd in
  Ret (Sc R0 * Nd.exp (- Y))%nd.

Definition brf_M16_slope (wavelengths : nd R)
  (theta_i theta_v phi_i phi_v slope aspect ssa : fval)
  (impurities : option impurities_dict) (ni : ni_arg) (B g : fval)
  (RAA_formalism : string) : result (nd fval) :=
  let '(theta_i, theta_v, phi) :=
    local_viewing_angle theta_i phi_i theta_v phi_v slope aspect in
  brf_M16 wavelengths theta_i theta_v phi ssa impurities ni B g
    RAA_formalism.

Definition brf_KB12_slope (wavelengths : nd R)
  (theta_i theta_v phi_i phi_v slope aspect ssa x M : fval) (ni : ni_arg)
  (RAA_formalism : string) : result (nd fval) :=
  let '(theta_i, theta_v, phi) :=
    local_viewing_angle theta_i phi_i theta_v phi_v slope aspect in
  brf_KB12 wavelengths theta_i theta_v phi ssa x M ni RAA_formalism.

End SnowopticsRest.


(** Both finite, the second not above the first. *)
Definition not_increased (x y : fval) : Prop :=
  exists p q : R, x = Fin p /\ y = Fin q /\ q <= p.

(** * Properties *)

(** ** Deciding the tests on reals *)

Lemma Rltb_true x y : Rltb x y = true <-> x < y.
Proof. unfold Rltb; destruct (Rlt_dec x y); split; intros; try easy. Qed.

Lemma Rltb_false x y : Rltb x y = false <-> y <= x.
Proof.
  unfold Rltb; destruct (Rlt_dec x y); split; intros; try easy; lra.
Qed.

Lemma Rleb_true x y : Rleb x y = true <-> x <= y.
Proof. unfold Rleb; destruct (Rle_dec x y); split; intros; try easy. Qed.

Lemma Rleb_false x y : Rleb x y = false <-> y < x.
Proof.
  unfold Rleb; destruct (Rle_dec x y); split; intros; try easy; lra.
Qed.

Lemma Reqb_true x y : Reqb x y = true <-> x = y.
Proof. unfold Reqb; destruct (Req_dec_T x y); split; intros; try easy. Qed.

Lemma Reqb_false x y : Reqb x y = false <-> x <> y.
Proof. unfold Reqb; destruct (Req_dec_T x y); split; intros; try easy. Qed.

Ltac rtest_with tac :=
  repeat match goal with
  | |- context [Rltb ?a ?b] =>
      first [ rewrite (proj2 (Rltb_true a b)) by tac
            | rewrite (proj2 (Rltb_false a b)) by tac ]
  | |- context [Rleb ?a ?b] =>
      first [ rewrite (proj2 (Rleb_true a b)) by tac
            | rewrite (proj2 (Rleb_false a b)) by tac ]
  | |- context [Reqb ?a ?b] =>
      first [ rewrite (proj2 (Reqb_true a b)) by tac
            | rewrite (proj2 (Reqb_false a b)) by tac ]
  end.

Ltac rtest := rtest_with lra.

(** Unfold the float operations, leaving the reals as they are. *)
Ltac fsimpl :=
  repeat progress
    (unfold Float.gt, Float.ge, Float.ne, Float.sub, Float.truthy,
       Float.pymax, Float.degrees, Float.radians, Float.sgn_inf;
     cbn [Float.add Float.mul Float.div Float.neg Float.abs
          Float.sqrt Float.exp Float.cos Float.sin Float.arccos Float.lt
          Float.le Float.eq Float.clip Float.inf_of
          Float.np_mod negb andb orb fst snd]).

(** Simplify, then decide the tests that linear arithmetic decides. *)
Ltac fcalc := repeat (fsimpl; progress rtest); fsimpl.

Lemma Fin_inj a b : Fin a = Fin b -> a = b.
Proof. now intros [= ->]. Qed.

(** ** Division of Python floats *)

Lemma py_div_Fin (x : fval) (y : R) :
  y <> 0 -> py_div x (Fin y) = Ret (x / Fin y)%fl.
Proof. intros Hy. unfold py_div. cbn [Float.eq]. now rtest. Qed.

Lemma py_div_zero (x : fval) : py_div x (Fin 0) = Raise ZeroDivisionError.
Proof. unfold py_div. cbn [Float.eq]. now rtest. Qed.

Lemma py_div_ssa (ssa : R) :
  ssa <> 0 ->
  py_div (Fin 2) (Fin ssa * rho_ice)%fl
  = Ret (Fin 2 / (Fin ssa * rho_ice))%fl.
Proof.
  intros Hssa. unfold rho_ice. cbn [Float.mul].
  apply py_div_Fin. nra.
Qed.

Lemma py_div_nonzero (x y : fval) :
  y <> Fin 0 -> py_div x y = Ret (x / y)%fl.
Proof.
  intros Hy. destruct y as [r | | | ]; try reflexivity.
  apply py_div_Fin. intros ->. now apply Hy.
Qed.

Lemma ssa_rho_ice_nonzero (ssa : fval) :
  ssa <> Fin 0 -> (ssa * rho_ice)%fl <> Fin 0.
Proof.
  intros Hssa. unfold rho_ice.
  destruct ssa as [r | | | ]; cbn [Float.mul]; unfold Float.sgn_inf;
    rtest; try discriminate.
  intros H. apply Hssa. injection H as H. f_equal. nra.
Qed.

(** ** The geometry transform at nadir on flat terrain *)

(** C2 (what the code returns): for nadir illumination and
    view on a flat surface, whatever the azimuths and the aspect,
    [local_viewing_angle] returns the local zenith angles 0 and 0, but the
    relative azimuth it returns is pi/2, not 0: the guard against the zero
    denominator sets the cosine of the relative azimuth to zero, and the
    arccos that follows turns it into a right angle. *)
Theorem local_viewing_angle_nadir_flat (phi_i phi_v aspect : R) :
  local_viewing_angle (Fin 0) (Fin phi_i) (Fin 0) (Fin phi_v) (Fin 0)
    (Fin aspect)
  = (Fin 0, Fin 0, Fin (PI / 2))
  /\ Fin (PI / 2) <> Fin 0.
Proof.
  pose proof PI_RGT_0 as Hpi.
  split.
  - unfold local_viewing_angle. fsimpl.
    rewrite cos_0, sin_0.
    assert (E : forall x, (1 * 1 + 0 * 0 * x)%R = 1) by (intros; ring).
    rewrite !E. fcalc. rewrite acos_1. fcalc. rewrite sin_0.
    replace (0 * 0)%R with 0 by ring. fcalc.
    now rewrite acos_0.
  - intros H. apply Fin_inj in H. lra.
Qed.

(** ** Algebra of the float operations *)

Module FloatFacts.

Lemma add_comm (x y : fval) : (x + y)%fl = (y + x)%fl.
Proof. destruct x, y; cbn; try reflexivity. f_equal. ring. Qed.

Lemma mul_comm (x y : fval) : (x * y)%fl = (y * x)%fl.
Proof. destruct x, y; cbn; try reflexivity. f_equal. ring. Qed.

Lemma sgn_inf_opp (pos : bool) (r : R) :
  Float.sgn_inf pos (- r) = Float.sgn_inf (negb pos) r.
Proof.
  unfold Float.sgn_inf.
  destruct (Rtotal_order r 0) as [H | [H | H]]; rtest; try reflexivity.
  now destruct pos.
Qed.

Lemma neg_mul_swap (x y : fval) : (- x * y)%fl = (- y * x)%fl.
Proof.
  destruct x, y; cbn [Float.neg Float.mul]; try reflexivity;
    try (f_equal; ring); now rewrite sgn_inf_opp.
Qed.

End FloatFacts.

(** ** Reciprocity of the zero-order BRF *)

(** C10: [brf0_KB12] is symmetric under the exchange of the illumination
    and viewing zenith angles, for every relative azimuth and every value
    of [RAA_formalism] (an invalid one raises the same ValueError on both
    sides), also on the infinities and on NaN. *)
Theorem brf0_KB12_reciprocity (theta_i theta_v phi : fval)
  (RAA_formalism : string) :
  brf0_KB12 theta_i theta_v phi RAA_formalism
  = brf0_KB12 theta_v theta_i phi RAA_formalism.
Proof.
  unfold brf0_KB12.
  destruct (if String.eqb RAA_formalism "angular" then _ else _)
    as [new_phi | e]; cbn [bind]; [ | reflexivity ].
  rewrite (FloatFacts.neg_mul_swap (Float.cos theta_v) (Float.cos theta_i)).
  rewrite (FloatFacts.mul_comm (Float.sin theta_v) (Float.sin theta_i)).
  rewrite (FloatFacts.add_comm (Float.cos theta_v) (Float.cos theta_i)).
  rewrite (FloatFacts.mul_comm (Float.cos theta_v) (Float.cos theta_i)).
  reflexivity.
Qed.

(** ** Normalisation of the fitted slope and aspect *)

Lemma np_mod_2PI (FP : double_arith) (a : R) :
  np_mod FP (Fin a) (Fin 2 * Fin PI)%fl = Fin (remainder FP a (2 * PI)).
Proof.
  pose proof PI_RGT_0. cbn [Float.mul]. unfold np_mod. now rtest.
Qed.

(** What the program does with a fit that is not a number: the slope
    comes back as it is, neither flipped nor nonnegative. *)
Lemma nan_fit_is_returned :
  albedo_timeseries_correction exact_arith
    (fun _ _ => Ret [NaN; Fin 0; Fin 0.5]) (fun _ _ _ => Ret [])
    [500e-9] [[Fin 0.5]] [[Fin 0.5]] [Fin 1] [Fin 0] false None (Fin 0.98)
  = Ret ([Fin 0.5], NaN, Fin 0).
Proof.
  pose proof PI_RGT_0.
  unfold albedo_timeseries_correction, fitted_parameters.
  cbn [bind skipn Float.lt]. rewrite np_mod_2PI.
  rewrite remainder_small by lra. reflexivity.
Qed.

(** C9 (amended): when the optimizer (in either mode) has fitted a finite
    slope [s] and a finite aspect [a], [albedo_timeseries_correction]
    returns the fitted diffuse albedo with a slope that is nonnegative and
    an aspect in the closed interval [0, 2 pi]: a negative slope has its
    sign flipped and its aspect rotated by pi, and the aspect goes through
    [np.mod(., 2 pi)], which leaves a value of [0, 2 pi) as it is and
    whose result, on doubles, can be 2 pi itself. *)
Theorem albedo_timeseries_correction_normalized (FP : double_arith)
  (leastsq :
     (list fval -> result (list fval)) -> list fval -> result (list fval))
  (minimize :
     (list fval -> result fval) -> list fval -> (list fval -> list fval)
     -> result (list fval))
  (wavelengths : list R) (albedo difftot : list (list fval))
  (sza saa : list fval) (constrained : bool)
  (wavelength_range_0 : option (R * R)) (albedo_0 : fval)
  (s a : R) (albedo_diff : list fval) :
  fitted_parameters leastsq minimize wavelengths albedo difftot sza saa
    constrained wavelength_range_0 albedo_0
  = Ret (Fin s :: Fin a :: albedo_diff) ->
  let rotated := if Rlt_dec s 0 then a + PI else a in
  exists slope aspect : R,
    albedo_timeseries_correction FP leastsq minimize wavelengths albedo
      difftot sza saa constrained wavelength_range_0 albedo_0
    = Ret (albedo_diff, Fin slope, Fin aspect)
    /\ 0 <= slope
    /\ slope = (if Rlt_dec s 0 then - s else s)
    /\ 0 <= aspect <= 2 * PI
    /\ aspect = remainder FP rotated (2 * PI)
    /\ (0 <= rotated < 2 * PI -> aspect = rotated).
Proof.
  intros Hfit rotated. pose proof PI_RGT_0 as Hpi.
  assert (H2pi : 0 < 2 * PI) by lra.
  unfold albedo_timeseries_correction. rewrite Hfit. cbn [bind skipn].
  cbn [Float.lt]. unfold Rltb. subst rotated.
  destruct (Rlt_dec s 0) as [Hs | Hs]; cbn [Float.neg Float.add];
    rewrite np_mod_2PI; eexists _, _;
    (split; [ reflexivity | ]);
    (repeat split; try lra; try apply (remainder_range FP _ _ H2pi));
    intros Hr; now apply remainder_small.
Qed.

(** The theorem at an optimizer that returns slope -1 and aspect 0. *)
Lemma albedo_timeseries_correction_normalized_witness :
  exists slope aspect : R,
    albedo_timeseries_correction exact_arith
      (fun _ _ => Ret [Fin (-1); Fin 0; Fin 0.5]) (fun _ _ _ => Ret [])
      [500e-9] [[Fin 0.5]] [[Fin 0.5]] [Fin 1] [Fin 0] false None (Fin 0.98)
    = Ret ([Fin 0.5], Fin slope, Fin aspect)
    /\ 0 <= slope
    /\ slope = (if Rlt_dec (-1) 0 then - -1 else -1)
    /\ 0 <= aspect <= 2 * PI
    /\ aspect
       = remainder exact_arith (if Rlt_dec (-1) 0 then 0 + PI else 0)
           (2 * PI)
    /\ (0 <= (if Rlt_dec (-1) 0 then 0 + PI else 0) < 2 * PI ->
        aspect = (if Rlt_dec (-1) 0 then 0 + PI else 0)).
Proof.
  apply (albedo_timeseries_correction_normalized exact_arith
           (fun _ _ => Ret [Fin (-1); Fin 0; Fin 0.5])
           (fun _ _ _ => Ret [])
           [500e-9] [[Fin 0.5]] [[Fin 0.5]] [Fin 1] [Fin 0] false None
           (Fin 0.98) (-1) 0 [Fin 0.5]).
  reflexivity.
Defined.

(** ** Broadcasting over one grid *)

Module NdFacts.

Lemma zip_with_map {A B C D} (h : B -> C -> D) (f : A -> B) (g : A -> C)
  (xs : list A) :
  Nd.zip_with h (List.map f xs) (List.map g xs)
  = List.map (fun x => h (f x) (g x)) xs.
Proof. induction xs as [ | x xs IH]; cbn; [ | rewrite IH ]; reflexivity. Qed.

Lemma map_map {A B C} (g : B -> C) (f : A -> B) (a : nd A) :
  Nd.map g (Nd.map f a) = Nd.map (fun x => g (f x)) a.
Proof. destruct a; cbn; [ | rewrite List.map_map ]; reflexivity. Qed.

Lemma map2_Sc_l {A B C} (h : A -> B -> C) (x : A) (b : nd B) :
  Nd.map2 h (Sc x) b = Nd.map (h x) b.
Proof. destruct b; reflexivity. Qed.

Lemma map2_Sc_r {A B C} (h : A -> B -> C) (a : nd A) (y : B) :
  Nd.map2 h a (Sc y) = Nd.map (fun x => h x y) a.
Proof. destruct a as [x | [ | x1 [ | x2 xs]]]; reflexivity. Qed.

(** Two arrays computed from the same grid combine element by element. *)
Lemma map2_map_map {A B C D} (h : B -> C -> D) (f : A -> B) (g : A -> C)
  (a : nd A) :
  Nd.map2 h (Nd.map f a) (Nd.map g a) = Nd.map (fun x => h (f x) (g x)) a.
Proof.
  destruct a as [x | xs]; [ reflexivity | ].
  destruct xs as [ | x1 [ | x2 xs]]; try reflexivity.
  cbn [Nd.map Nd.map2 List.map]. f_equal.
  change (Nd.zip_with h (List.map f (x1 :: x2 :: xs))
            (List.map g (x1 :: x2 :: xs))
          = List.map (fun x => h (f x) (g x)) (x1 :: x2 :: xs)).
  apply zip_with_map.
Qed.

Lemma map2_map_l {A B C} (h : B -> A -> C) (f : A -> B) (a : nd A) :
  Nd.map2 h (Nd.map f a) a = Nd.map (fun x => h (f x) x) a.
Proof.
  rewrite <- (map2_map_map h f (fun x => x) a). f_equal.
  destruct a; cbn; [ | rewrite List.map_id ]; reflexivity.
Qed.

Lemma map2_map_r {A B C} (h : A -> B -> C) (g : A -> B) (a : nd A) :
  Nd.map2 h a (Nd.map g a) = Nd.map (fun x => h x (g x)) a.
Proof.
  rewrite <- (map2_map_map h (fun x => x) g a). f_equal.
  destruct a; cbn; [ | rewrite List.map_id ]; reflexivity.
Qed.

Lemma map_ext_all {A B} (P : A -> Prop) (f g : A -> B) (a : nd A) :
  Nd.all P a -> (forall x, P x -> f x = g x) -> Nd.map f a = Nd.map g a.
Proof.
  intros Ha Hfg. destruct a as [x | xs]; cbn in *.
  - f_equal. auto.
  - f_equal. induction Ha; cbn; [ | f_equal ]; auto.
Qed.

Lemma map_ext {A B} (f g : A -> B) (a : nd A) :
  (forall x, f x = g x) -> Nd.map f a = Nd.map g a.
Proof.
  intros Hfg. destruct a as [x | xs]; cbn; f_equal; auto.
  apply List.map_ext. auto.
Qed.

Lemma all_map {A B} (P : B -> Prop) (f : A -> B) (a : nd A) :
  Nd.all P (Nd.map f a) <-> Nd.all (fun x => P (f x)) a.
Proof.
  destruct a as [x | xs]; cbn; [ tauto | ]. now rewrite Forall_map.
Qed.

Lemma all_impl {A} (P Q : A -> Prop) (a : nd A) :
  (forall x, P x -> Q x) -> Nd.all P a -> Nd.all Q a.
Proof.
  intros H. destruct a as [x | xs]; cbn; [ auto | ].
  apply Forall_impl. auto.
Qed.

Lemma all_true {A} (P : A -> Prop) (a : nd A) :
  (forall x, P x) -> Nd.all P a.
Proof.
  intros H. destruct a as [x | xs]; cbn; [ auto | ].
  apply Forall_forall. auto.
Qed.

End NdFacts.

(** Turn an expression over arrays of one grid into one [Nd.map]. *)
Ltac nd_norm :=
  unfold Nd.add, Nd.sub, Nd.mul, Nd.div, Nd.neg, Nd.sqrt, Nd.exp, Nd.abs,
    lift;
  repeat first
    [ rewrite NdFacts.map_map
    | rewrite NdFacts.map2_Sc_l
    | rewrite NdFacts.map2_Sc_r
    | rewrite NdFacts.map2_map_map
    | rewrite NdFacts.map2_map_l
    | rewrite NdFacts.map2_map_r ].

(** ** The KZ04 formulas *)

Lemma direct_KZ04_at_real (z c g : R) :
  0 <= c -> g < 1 ->
  direct_KZ04_at (Fin (cos z)) (alpha_at (Fin g) (Fin c))
  = Fin (exp (- sqrt (16 / 3 * c / (1 - g)) * 3 / 7 * (1 + 2 * cos z))).
Proof.
  intros Hc Hg. unfold direct_KZ04_at, alpha_at. fcalc.
  assert (0 <= 16 / 3 * c / (1 + - g)).
  { apply Rmult_le_pos; [ lra | ]. left. apply Rinv_0_lt_compat. lra. }
  fcalc. reflexivity.
Qed.

Lemma diffuse_KZ04_at_real (c g : R) :
  0 <= c -> g < 1 ->
  diffuse_KZ04_at (alpha_at (Fin g) (Fin c))
  = Fin (exp (- sqrt (16 / 3 * c / (1 - g)))).
Proof.
  intros Hc Hg. unfold diffuse_KZ04_at, alpha_at. fcalc.
  assert (0 <= 16 / 3 * c / (1 + - g)).
  { apply Rmult_le_pos; [ lra | ]. left. apply Rinv_0_lt_compat. lra. }
  fcalc. reflexivity.
Qed.

Section FlatFormulas.

Variable RI : refractive_index.
Variable wavelengths : nd R.
Variables sza ssa r_difftot : fval.
Variable impurities : option impurities_dict.
Variable ni : ni_arg.
Variables B g : fval.
Variable cossalb : nd fval.

Hypothesis cossalb_returned :
  compute_co_single_scattering_albedo RI wavelengths ssa impurities ni B g
  = Ret cossalb.

Lemma compute_alpha_eq :
  compute_alpha RI wavelengths ssa impurities ni B g
  = Ret (Nd.map (alpha_at g) cossalb).
Proof.
  unfold compute_alpha. rewrite cossalb_returned. cbn [bind].
  nd_norm. reflexivity.
Qed.

Lemma albedo_diffuse_KZ04_eq :
  albedo_diffuse_KZ04 RI wavelengths ssa impurities ni B g
  = Ret (Nd.map (fun c => diffuse_KZ04_at (alpha_at g c)) cossalb).
Proof.
  unfold albedo_diffuse_KZ04. rewrite compute_alpha_eq. cbn [bind].
  nd_norm. reflexivity.
Qed.

Lemma albedo_direct_KZ04_eq (theta : fval) :
  albedo_direct_KZ04 RI wavelengths theta ssa impurities ni B g
  = (if (Float.cos theta >=? Fin 0)%fl
     then Ret (Nd.map
                 (fun c => direct_KZ04_at (Float.cos theta) (alpha_at g c))
                 cossalb)
     else Raise AssertionError).
Proof.
  unfold albedo_direct_KZ04. rewrite compute_alpha_eq. cbn [bind].
  destruct (Float.cos theta >=? Fin 0)%fl; cbn [negb]; [ | reflexivity ].
  nd_norm. reflexivity.
Qed.

Lemma albedo_KZ04_eq :
  albedo_KZ04 RI wavelengths sza ssa r_difftot impurities ni B g
  = (if (Float.cos sza >=? Fin 0)%fl
     then Ret (Nd.map
                 (fun c =>
                    mix r_difftot
                      (direct_KZ04_at (Float.cos sza) (alpha_at g c))
                      (diffuse_KZ04_at (alpha_at g c)))
                 cossalb)
     else Raise AssertionError).
Proof.
  unfold albedo_KZ04.
  rewrite albedo_direct_KZ04_eq, albedo_diffuse_KZ04_eq.
  destruct (Float.cos sza >=? Fin 0)%fl; cbn [bind]; [ | reflexivity ].
  nd_norm. reflexivity.
Qed.

Lemma y_M16_eq :
  y_M16 RI wavelengths ssa impurities ni B g
  = Ret (Nd.map (y_M16_at g) cossalb).
Proof.
  unfold y_M16. rewrite cossalb_returned. cbn [bind].
  nd_norm. reflexivity.
Qed.

Lemma albedo_M16_eq :
  albedo_M16 RI wavelengths sza ssa r_difftot impurities ni B g
  = Ret (Nd.map
           (fun c =>
              mix r_difftot (direct_M16_at sza (y_M16_at g c))
                (diffuse_M16_at (y_M16_at g c)))
           cossalb).
Proof.
  unfold albedo_M16, albedo_direct_M16, albedo_diffuse_M16.
  rewrite y_M16_eq. cbn [bind]. nd_norm. reflexivity.
Qed.

End FlatFormulas.

(** C4: with [alpha = 16/3 * cossalb / (1 - g)] at every wavelength,
    [albedo_direct_KZ04] returns [exp(-sqrt(alpha) * 3/7 * (1 + 2 cos sza))]
    when [cos sza >= 0] and fails its assertion otherwise;
    [albedo_diffuse_KZ04] returns [exp(-sqrt(alpha))]; [albedo_KZ04]
    returns the sum [(1 - r_difftot) * direct + r_difftot * diffuse].
    The last part reads the two formulas in real numbers, for a
    nonnegative co-single-scattering albedo and [g < 1]. *)
Theorem KZ04_formulas (RI : refractive_index) (wavelengths : nd R)
  (sza ssa r_difftot : fval) (impurities : option impurities_dict)
  (ni : ni_arg) (B g : fval) (cossalb : nd fval) :
  compute_co_single_scattering_albedo RI wavelengths ssa impurities ni B g
  = Ret cossalb ->
  let alpha := Nd.map (alpha_at g) cossalb in
  let cos_sza := Float.cos sza in
  compute_alpha RI wavelengths ssa impurities ni B g = Ret alpha
  /\ albedo_direct_KZ04 RI wavelengths sza ssa impurities ni B g
     = (if (cos_sza >=? Fin 0)%fl
        then Ret (Nd.map (direct_KZ04_at cos_sza) alpha)
        else Raise AssertionError)
  /\ albedo_diffuse_KZ04 RI wavelengths ssa impurities ni B g
     = Ret (Nd.map diffuse_KZ04_at alpha)
  /\ albedo_KZ04 RI wavelengths sza ssa r_difftot impurities ni B g
     = (if (cos_sza >=? Fin 0)%fl
        then Ret (Nd.map
                    (fun a => mix r_difftot (direct_KZ04_at cos_sza a)
                                (diffuse_KZ04_at a))
                    alpha)
        else Raise AssertionError)
  /\ (forall z c g' : R, 0 <= c -> g' < 1 ->
      direct_KZ04_at (Fin (cos z)) (alpha_at (Fin g') (Fin c))
      = Fin (exp (- sqrt (16 / 3 * c / (1 - g')) * 3 / 7
                  * (1 + 2 * cos z)))
      /\ diffuse_KZ04_at (alpha_at (Fin g') (Fin c))
         = Fin (exp (- sqrt (16 / 3 * c / (1 - g'))))).
Proof.
  intros Hc alpha cos_sza. subst alpha cos_sza.
  split; [ now apply compute_alpha_eq | ].
  split; [ rewrite (albedo_direct_KZ04_eq _ _ _ _ _ _ _ _ Hc);
           now rewrite NdFacts.map_map | ].
  split; [ rewrite (albedo_diffuse_KZ04_eq _ _ _ _ _ _ _ _ Hc);
           now rewrite NdFacts.map_map | ].
  split; [ rewrite (albedo_KZ04_eq _ _ _ _ _ _ _ _ _ _ Hc);
           now rewrite NdFacts.map_map | ].
  intros z c g' H0 H1. split.
  - now apply direct_KZ04_at_real.
  - now apply diffuse_KZ04_at_real.
Qed.

(** The theorem on a grid of two wavelengths, the ice of [RI_example], no
    impurity, the sun at the zenith and a quarter of diffuse light. *)
Lemma KZ04_formulas_witness :
  exists cossalb : nd fval,
    compute_co_single_scattering_albedo RI_example (Arr [500e-9; 900e-9])
      (Fin 20) None (NiName "p2016") default_B default_g
    = Ret cossalb
    /\ albedo_KZ04 RI_example (Arr [500e-9; 900e-9]) (Fin 0) (Fin 20)
         (Fin 0.25) None (NiName "p2016") default_B default_g
       = (if (Float.cos (Fin 0) >=? Fin 0)%fl
          then Ret (Nd.map
                      (fun a => mix (Fin 0.25)
                                  (direct_KZ04_at (Float.cos (Fin 0)) a)
                                  (diffuse_KZ04_at a))
                      (Nd.map (alpha_at default_g) cossalb))
          else Raise AssertionError).
Proof.
  assert (Hc : compute_co_single_scattering_albedo RI_example
                 (Arr [500e-9; 900e-9]) (Fin 20) None (NiName "p2016")
                 default_B default_g
               = Ret (Sc (Fin 2 / (Fin 20 * rho_ice) * default_B)%fl
                      * (Sc (Fin 4 * Fin PI)%fl
                         * lift (Arr [1e-9; 1e-9])
                         / lift (Arr [500e-9; 900e-9])))%nd).
  { unfold compute_co_single_scattering_albedo. cbn [resolve_ni bind].
    rewrite py_div_ssa by lra. reflexivity. }
  eexists. split.
  - exact Hc.
  - apply (KZ04_formulas RI_example (Arr [500e-9; 900e-9]) (Fin 0) (Fin 20)
             (Fin 0.25) None (NiName "p2016") default_B default_g).
    exact Hc.
Defined.

(** ** Errors of the impurity mapping *)

Lemma raises_Raise {A} (e : exn) : raises (@Raise A e).
Proof. now exists e. Qed.

Lemma raises_Ret {A} (v : A) : ~ raises (Ret v).
Proof. intros [e H]. discriminate. Qed.

Lemma species_MAC_error (RI : refractive_index) (wavelengths : nd R)
  (species : string) (density : option fval) :
  match species_MAC RI wavelengths species density with
  | Ret _ =>
      recognized_species RI species = true
      /\ (no_default_density species = true -> density <> None)
  | Raise e =>
      (recognized_species RI species = false
       /\ e = ValueError "Invalid species")
      \/ (recognized_species RI species = true
          /\ no_default_density species = true /\ density = None
          /\ e = ValueError ("No default density for the impurities '"
                             ++ species ++ "'"))
  end.
Proof.
  unfold species_MAC, recognized_species, no_default_density, in_strings.
  cbn [existsb].
  destruct (String.eqb species "soot") eqn:E1;
    [ apply String.eqb_eq in E1; subst species;
      destruct density; cbn; split; congruence | ].
  destruct (String.eqb species "BC") eqn:E2;
    [ apply String.eqb_eq in E2; subst species;
      destruct density; cbn; split; congruence | ].
  destruct (String.eqb species "hulis") eqn:E3;
    [ apply String.eqb_eq in E3; subst species;
      destruct density; cbn; [ split; congruence | right; auto ] | ].
  destruct (String.eqb species "dust") eqn:E4;
    [ apply String.eqb_eq in E4; subst species;
      destruct density; cbn; [ split; congruence | right; auto ] | ].
  destruct (String.eqb species "dust_skiles") eqn:E5;
    [ apply String.eqb_eq in E5; subst species;
      destruct density; cbn; [ split; congruence | right; auto ] | ].
  cbn [orb].
  destruct (String.prefix "dust_" species); cbn [andb orb].
  - destruct (MAE_dust_caponi RI _); cbn; [ split; congruence | left; auto ].
  - cbn. left; auto.
Qed.

Lemma species_MAC_raises_iff (RI : refractive_index) (wavelengths : nd R)
  (species : string) (v : impurity) :
  raises (species_MAC RI wavelengths species (snd (unpack_impurity v)))
  <-> rejected_impurity RI (species, v) = true.
Proof.
  pose proof (species_MAC_error RI wavelengths species
                (snd (unpack_impurity v))) as H.
  unfold rejected_impurity. cbn [fst snd].
  destruct (species_MAC RI wavelengths species (snd (unpack_impurity v)))
    as [MAC | e].
  - destruct H as [Hr Hd]. rewrite Hr. cbn [negb orb].
    split; [ intros Hx; now apply raises_Ret in Hx | ].
    intros Hx. apply andb_prop in Hx. destruct Hx as [Hn Hb].
    destruct v; [ | discriminate ]. cbn in Hd. now destruct (Hd Hn).
  - split; [ intros _ | intros _; apply raises_Raise ].
    destruct H as [[Hr _] | (Hr & Hn & Hd & _)].
    + now rewrite Hr.
    + rewrite Hr, Hn. destruct v; [ reflexivity | discriminate ].
Qed.

(** One turn of the loop over the species, for an SSA that is not zero
    (a number, an infinity or NaN). *)
Lemma add_impurities_step (RI : refractive_index) (wavelengths : nd R)
  (ssa : fval) (species : string) (v : impurity) (rest : impurities_dict)
  (cossalb : nd fval) :
  ssa <> Fin 0 ->
  add_impurities RI wavelengths ssa ((species, v) :: rest) cossalb
  = (MAC <- species_MAC RI wavelengths species (snd (unpack_impurity v)) ;;
     add_impurities RI wavelengths ssa rest
       (cossalb + Sc (Fin 2 / ssa * fst (unpack_impurity v))%fl * MAC)%nd).
Proof.
  intros Hssa. cbn [add_impurities].
  destruct (unpack_impurity v) as [content density]. cbn [fst snd].
  destruct (species_MAC RI wavelengths species density); cbn [bind];
    [ | reflexivity ].
  now rewrite py_div_nonzero.
Qed.

Lemma Fin_nonzero (ssa : R) : ssa <> 0 -> Fin ssa <> Fin 0.
Proof. intros Hssa H. now injection H. Qed.

Lemma add_impurities_cons (RI : refractive_index) (wavelengths : nd R)
  (ssa : R) (species : string) (v : impurity) (rest : impurities_dict)
  (cossalb : nd fval) :
  ssa <> 0 ->
  add_impurities RI wavelengths (Fin ssa) ((species, v) :: rest) cossalb
  = (MAC <- species_MAC RI wavelengths species (snd (unpack_impurity v)) ;;
     add_impurities RI wavelengths (Fin ssa) rest
       (cossalb
        + Sc (Fin 2 / Fin ssa * fst (unpack_impurity v))%fl * MAC)%nd).
Proof. intros Hssa. now apply add_impurities_step, Fin_nonzero. Qed.

(** The function for an SSA that is not zero: the division of the
    baseline does not raise. *)
Lemma compute_co_single_scattering_albedo_defined (RI : refractive_index)
  (wavelengths : nd R) (ssa : fval) (impurities : option impurities_dict)
  (ni : ni_arg) (B g : fval) :
  ssa <> Fin 0 ->
  compute_co_single_scattering_albedo RI wavelengths ssa impurities ni B g
  = (ni <- resolve_ni RI wavelengths ni ;;
     let cossalb :=
       (Sc (Fin 2 / (ssa * rho_ice) * B)%fl
        * (Sc (Fin 4 * Fin PI)%fl * ni / lift wavelengths))%nd in
     match impurities with
     | None => Ret cossalb
     | Some impurities =>
         add_impurities RI wavelengths ssa impurities cossalb
     end).
Proof.
  intros Hssa. unfold compute_co_single_scattering_albedo.
  destruct (resolve_ni RI wavelengths ni); cbn [bind]; [ | reflexivity ].
  now rewrite py_div_nonzero by now apply ssa_rho_ice_nonzero.
Qed.

Lemma compute_co_single_scattering_albedo_nonzero (RI : refractive_index)
  (wavelengths : nd R) (ssa : R) (impurities : option impurities_dict)
  (ni : ni_arg) (B g : fval) :
  ssa <> 0 ->
  compute_co_single_scattering_albedo RI wavelengths (Fin ssa) impurities
    ni B g
  = (ni <- resolve_ni RI wavelengths ni ;;
     let cossalb :=
       (Sc (Fin 2 / (Fin ssa * rho_ice) * B)%fl
        * (Sc (Fin 4 * Fin PI)%fl * ni / lift wavelengths))%nd in
     match impurities with
     | None => Ret cossalb
     | Some impurities =>
         add_impurities RI wavelengths (Fin ssa) impurities cossalb
     end).
Proof.
  intros Hssa.
  now apply compute_co_single_scattering_albedo_defined, Fin_nonzero.
Qed.

(** At SSA zero the baseline [2.0 / (ssa * rho_ice)] divides by zero,
    before the mapping is looked at. *)
Lemma compute_co_single_scattering_albedo_zero (RI : refractive_index)
  (wavelengths : nd R) (impurities : option impurities_dict)
  (ni : ni_arg) (B g : fval) (ni_values : nd fval) :
  resolve_ni RI wavelengths ni = Ret ni_values ->
  compute_co_single_scattering_albedo RI wavelengths (Fin 0) impurities
    ni B g
  = Raise ZeroDivisionError.
Proof.
  intros Hni. unfold compute_co_single_scattering_albedo, rho_ice.
  rewrite Hni. cbn [bind Float.mul].
  replace (0 * 917) with 0 by ring. now rewrite py_div_zero.
Qed.

Lemma add_impurities_raises_iff (RI : refractive_index)
  (wavelengths : nd R) (ssa : fval) (impurities : impurities_dict)
  (cossalb : nd fval) :
  ssa <> Fin 0 ->
  raises (add_impurities RI wavelengths ssa impurities cossalb)
  <-> existsb (rejected_impurity RI) impurities = true.
Proof.
  intros Hssa. revert cossalb.
  induction impurities as [ | [species v] rest IH]; intros cossalb.
  - cbn. split; [ intros H; now apply raises_Ret in H | discriminate ].
  - rewrite add_impurities_step by assumption. cbn [existsb].
    pose proof (species_MAC_raises_iff RI wavelengths species v) as Hs.
    destruct (species_MAC RI wavelengths species (snd (unpack_impurity v)))
      as [MAC | e].
    + cbn [bind]. rewrite IH.
      destruct (rejected_impurity RI (species, v)); [ | reflexivity ].
      exfalso. apply (raises_Ret MAC). now apply Hs.
    + cbn [bind]. split; [ intros _ | intros _; apply raises_Raise ].
      assert (Hr : rejected_impurity RI (species, v) = true)
        by (apply Hs; apply raises_Raise).
      now rewrite Hr.
Qed.

(** Run the function on [RI_example], for an SSA that is a positive
    literal. *)
Ltac run_cossalb :=
  rewrite ?compute_co_single_scattering_albedo_nonzero by lra;
  cbn [resolve_ni bind app impurity_of RI_example refice];
  rewrite ?add_impurities_cons by lra.

(** With no snow surface at all the function raises, whatever the
    mapping: here without impurities. *)
Lemma zero_ssa_raises :
  compute_co_single_scattering_albedo RI_example (Arr [500e-9]) (Fin 0)
    None (NiName "p2016") default_B default_g
  = Raise ZeroDivisionError.
Proof.
  now apply (compute_co_single_scattering_albedo_zero RI_example
               (Arr [500e-9]) None (NiName "p2016") default_B default_g
               (lift (Arr [1e-9]))).
Qed.

(** C7 (amended): once the refractive index of ice is resolved, and for
    an SSA that is not zero (any other number, an infinity or NaN),
    [compute_co_single_scattering_albedo] raises exactly when the impurity
    mapping has an entry whose species is not recognized (an unknown name,
    or a "dust_<formulation>" of unknown formulation), or an entry given as
    a bare concentration for a species without default density ("hulis",
    "dust", "dust_skiles"); without impurities it does not raise; the error
    of an unrecognized species is ValueError "Invalid species"; "BC" or
    "soot" given as a bare concentration does not raise and is computed
    with the density 1270.  At SSA zero the function raises
    ZeroDivisionError, whatever the mapping. *)
Theorem compute_co_single_scattering_albedo_errors
  (RI : refractive_index) (wavelengths : nd R) (ssa : fval)
  (impurities : impurities_dict) (ni : ni_arg) (B g : fval)
  (ni_values : nd fval) :
  resolve_ni RI wavelengths ni = Ret ni_values ->
  ssa <> Fin 0 ->
  (raises (compute_co_single_scattering_albedo RI wavelengths ssa
             (Some impurities) ni B g)
   <-> existsb (rejected_impurity RI) impurities = true)
  /\ ~ raises (compute_co_single_scattering_albedo RI wavelengths ssa
                 None ni B g)
  /\ (forall species density,
        recognized_species RI species = false ->
        species_MAC RI wavelengths species density
        = Raise (ValueError "Invalid species"))
  /\ (forall species content,
        In species ["BC"; "soot"]%string ->
        rejected_impurity RI (species, Content content) = false
        /\ compute_co_single_scattering_albedo RI wavelengths ssa
             (Some [(species, Content content)]) ni B g
           = compute_co_single_scattering_albedo RI wavelengths ssa
               (Some [(species, ContentDensity content (Fin 1270))]) ni B g
        /\ ~ raises (compute_co_single_scattering_albedo RI wavelengths
                       ssa (Some [(species, Content content)]) ni B g))
  /\ (forall any_impurities,
        compute_co_single_scattering_albedo RI wavelengths (Fin 0)
          any_impurities ni B g
        = Raise ZeroDivisionError).
Proof.
  intros Hni Hssa.
  rewrite !compute_co_single_scattering_albedo_defined by assumption.
  rewrite Hni. cbn [bind].
  split; [ now apply add_impurities_raises_iff | ].
  split; [ apply raises_Ret | ].
  split; [ | split ].
  - intros species density Hr.
    pose proof (species_MAC_error RI wavelengths species density) as H.
    destruct (species_MAC RI wavelengths species density) as [MAC | e].
    + destruct H as [H _]. congruence.
    + destruct H as [[_ ->] | [H _]]; [ reflexivity | congruence ].
  - intros species content Hin.
    assert (Hrej : rejected_impurity RI (species, Content content) = false).
    { destruct Hin as [<- | [<- | []]]; reflexivity. }
    split; [ exact Hrej | ].
    rewrite !compute_co_single_scattering_albedo_defined by assumption.
    rewrite Hni. cbn [bind]. split.
    + destruct Hin as [<- | [<- | []]]; reflexivity.
    + intros Hx. apply add_impurities_raises_iff in Hx; [ | assumption ].
      cbn [existsb] in Hx. rewrite Hrej in Hx. discriminate.
  - intros any_impurities.
    now apply (compute_co_single_scattering_albedo_zero _ _ _ _ _ _
                 ni_values).
Qed.

(** The theorem on the mapping {"BC": 1e-8, "dust": 1e-6}, whose "dust"
    has no density. *)
Lemma compute_co_single_scattering_albedo_errors_witness :
  raises (compute_co_single_scattering_albedo RI_example (Arr [500e-9])
            (Fin 20)
            (Some [("BC"%string, Content (Fin 1e-8));
                   ("dust"%string, Content (Fin 1e-6))])
            (NiName "p2016") default_B default_g)
  <-> existsb (rejected_impurity RI_example)
        [("BC"%string, Content (Fin 1e-8));
         ("dust"%string, Content (Fin 1e-6))] = true.
Proof.
  apply (compute_co_single_scattering_albedo_errors RI_example
           (Arr [500e-9]) (Fin 20)
           [("BC"%string, Content (Fin 1e-8));
            ("dust"%string, Content (Fin 1e-6))]
           (NiName "p2016") default_B default_g
           (lift (Arr [1e-9]))).
  - reflexivity.
  - apply Fin_nonzero. lra.
Defined.

(** ** Relating two arrays of the same shape *)

Module Nd2Facts.

Lemma all2_map_same {A B} (P : A -> Prop) (R : B -> B -> Prop)
  (f g : A -> B) (a : nd A) :
  Nd.all P a -> (forall x, P x -> R (f x) (g x)) ->
  Nd.all2 R (Nd.map f a) (Nd.map g a).
Proof.
  intros Ha H. destruct a as [x | xs]; cbn in *; [ auto | ].
  induction Ha; cbn; constructor; auto.
Qed.

Lemma Forall2_map_const {A B C} (R : B -> B -> Prop) (R' : C -> C -> Prop)
  (f : A -> B -> C) (xs : list A) (y1 y2 : B) :
  (forall x, R y1 y2 -> R' (f x y1) (f x y2)) -> R y1 y2 ->
  Forall2 R' (List.map (fun x => f x y1) xs) (List.map (fun x => f x y2) xs).
Proof. intros H Hy. induction xs; cbn; constructor; auto. Qed.

Lemma Forall2_map {B C} (R : B -> B -> Prop) (R' : C -> C -> Prop)
  (f : B -> C) (ys1 ys2 : list B) :
  (forall y1 y2, R y1 y2 -> R' (f y1) (f y2)) ->
  Forall2 R ys1 ys2 -> Forall2 R' (List.map f ys1) (List.map f ys2).
Proof. intros H Hy. induction Hy; cbn; constructor; auto. Qed.

Lemma Forall2_zip_with_r {A B C} (R : B -> B -> Prop)
  (R' : C -> C -> Prop) (f : A -> B -> C) (xs : list A)
  (ys1 ys2 : list B) :
  (forall x y1 y2, R y1 y2 -> R' (f x y1) (f x y2)) ->
  Forall2 R ys1 ys2 ->
  Forall2 R' (Nd.zip_with f xs ys1) (Nd.zip_with f xs ys2).
Proof.
  intros H Hy. revert xs.
  induction Hy as [ | y1 y2 l1 l2 Hy Hl IH]; intros [ | x0 xs];
    cbn; constructor; auto.
Qed.

Lemma Forall2_zip_with_l {A B C} (R : A -> A -> Prop)
  (R' : C -> C -> Prop) (f : A -> B -> C) (xs1 xs2 : list A)
  (ys : list B) :
  (forall x1 x2 y, R x1 x2 -> R' (f x1 y) (f x2 y)) ->
  Forall2 R xs1 xs2 ->
  Forall2 R' (Nd.zip_with f xs1 ys) (Nd.zip_with f xs2 ys).
Proof.
  intros H Hx. revert ys.
  induction Hx as [ | x1 x2 l1 l2 Hx Hl IH]; intros [ | y0 ys];
    cbn; constructor; auto.
Qed.

(** Broadcasting keeps an elementwise relation on the second operand. *)
Lemma all2_map2_r {A B C} (R : B -> B -> Prop) (R' : C -> C -> Prop)
  (f : A -> B -> C) (a : nd A) (b1 b2 : nd B) :
  (forall x y1 y2, R y1 y2 -> R' (f x y1) (f x y2)) ->
  Nd.all2 R b1 b2 -> Nd.all2 R' (Nd.map2 f a b1) (Nd.map2 f a b2).
Proof.
  intros H Hb.
  destruct b1 as [y1 | ys1], b2 as [y2 | ys2]; cbn in Hb; try contradiction.
  - rewrite !NdFacts.map2_Sc_r.
    destruct a as [x | xs]; cbn; [ auto | ].
    apply (Forall2_map_const R R'); auto.
  - destruct a as [x | xs].
    + cbn. apply (Forall2_map R R'); auto.
    + destruct xs as [ | x1 [ | x2 xs]].
      * destruct Hb as [ | y1 y2 l1 l2 Hy [ | y1' y2' l1' l2' Hy' Hl]];
          cbn; constructor.
      * cbn. apply (Forall2_map R R'); auto.
      * destruct Hb as [ | y1 y2 l1 l2 Hy [ | y1' y2' l1' l2' Hy' Hl]].
        -- cbn. constructor.
        -- cbn. constructor; [ auto | ]. constructor; [ auto | ].
           apply (Forall2_map_const R R'); auto.
        -- change (Forall2 R'
                     (Nd.zip_with f (x1 :: x2 :: xs) (y1 :: y1' :: l1'))
                     (Nd.zip_with f (x1 :: x2 :: xs) (y2 :: y2' :: l2'))).
           apply (Forall2_zip_with_r R R'); auto.
Qed.

(** Broadcasting keeps an elementwise relation on the first operand. *)
Lemma all2_map2_l {A B C} (R : A -> A -> Prop) (R' : C -> C -> Prop)
  (f : A -> B -> C) (a1 a2 : nd A) (b : nd B) :
  (forall x1 x2 y, R x1 x2 -> R' (f x1 y) (f x2 y)) ->
  Nd.all2 R a1 a2 -> Nd.all2 R' (Nd.map2 f a1 b) (Nd.map2 f a2 b).
Proof.
  intros H Ha.
  destruct a1 as [x1 | xs1], a2 as [x2 | xs2]; cbn in Ha; try contradiction.
  - rewrite !NdFacts.map2_Sc_l.
    destruct b as [y | ys]; cbn; [ auto | ].
    induction ys; cbn; constructor; auto.
  - destruct b as [y | ys].
    + rewrite !NdFacts.map2_Sc_r. cbn.
      apply (Forall2_map R R' (fun x => f x y)); auto.
    + destruct Ha as [ | x1 x2 l1 l2 Hx [ | x1' x2' l1' l2' Hx' Hl]].
      * destruct ys as [ | y1 [ | y2 ys]]; cbn; constructor.
      * cbn. induction ys; cbn; constructor; auto.
      * destruct ys as [ | y1 [ | y2 ys]].
        -- cbn. constructor.
        -- cbn. constructor; [ auto | ]. constructor; [ auto | ].
           apply (Forall2_map R R' (fun x => f x y1)); auto.
        -- change (Forall2 R'
                     (Nd.zip_with f (x1 :: x1' :: l1') (y1 :: y2 :: ys))
                     (Nd.zip_with f (x2 :: x2' :: l2') (y1 :: y2 :: ys))).
           apply (Forall2_zip_with_l R R'); auto.
Qed.

Lemma all2_impl {A B} (R R' : A -> B -> Prop) (a : nd A) (b : nd B) :
  (forall x y, R x y -> R' x y) -> Nd.all2 R a b -> Nd.all2 R' a b.
Proof.
  intros H. destruct a, b; cbn; auto. intros Hf.
  induction Hf; constructor; auto.
Qed.

End Nd2Facts.

(** ** Monotonicity in the concentration of one species *)

Lemma not_decreased_refl (x : fval) : not_decreased x x.
Proof. destruct x; cbn; auto. lra. Qed.

Lemma not_decreased_add_r (x1 x2 z : fval) :
  not_decreased x1 x2 -> not_decreased (x1 + z)%fl (x2 + z)%fl.
Proof.
  destruct x1 as [a | | | ], x2 as [b | | | ]; cbn [not_decreased];
    intros H; try discriminate; try apply not_decreased_refl.
  destruct z; cbn; auto. lra.
Qed.

Lemma not_decreased_add_l (x1 x2 z : fval) :
  not_decreased x1 x2 -> not_decreased (z + x1)%fl (z + x2)%fl.
Proof.
  rewrite !(FloatFacts.add_comm z). apply not_decreased_add_r.
Qed.

Lemma not_decreased_lt (x y : fval) :
  not_decreased x y -> (y <? x)%fl = false.
Proof.
  destruct x as [a | | | ], y as [b | | | ]; cbn; intros H;
    try discriminate; try reflexivity.
  now apply Rltb_false.
Qed.

Lemma scaled_MAC_not_decreased (s c1 c2 : R) (m : fval) :
  0 < s -> c1 <= c2 -> nonnegative m ->
  not_decreased (Fin 2 / Fin s * Fin c1 * m)%fl
    (Fin 2 / Fin s * Fin c2 * m)%fl.
Proof.
  intros Hs Hc Hm. destruct m as [a | | | ]; cbn in Hm; try contradiction.
  fcalc. cbn.
  assert (0 < 2 / s) by (apply Rdiv_lt_0_compat; lra).
  apply Rmult_le_compat_r; [ assumption | ].
  apply Rmult_le_compat_l; lra.
Qed.

Lemma MAC_at_nonnegative (w d x : R) :
  0 < w -> 0 < d ->
  nonnegative (Fin (6 * PI) / Fin w / Fin d * Float.abs (Fin x))%fl.
Proof.
  intros Hw Hd. pose proof PI_RGT_0. fcalc. cbn.
  apply Rmult_le_pos; [ | apply Rabs_pos ].
  left. repeat apply Rdiv_lt_0_compat; lra.
Qed.

(** The mass absorption cross-section of a valid species is finite and
    nonnegative at every positive wavelength. *)
Lemma species_MAC_valid (RI : refractive_index) (wavelengths : nd R)
  (species : string) (density : option fval) :
  Nd.all (fun w => 0 < w) wavelengths ->
  valid_species RI wavelengths species density ->
  exists MAC,
    species_MAC RI wavelengths species density = Ret MAC
    /\ Nd.all nonnegative MAC.
Proof.
  intros Hw Hv.
  assert (Habs : forall (f : R -> R) (d : fval), positive d ->
            Nd.all nonnegative
              (Sc (Fin 6 * Fin PI)%fl / lift wavelengths / Sc d
               * Nd.abs (lift (Nd.map f wavelengths)))%nd).
  { intros f d Hd. destruct d as [dd | | | ]; cbn in Hd; try contradiction.
    nd_norm. apply NdFacts.all_map.
    apply (NdFacts.all_impl (fun w => 0 < w)); [ | assumption ].
    intros w Hpos. now apply MAC_at_nonnegative. }
  unfold species_MAC.
  destruct Hv as [[Hin Hd] | (Hin & Hp & mae & Hmae & Hnn)].
  - unfold in_strings in *. cbn [existsb] in *.
    destruct (String.eqb species "soot") eqn:E1;
      [ | destruct (String.eqb species "BC") eqn:E2 ].
    1, 2: cbn [orb bind];
      destruct density as [d | ];
      (eexists; split; [ reflexivity | apply Habs; auto; cbn; lra ]).
    cbn [orb] in *.
    destruct density as [d | ]; [ | discriminate ].
    destruct (String.eqb species "hulis");
      [ | destruct (String.eqb species "dust");
          [ | destruct (String.eqb species "dust_skiles");
              [ | discriminate ] ] ];
      cbn [bind]; (eexists; split; [ reflexivity | apply Habs; auto ]).
  - unfold in_strings in *. cbn [existsb] in *.
    destruct (String.eqb species "soot"); [ discriminate | ].
    destruct (String.eqb species "BC"); [ discriminate | ].
    destruct (String.eqb species "hulis"); [ discriminate | ].
    destruct (String.eqb species "dust"); [ discriminate | ].
    destruct (String.eqb species "dust_skiles"); [ discriminate | ].
    cbn [orb]. rewrite Hp, Hmae. cbn [bind].
    eexists; split; [ reflexivity | ].
    unfold lift. rewrite NdFacts.map_map. apply NdFacts.all_map.
    exact Hnn.
Qed.

Lemma add_impurities_app (RI : refractive_index) (wavelengths : nd R)
  (ssa : fval) (pre rest : impurities_dict) (cossalb : nd fval) :
  add_impurities RI wavelengths ssa (pre ++ rest) cossalb
  = (c <- add_impurities RI wavelengths ssa pre cossalb ;;
     add_impurities RI wavelengths ssa rest c).
Proof.
  revert cossalb. induction pre as [ | [species v] pre IH]; intros cossalb.
  - reflexivity.
  - cbn [app add_impurities]. destruct (unpack_impurity v) as [c d].
    destruct (species_MAC RI wavelengths species d); cbn [bind]; auto.
    destruct (py_div (Fin 2) ssa); cbn [bind]; auto.
Qed.

(** The species that follow do not undo an increase. *)
Lemma add_impurities_not_decreased (RI : refractive_index)
  (wavelengths : nd R) (ssa : fval) (rest : impurities_dict)
  (old new old' : nd fval) :
  Nd.all2 not_decreased old new ->
  add_impurities RI wavelengths ssa rest old = Ret old' ->
  exists new',
    add_impurities RI wavelengths ssa rest new = Ret new'
    /\ Nd.all2 not_decreased old' new'.
Proof.
  revert old new.
  induction rest as [ | [species v] rest IH]; intros old new Hon Hold.
  - cbn in *. injection Hold as <-. eauto.
  - cbn [add_impurities] in *. destruct (unpack_impurity v) as [c d].
    destruct (species_MAC RI wavelengths species d) as [MAC | e];
      cbn [bind] in *; [ | discriminate ].
    destruct (py_div (Fin 2) ssa) as [k | e];
      cbn [bind] in *; [ | discriminate ].
    eapply IH; [ | exact Hold ].
    unfold Nd.add. apply (Nd2Facts.all2_map2_l not_decreased); auto.
    intros x1 x2 y. apply not_decreased_add_r.
Qed.

Lemma unpack_impurity_of (content : fval) (density : option fval) :
  unpack_impurity (impurity_of content density) = (content, density).
Proof. destruct density; reflexivity. Qed.

(** Raising one concentration: the co-single-scattering albedo still
    returns, with the same shape, and is nowhere lower. *)
Lemma cossalb_not_decreased (RI : refractive_index) (wavelengths : nd R)
  (ssa c1 c2 : R) (species : string) (density : option fval)
  (before after : impurities_dict) (ni : ni_arg) (B g : fval)
  (old : nd fval) :
  0 < ssa ->
  Nd.all (fun w => 0 < w) wavelengths ->
  valid_species RI wavelengths species density ->
  c1 <= c2 ->
  compute_co_single_scattering_albedo RI wavelengths (Fin ssa)
    (Some (before ++ (species, impurity_of (Fin c1) density) :: after))
    ni B g = Ret old ->
  exists new,
    compute_co_single_scattering_albedo RI wavelengths (Fin ssa)
      (Some (before ++ (species, impurity_of (Fin c2) density) :: after))
      ni B g = Ret new
    /\ Nd.all2 not_decreased old new.
Proof.
  intros Hssa Hw Hv Hc Hold.
  assert (Hnz : ssa <> 0) by lra.
  destruct (species_MAC_valid RI wavelengths species density Hw Hv)
    as (MAC & HMAC & Hnn).
  rewrite compute_co_single_scattering_albedo_nonzero in * by assumption.
  destruct (resolve_ni RI wavelengths ni) as [niv | e];
    cbn [bind] in *; [ | discriminate ].
  rewrite add_impurities_app in *.
  destruct (add_impurities RI wavelengths (Fin ssa) before _)
    as [acc | e]; cbn [bind] in *; [ | discriminate ].
  rewrite add_impurities_cons in * by assumption.
  rewrite unpack_impurity_of in *. cbn [fst snd] in *.
  rewrite HMAC in *. cbn [bind] in *.
  apply (add_impurities_not_decreased RI wavelengths (Fin ssa) after
           (acc + Sc (Fin 2 / Fin ssa * Fin c1)%fl * MAC)%nd);
    [ | exact Hold ].
  unfold Nd.add. apply (Nd2Facts.all2_map2_r not_decreased);
    [ intros x y1 y2; apply not_decreased_add_l | ].
  unfold Nd.mul. rewrite !NdFacts.map2_Sc_l.
  apply (Nd2Facts.all2_map_same nonnegative); [ assumption | ].
  intros m Hm. now apply scaled_MAC_not_decreased.
Qed.

(** What one more species adds to what the function returns without
    it. *)
Lemma cossalb_accumulates (RI : refractive_index) (wavelengths : nd R)
  (ssa : R) (species : string) (density : option fval) (content : fval)
  (impurities : impurities_dict) (ni : ni_arg) (B g : fval)
  (MAC : nd fval) :
  ssa <> 0 ->
  species_MAC RI wavelengths species density = Ret MAC ->
  compute_co_single_scattering_albedo RI wavelengths (Fin ssa)
    (Some (impurities ++ [(species, impurity_of content density)]))
    ni B g
  = (cossalb <- compute_co_single_scattering_albedo RI wavelengths
                  (Fin ssa) (Some impurities) ni B g ;;
     Ret (cossalb + Sc (Fin 2 / Fin ssa * content)%fl * MAC)%nd).
Proof.
  intros Hssa HMAC.
  rewrite !compute_co_single_scattering_albedo_nonzero by assumption.
  destruct (resolve_ni RI wavelengths ni) as [niv | e];
    cbn [bind]; [ | reflexivity ].
  rewrite add_impurities_app.
  destruct (add_impurities RI wavelengths (Fin ssa) impurities _)
    as [acc | e]; cbn [bind]; [ | reflexivity ].
  rewrite add_impurities_cons by assumption.
  rewrite unpack_impurity_of. cbn [fst snd]. rewrite HMAC. reflexivity.
Qed.

(** C6: for a valid species (recognized, density resolvable and positive,
    nonnegative absorption efficiency), positive wavelengths and a positive
    SSA, raising the concentration of that species from [c1] to [c2], all
    other inputs and all other entries of the mapping being the same,
    never decreases the co-single-scattering albedo at any wavelength: the
    call with [c2] returns when the call with [c1] does, with the same
    shape, and at every wavelength the new value is not below the old one.
    The contribution of a species is accumulated additively: the function
    returns, for a mapping with this species added at its end, what it
    returns without it plus [2/ssa * content * MAC] at every wavelength,
    and for the empty mapping what it returns without impurities. *)
Theorem compute_co_single_scattering_albedo_monotone
  (RI : refractive_index) (wavelengths : nd R) (ssa c1 c2 : R)
  (species : string) (density : option fval)
  (before after : impurities_dict) (ni : ni_arg) (B g : fval)
  (old : nd fval) :
  0 < ssa ->
  Nd.all (fun w => 0 < w) wavelengths ->
  valid_species RI wavelengths species density ->
  c1 <= c2 ->
  compute_co_single_scattering_albedo RI wavelengths (Fin ssa)
    (Some (before ++ (species, impurity_of (Fin c1) density) :: after))
    ni B g = Ret old ->
  (exists new,
      compute_co_single_scattering_albedo RI wavelengths (Fin ssa)
        (Some (before ++ (species, impurity_of (Fin c2) density) :: after))
        ni B g = Ret new
      /\ Nd.all2 not_decreased old new
      /\ Nd.all2 (fun x y => (y <? x)%fl = false) old new)
  /\ (exists MAC,
        species_MAC RI wavelengths species density = Ret MAC
        /\ Nd.all nonnegative MAC
        /\ forall impurities content,
            compute_co_single_scattering_albedo RI wavelengths (Fin ssa)
              (Some (impurities
                       ++ [(species, impurity_of content density)]))
              ni B g
            = (cossalb <- compute_co_single_scattering_albedo RI
                            wavelengths (Fin ssa) (Some impurities) ni B
                            g ;;
               Ret (cossalb + Sc (Fin 2 / Fin ssa * content)%fl * MAC)%nd))
  /\ compute_co_single_scattering_albedo RI wavelengths (Fin ssa)
       (Some []) ni B g
     = compute_co_single_scattering_albedo RI wavelengths (Fin ssa) None
         ni B g.
Proof.
  intros Hssa Hw Hv Hc Hold.
  assert (Hnz : ssa <> 0) by lra.
  destruct (species_MAC_valid RI wavelengths species density Hw Hv)
    as (MAC & HMAC & Hnn).
  split; [ | split ].
  - destruct (cossalb_not_decreased RI wavelengths ssa c1 c2 species
                density before after ni B g old Hssa Hw Hv Hc Hold)
      as (new & Hnew & Hmono).
    exists new. repeat split; try assumption.
    revert Hmono. apply Nd2Facts.all2_impl. apply not_decreased_lt.
  - exists MAC. repeat split; try assumption.
    intros impurities content. now apply cossalb_accumulates.
  - rewrite !compute_co_single_scattering_albedo_nonzero by assumption.
    reflexivity.
Qed.

(** The theorem for black carbon going from 10 to 20 ng/g in the snow of
    [RI_example], at 500 nm. *)
Lemma compute_co_single_scattering_albedo_monotone_witness :
  exists old new : nd fval,
    compute_co_single_scattering_albedo RI_example (Arr [500e-9]) (Fin 20)
      (Some [("BC"%string, Content (Fin 10e-9))]) (NiName "p2016")
      default_B default_g = Ret old
    /\ compute_co_single_scattering_albedo RI_example (Arr [500e-9]) (Fin 20)
         (Some [("BC"%string, Content (Fin 20e-9))]) (NiName "p2016")
         default_B default_g = Ret new
    /\ Nd.all2 not_decreased old new.
Proof.
  edestruct (compute_co_single_scattering_albedo_monotone RI_example
               (Arr [500e-9]) 20 10e-9 20e-9 "BC" None [] []
               (NiName "p2016") default_B default_g)
    as [(new & Hnew & Hmono & _) _].
  5: { run_cossalb. reflexivity. }
  - lra.
  - cbn. constructor; [ lra | constructor ].
  - left. split; reflexivity.
  - lra.
  - eexists. exists new. split; [ | split; [ exact Hnew | exact Hmono ] ].
    run_cossalb. reflexivity.
Defined.

(** ** Flat-terrain albedo between 0 and 1 *)

Lemma Forall_zip_with {A B C} (P : A -> Prop) (Q : B -> Prop)
  (S : C -> Prop) (f : A -> B -> C) (xs : list A) (ys : list B) :
  (forall x y, P x -> Q y -> S (f x y)) ->
  Forall P xs -> Forall Q ys -> Forall S (Nd.zip_with f xs ys).
Proof.
  intros H Hx. revert ys.
  induction Hx as [ | x xs Hx Hxs IH]; intros ys Hy; [ constructor | ].
  destruct Hy; cbn; constructor; auto.
Qed.

(** Every element of a broadcast is the operation on two elements. *)
Lemma all_map2 {A B C} (P : A -> Prop) (Q : B -> Prop) (S : C -> Prop)
  (f : A -> B -> C) (a : nd A) (b : nd B) :
  (forall x y, P x -> Q y -> S (f x y)) ->
  Nd.all P a -> Nd.all Q b -> Nd.all S (Nd.map2 f a b).
Proof.
  intros H Ha Hb.
  assert (Hmap_l : forall x ys, P x -> Forall Q ys ->
                     Forall S (List.map (f x) ys)).
  { intros x ys Hx Hys. induction Hys; cbn; constructor; auto. }
  assert (Hmap_r : forall xs y, Forall P xs -> Q y ->
                     Forall S (List.map (fun x => f x y) xs)).
  { intros xs y Hxs Hy. induction Hxs; cbn; constructor; auto. }
  destruct a as [x | xs], b as [y | ys]; cbn in Ha, Hb.
  - cbn. auto.
  - cbn. auto.
  - rewrite NdFacts.map2_Sc_r. cbn. auto.
  - destruct xs as [ | x1 [ | x2 xs]].
    + destruct ys as [ | y1 [ | y2 ys]]; cbn; constructor.
    + cbn. apply Hmap_l; [ now inversion Ha | assumption ].
    + destruct ys as [ | y1 [ | y2 ys]].
      * cbn. constructor.
      * change (Forall S (List.map (fun x => f x y1) (x1 :: x2 :: xs))).
        apply Hmap_r; [ assumption | now inversion Hb ].
      * change (Forall S (Nd.zip_with f (x1 :: x2 :: xs) (y1 :: y2 :: ys))).
        now apply (Forall_zip_with P Q S).
Qed.

Lemma exp_unit_interval (x : R) : x <= 0 -> 0 < exp x <= 1.
Proof.
  intros Hx. split; [ apply exp_pos | ].
  rewrite <- exp_0. destruct Hx as [Hx | ->]; [ | lra ].
  left. now apply exp_increasing.
Qed.

Lemma mix_unit_interval (r a b : R) :
  0 <= r <= 1 -> 0 <= a <= 1 -> 0 <= b <= 1 ->
  in_unit_interval (mix (Fin r) (Fin a) (Fin b)).
Proof. intros Hr Ha Hb. unfold mix. fcalc. cbn. nra. Qed.

(** The two KZ04 albedos at one wavelength. *)
Lemma KZ04_at_unit_interval (z g c : R) :
  0 <= cos z -> g < 1 -> 0 <= c ->
  exists a b : R,
    direct_KZ04_at (Fin (cos z)) (alpha_at (Fin g) (Fin c)) = Fin a
    /\ diffuse_KZ04_at (alpha_at (Fin g) (Fin c)) = Fin b
    /\ 0 <= a <= 1 /\ 0 <= b <= 1.
Proof.
  intros Hz Hg Hc.
  rewrite direct_KZ04_at_real, diffuse_KZ04_at_real by assumption.
  eexists _, _. split; [ reflexivity | ]. split; [ reflexivity | ].
  pose proof (sqrt_pos (16 / 3 * c / (1 - g))) as Hs.
  set (q := sqrt (16 / 3 * c / (1 - g))) in *.
  split.
  - assert (Hle : - q * 3 / 7 * (1 + 2 * cos z) <= 0) by nra.
    destruct (exp_unit_interval _ Hle). lra.
  - assert (Hle : - q <= 0) by lra.
    destruct (exp_unit_interval _ Hle). lra.
Qed.

(** The two M16 albedos at one wavelength. *)
Lemma M16_at_unit_interval (z g c : R) :
  0 <= cos z -> 0 <= g < 1 -> 0 <= c ->
  exists a b : R,
    direct_M16_at (Fin z) (y_M16_at (Fin g) (Fin c)) = Fin a
    /\ diffuse_M16_at (y_M16_at (Fin g) (Fin c)) = Fin b
    /\ 0 <= a <= 1 /\ 0 <= b <= 1.
Proof.
  intros Hz Hg Hc.
  unfold direct_M16_at, diffuse_M16_at, y_M16_at, G. fsimpl.
  assert (Hden : 0 < 3 * (1 + - ((1 + - c) * g))) by nra.
  assert (Hnum : 0 <= 1 + - (1 + - c)) by lra.
  set (den := 3 * (1 + - ((1 + - c) * g))) in *.
  set (num := 1 + - (1 + - c)) in *.
  assert (Hq : 0 <= num / den).
  { apply Rmult_le_pos; [ assumption | ]. left.
    now apply Rinv_0_lt_compat. }
  fcalc.
  eexists _, _. split; [ reflexivity | ]. split; [ reflexivity | ].
  pose proof (sqrt_pos (num / den)) as Hs.
  set (q := sqrt (num / den)) in *.
  split.
  - assert (Hle : - (4 * q) * (3 / 7 * (1 + 2 * cos z)) <= 0) by nra.
    destruct (exp_unit_interval _ Hle). lra.
  - assert (Hle : - (4 * q) <= 0) by lra.
    destruct (exp_unit_interval _ Hle). lra.
Qed.

Lemma all_lift_positive (wavelengths : nd R) :
  Nd.all (fun w => 0 < w) wavelengths -> Nd.all positive (lift wavelengths).
Proof. intros H. unfold lift. now apply NdFacts.all_map. Qed.

Lemma resolve_ni_valid (RI : refractive_index) (wavelengths : nd R)
  (ni : ni_arg) :
  valid_ni RI wavelengths ni ->
  exists ni_values,
    resolve_ni RI wavelengths ni = Ret ni_values
    /\ Nd.all nonnegative ni_values.
Proof.
  destruct ni as [name | v]; cbn [valid_ni resolve_ni].
  - intros (f & -> & Hf). eexists. split; [ reflexivity | ].
    unfold lift. rewrite NdFacts.map_map. now apply NdFacts.all_map.
  - intros [-> Hv]. eexists. split; [ reflexivity | ].
    unfold lift. now apply NdFacts.all_map.
Qed.

Lemma add_impurities_valid (RI : refractive_index) (wavelengths : nd R)
  (ssa : R) (impurities : impurities_dict) (cossalb : nd fval) :
  0 < ssa ->
  Nd.all (fun w => 0 < w) wavelengths ->
  valid_impurities RI wavelengths impurities ->
  Nd.all nonnegative cossalb ->
  exists c,
    add_impurities RI wavelengths (Fin ssa) impurities cossalb = Ret c
    /\ Nd.all nonnegative c.
Proof.
  intros Hssa Hw Hv. revert cossalb.
  induction Hv as [ | [species v] rest [Hc Hs] Hrest IH]; intros cossalb Hnn.
  - cbn. eauto.
  - rewrite add_impurities_cons by lra. cbn [fst snd] in *.
    destruct (unpack_impurity v) as [content density]. cbn [fst snd] in *.
    destruct (species_MAC_valid RI wavelengths species density Hw Hs)
      as (MAC & -> & HMAC).
    cbn [bind]. apply IH.
    unfold Nd.add, Nd.mul.
    apply (all_map2 nonnegative nonnegative); [ | assumption | ].
    + intros [x | | | ] [y | | | ]; cbn; try contradiction. lra.
    + rewrite NdFacts.map2_Sc_l. apply NdFacts.all_map.
      revert HMAC. apply NdFacts.all_impl.
      destruct content as [c | | | ]; cbn in Hc; try contradiction.
      intros [m | | | ]; cbn; try contradiction. intros Hm. fcalc. cbn.
      assert (0 < 2 / ssa) by (apply Rdiv_lt_0_compat; lra).
      apply Rmult_le_pos; [ | assumption ].
      apply Rmult_le_pos; lra.
Qed.

(** The co-single-scattering albedo of valid inputs is finite and
    nonnegative at every wavelength. *)
Lemma cossalb_valid (RI : refractive_index) (wavelengths : nd R)
  (ssa B : R) (g : fval) (impurities : option impurities_dict)
  (ni : ni_arg) :
  0 < ssa -> 0 < B ->
  Nd.all (fun w => 0 < w) wavelengths ->
  valid_ni RI wavelengths ni ->
  match impurities with
  | None => True
  | Some l => valid_impurities RI wavelengths l
  end ->
  exists c,
    compute_co_single_scattering_albedo RI wavelengths (Fin ssa)
      impurities ni (Fin B) g = Ret c
    /\ Nd.all nonnegative c.
Proof.
  intros Hssa HB Hw Hni Himp. pose proof PI_RGT_0 as Hpi.
  rewrite compute_co_single_scattering_albedo_nonzero by lra.
  destruct (resolve_ni_valid RI wavelengths ni Hni) as (niv & -> & Hniv).
  cbn [bind].
  assert (Hbase :
            Nd.all nonnegative
              (Sc (Fin 2 / (Fin ssa * rho_ice) * Fin B)%fl
               * (Sc (Fin 4 * Fin PI)%fl * niv / lift wavelengths))%nd).
  { unfold Nd.mul at 1. rewrite NdFacts.map2_Sc_l. apply NdFacts.all_map.
    unfold Nd.div.
    assert (Hgamma :
              Nd.all nonnegative
                (Nd.map2 Float.div (Sc (Fin 4 * Fin PI)%fl * niv)%nd
                   (lift wavelengths))).
    { apply (all_map2 nonnegative positive);
        [ | | now apply all_lift_positive ].
      - intros [x | | | ] [y | | | ]; cbn [nonnegative positive];
          try contradiction.
        intros Hx Hy. fcalc. cbn. apply Rmult_le_pos; [ assumption | ].
        left. now apply Rinv_0_lt_compat.
      - unfold Nd.mul. rewrite NdFacts.map2_Sc_l. apply NdFacts.all_map.
        revert Hniv. apply NdFacts.all_impl.
        intros [x | | | ]; cbn; try contradiction. intros Hx. nra. }
    revert Hgamma. apply NdFacts.all_impl.
    intros [x | | | ]; cbn [nonnegative]; try contradiction. intros Hx.
    unfold rho_ice. fcalc.
    assert (ssa * 917 <> 0) by nra. fcalc. cbn.
    apply Rmult_le_pos; [ | assumption ].
    apply Rmult_le_pos; [ | lra ].
    left. apply Rdiv_lt_0_compat; [ lra | nra ]. }
  destruct impurities as [l | ].
  - now apply add_impurities_valid.
  - eauto.
Qed.

(** ** One value for each wavelength *)

Module ShapeFacts.

Lemma Forall2_True_length {A B} (xs : list A) (ys : list B) :
  Forall2 (fun _ _ => True) xs ys <-> List.length xs = List.length ys.
Proof.
  split.
  - intros H. induction H; cbn; congruence.
  - revert ys. induction xs as [ | x xs IH]; intros [ | y ys] H;
      try discriminate; constructor; auto.
Qed.

Lemma zip_with_length {A B C} (f : A -> B -> C) (xs : list A)
  (ys : list B) :
  List.length xs = List.length ys ->
  List.length (Nd.zip_with f xs ys) = List.length xs.
Proof.
  revert ys. induction xs as [ | x xs IH]; intros [ | y ys] H;
    try discriminate; cbn; auto.
Qed.

Lemma refl {A} (a : nd A) : same_shape a a.
Proof.
  destruct a as [x | xs]; cbn; [ exact I | ].
  now apply Forall2_True_length.
Qed.

Lemma map_r {A B C} (f : B -> C) (w : nd A) (a : nd B) :
  same_shape w a -> same_shape w (Nd.map f a).
Proof.
  destruct w as [x | xs], a as [y | ys]; cbn; auto.
  rewrite !Forall2_True_length, List.length_map. auto.
Qed.

Lemma scalar_l {A B C D} (f : B -> C -> D) (w : nd A) (x : B)
  (b : nd C) :
  same_shape w b -> same_shape w (Nd.map2 f (Sc x) b).
Proof. rewrite NdFacts.map2_Sc_l. apply map_r. Qed.

Lemma scalar_r {A B C D} (f : B -> C -> D) (w : nd A) (a : nd B)
  (y : C) :
  same_shape w a -> same_shape w (Nd.map2 f a (Sc y)).
Proof. rewrite NdFacts.map2_Sc_r. apply map_r. Qed.

Lemma map2 {A B C D} (f : B -> C -> D) (w : nd A) (a : nd B) (b : nd C) :
  same_shape w a -> same_shape w b -> same_shape w (Nd.map2 f a b).
Proof.
  destruct a as [x | xs]; [ intros _; apply scalar_l | ].
  destruct b as [y | ys]; [ intros H _; now apply scalar_r | ].
  destruct w as [v | vs]; cbn [same_shape Nd.all2]; try contradiction.
  rewrite !Forall2_True_length. intros Hx Hy.
  destruct xs as [ | x1 [ | x2 xs]], ys as [ | y1 [ | y2 ys]];
    cbn in Hx, Hy; try congruence; cbn [Nd.map2 same_shape Nd.all2];
    apply Forall2_True_length; try (cbn; congruence).
  rewrite zip_with_length; cbn; congruence.
Qed.

Lemma all_on_shape {A B} (P : B -> Prop) (w : nd A) (a : nd B) :
  same_shape w a -> Nd.all P a -> Nd.all2 (fun _ x => P x) w a.
Proof.
  destruct w as [v | vs], a as [x | xs]; cbn; try contradiction; auto.
  intros Hs. induction Hs; intros Ha; inversion Ha; subst;
    constructor; auto.
Qed.

Lemma iterated {A B} (w : nd A) (step : nd B -> nd B) (k : nat)
  (x : nd B) :
  (forall y, same_shape w y -> same_shape w (step y)) ->
  same_shape w x -> same_shape w (iterate k step x).
Proof.
  intros Hstep. revert x.
  induction k as [ | k IH]; intros x Hx; cbn [iterate]; auto.
Qed.

Lemma all_on_grid (P : fval -> Prop) (w : nd R) (a : nd fval) :
  same_shape w a -> Nd.all P a -> at_every_wavelength P w a.
Proof.
  destruct w as [v | vs], a as [x | xs]; cbn; try contradiction; auto.
  intros Hs. induction Hs; intros Ha; inversion Ha; subst;
    constructor; auto.
Qed.

End ShapeFacts.

Lemma species_MAC_shape (RI : refractive_index) (wavelengths : nd R)
  (species : string) (density : option fval) (MAC : nd fval) :
  species_MAC RI wavelengths species density = Ret MAC ->
  same_shape wavelengths MAC.
Proof.
  assert (Habs : forall (f : R -> R) (d : fval),
            same_shape wavelengths
              (Sc (Fin 6 * Fin PI)%fl / lift wavelengths / Sc d
               * Nd.abs (lift (Nd.map f wavelengths)))%nd).
  { intros f d. unfold Nd.mul, Nd.div, Nd.abs, lift.
    apply ShapeFacts.map2.
    - apply ShapeFacts.scalar_r, ShapeFacts.scalar_l, ShapeFacts.map_r,
        ShapeFacts.refl.
    - do 3 apply ShapeFacts.map_r. apply ShapeFacts.refl. }
  unfold species_MAC.
  repeat match goal with
         | |- context [if ?c then _ else _] => destruct c
         end;
    try destruct (MAE_dust_caponi RI _);
    cbn [bind]; try discriminate;
    try (destruct density; try discriminate);
    intros [= <-]; try apply Habs.
  all: unfold lift; do 2 apply ShapeFacts.map_r; apply ShapeFacts.refl.
Qed.

Lemma add_impurities_shape (RI : refractive_index) (wavelengths : nd R)
  (ssa : fval) (impurities : impurities_dict) (cossalb c : nd fval) :
  same_shape wavelengths cossalb ->
  add_impurities RI wavelengths ssa impurities cossalb = Ret c ->
  same_shape wavelengths c.
Proof.
  revert cossalb.
  induction impurities as [ | [species v] rest IH]; intros cossalb Hs.
  - cbn. now intros [= <-].
  - cbn [add_impurities]. destruct (unpack_impurity v) as [content density].
    destruct (species_MAC RI wavelengths species density) as [MAC | e] eqn:E;
      cbn [bind]; [ | discriminate ].
    destruct (py_div (Fin 2) ssa) as [k | e]; cbn [bind]; [ | discriminate ].
    apply IH. unfold Nd.add, Nd.mul.
    apply ShapeFacts.map2; [ assumption | ].
    apply ShapeFacts.scalar_l. now apply species_MAC_shape in E.
Qed.

(** What the function returns has one element for each wavelength. *)
Lemma cossalb_shape (RI : refractive_index) (wavelengths : nd R)
  (ssa : fval) (impurities : option impurities_dict) (ni : ni_arg)
  (B g : fval) (c : nd fval) :
  ni_on_grid wavelengths ni ->
  compute_co_single_scattering_albedo RI wavelengths ssa impurities ni B g
  = Ret c ->
  same_shape wavelengths c.
Proof.
  intros Hni. unfold compute_co_single_scattering_albedo.
  destruct (resolve_ni RI wavelengths ni) as [niv | e] eqn:E;
    cbn [bind]; [ | discriminate ].
  destruct (py_div (Fin 2) (ssa * rho_ice)%fl) as [k | e];
    cbn [bind]; [ | discriminate ].
  assert (Hbase :
            same_shape wavelengths
              (Sc (k * B)%fl
               * (Sc (Fin 4 * Fin PI)%fl * niv / lift wavelengths))%nd).
  { unfold Nd.mul at 1. apply ShapeFacts.scalar_l.
    unfold Nd.mul, Nd.div, lift.
    destruct ni as [name | [x | xs]]; cbn [resolve_ni ni_on_grid] in *.
    - destruct (refice RI name); [ | discriminate ].
      injection E as <-. apply ShapeFacts.map2.
      + apply ShapeFacts.scalar_l. unfold lift.
        do 2 apply ShapeFacts.map_r. apply ShapeFacts.refl.
      + apply ShapeFacts.map_r, ShapeFacts.refl.
    - cbn in E. injection E as <-. cbn [lift Nd.map Nd.map2].
      apply ShapeFacts.scalar_l, ShapeFacts.map_r, ShapeFacts.refl.
    - destruct (Nd.compatible _ _); [ | discriminate ].
      injection E as <-. apply ShapeFacts.map2.
      + apply ShapeFacts.scalar_l.
        now apply (ShapeFacts.map_r Fin wavelengths (Arr xs)).
      + apply ShapeFacts.map_r, ShapeFacts.refl. }
  destruct impurities as [l | ].
  - now apply add_impurities_shape.
  - now intros [= <-].
Qed.

Lemma albedo_KZ04_shape (RI : refractive_index) (wavelengths : nd R)
  (sza ssa r_difftot : fval) (impurities : option impurities_dict)
  (ni : ni_arg) (B g : fval) (albedo : nd fval) :
  ni_on_grid wavelengths ni ->
  albedo_KZ04 RI wavelengths sza ssa r_difftot impurities ni B g
  = Ret albedo ->
  same_shape wavelengths albedo.
Proof.
  intros Hni.
  destruct (compute_co_single_scattering_albedo RI wavelengths ssa
              impurities ni B g) as [c | e] eqn:Hc.
  - rewrite (albedo_KZ04_eq _ _ _ _ _ _ _ _ _ _ Hc).
    destruct (Float.cos sza >=? Fin 0)%fl; [ | discriminate ].
    intros [= <-]. apply ShapeFacts.map_r.
    now apply cossalb_shape in Hc.
  - unfold albedo_KZ04, albedo_direct_KZ04, compute_alpha.
    rewrite Hc. discriminate.
Qed.

Lemma albedo_M16_shape (RI : refractive_index) (wavelengths : nd R)
  (sza ssa r_difftot : fval) (impurities : option impurities_dict)
  (ni : ni_arg) (B g : fval) (albedo : nd fval) :
  ni_on_grid wavelengths ni ->
  albedo_M16 RI wavelengths sza ssa r_difftot impurities ni B g
  = Ret albedo ->
  same_shape wavelengths albedo.
Proof.
  intros Hni.
  destruct (compute_co_single_scattering_albedo RI wavelengths ssa
              impurities ni B g) as [c | e] eqn:Hc.
  - rewrite (albedo_M16_eq _ _ _ _ _ _ _ _ _ _ Hc).
    intros [= <-]. apply ShapeFacts.map_r.
    now apply cossalb_shape in Hc.
  - unfold albedo_M16, albedo_direct_M16, y_M16.
    rewrite Hc. discriminate.
Qed.

Section ValidFlat.

Variable RI : refractive_index.
Variable wavelengths : nd R.
Variables sza ssa r_difftot B g : R.
Variable impurities : option impurities_dict.
Variable ni : ni_arg.

Hypothesis wavelengths_positive : Nd.all (fun w => 0 < w) wavelengths.
Hypothesis ssa_positive : 0 < ssa.
Hypothesis B_positive : 0 < B.
Hypothesis g_range : 0 <= g < 1.
Hypothesis r_range : 0 <= r_difftot <= 1.
Hypothesis sun_above : 0 <= cos sza.
Hypothesis ni_valid : valid_ni RI wavelengths ni.
Hypothesis impurities_valid :
  match impurities with
  | None => True
  | Some l => valid_impurities RI wavelengths l
  end.

Lemma albedo_KZ04_valid :
  exists kz04 : nd fval,
    albedo_KZ04 RI wavelengths (Fin sza) (Fin ssa) (Fin r_difftot)
      impurities ni (Fin B) (Fin g) = Ret kz04
    /\ Nd.all in_unit_interval kz04.
Proof.
  destruct (cossalb_valid RI wavelengths ssa B (Fin g) impurities ni
              ssa_positive B_positive wavelengths_positive ni_valid
              impurities_valid) as (c & Hc & Hnn).
  rewrite (albedo_KZ04_eq _ _ _ _ _ _ _ _ _ _ Hc).
  cbn [Float.cos Float.ge Float.le].
  rewrite (proj2 (Rleb_true 0 (cos sza)) sun_above).
  eexists. split; [ reflexivity | ].
  apply NdFacts.all_map. revert Hnn. apply NdFacts.all_impl.
  intros [x | | | ]; cbn [nonnegative]; try contradiction. intros Hx.
  destruct (KZ04_at_unit_interval sza g x sun_above (proj2 g_range) Hx)
    as (a & b & -> & -> & Ha & Hb).
  now apply mix_unit_interval.
Qed.

Lemma albedo_M16_valid :
  exists m16 : nd fval,
    albedo_M16 RI wavelengths (Fin sza) (Fin ssa) (Fin r_difftot)
      impurities ni (Fin B) (Fin g) = Ret m16
    /\ Nd.all in_unit_interval m16.
Proof.
  destruct (cossalb_valid RI wavelengths ssa B (Fin g) impurities ni
              ssa_positive B_positive wavelengths_positive ni_valid
              impurities_valid) as (c & Hc & Hnn).
  rewrite (albedo_M16_eq _ _ _ _ _ _ _ _ _ _ Hc).
  eexists. split; [ reflexivity | ].
  apply NdFacts.all_map. revert Hnn. apply NdFacts.all_impl.
  intros [x | | | ]; cbn [nonnegative]; try contradiction. intros Hx.
  destruct (M16_at_unit_interval sza g x sun_above g_range Hx)
    as (a & b & -> & -> & Ha & Hb).
  now apply mix_unit_interval.
Qed.

End ValidFlat.

(** C5: for valid inputs (positive wavelengths, SSA and B, [0 <= g < 1],
    a resolvable ice index with nonnegative imaginary part, given on the
    grid, nonnegative concentrations of valid species, [r_difftot] in
    [0, 1] and [cos sza >= 0]), [albedo_KZ04] and [albedo_M16] return one
    value for each wavelength (the shape of [wavelengths]), and each of
    these values is a finite number between 0 and 1. *)
Theorem flat_albedo_unit_interval (RI : refractive_index)
  (wavelengths : nd R) (sza ssa r_difftot B g : R)
  (impurities : option impurities_dict) (ni : ni_arg) :
  Nd.all (fun w => 0 < w) wavelengths ->
  0 < ssa -> 0 < B -> 0 <= g < 1 -> 0 <= r_difftot <= 1 ->
  0 <= cos sza ->
  valid_ni RI wavelengths ni ->
  ni_on_grid wavelengths ni ->
  match impurities with
  | None => True
  | Some l => valid_impurities RI wavelengths l
  end ->
  exists kz04 m16 : nd fval,
    albedo_KZ04 RI wavelengths (Fin sza) (Fin ssa) (Fin r_difftot)
      impurities ni (Fin B) (Fin g) = Ret kz04
    /\ at_every_wavelength in_unit_interval wavelengths kz04
    /\ albedo_M16 RI wavelengths (Fin sza) (Fin ssa) (Fin r_difftot)
         impurities ni (Fin B) (Fin g) = Ret m16
    /\ at_every_wavelength in_unit_interval wavelengths m16.
Proof.
  intros Hw Hssa HB Hg Hr Hz Hni Hgrid Himp.
  destruct (albedo_KZ04_valid RI wavelengths sza ssa r_difftot B g
              impurities ni Hw Hssa HB Hg Hr Hz Hni Himp)
    as (kz04 & Hk & Hku).
  destruct (albedo_M16_valid RI wavelengths sza ssa r_difftot B g
              impurities ni Hw Hssa HB Hg Hr Hz Hni Himp)
    as (m16 & Hm & Hmu).
  exists kz04, m16.
  split; [ exact Hk | ].
  split; [ apply ShapeFacts.all_on_grid;
           [ now apply albedo_KZ04_shape in Hk | exact Hku ] | ].
  split; [ exact Hm | ].
  apply ShapeFacts.all_on_grid;
    [ now apply albedo_M16_shape in Hm | exact Hmu ].
Qed.

(** The theorem for snow with black carbon and dust under a sun at 60
    degrees of zenith angle. *)
Lemma flat_albedo_unit_interval_witness :
  exists kz04 m16 : nd fval,
    albedo_KZ04 RI_example (Arr [500e-9; 900e-9]) (Fin (PI / 3)) (Fin 20)
      (Fin 0.25)
      (Some [("BC"%string, Content (Fin 10e-9));
             ("dust"%string, ContentDensity (Fin 1e-6) (Fin 2600))])
      (NiName "p2016") (Fin 1.6) (Fin 0.845) = Ret kz04
    /\ at_every_wavelength in_unit_interval (Arr [500e-9; 900e-9]) kz04
    /\ albedo_M16 RI_example (Arr [500e-9; 900e-9]) (Fin (PI / 3)) (Fin 20)
         (Fin 0.25)
         (Some [("BC"%string, Content (Fin 10e-9));
                ("dust"%string, ContentDensity (Fin 1e-6) (Fin 2600))])
         (NiName "p2016") (Fin 1.6) (Fin 0.845) = Ret m16
    /\ at_every_wavelength in_unit_interval (Arr [500e-9; 900e-9]) m16.
Proof.
  apply (flat_albedo_unit_interval RI_example (Arr [500e-9; 900e-9])
           (PI / 3) 20 0.25 1.6 0.845
           (Some [("BC"%string, Content (Fin 10e-9));
                  ("dust"%string, ContentDensity (Fin 1e-6) (Fin 2600))])
           (NiName "p2016")).
  - cbn. repeat constructor; lra.
  - lra.
  - lra.
  - lra.
  - lra.
  - rewrite cos_PI3. lra.
  - cbn. eexists. split; [ reflexivity | ].
    cbn. repeat constructor; lra.
  - exact I.
  - repeat constructor; cbn; try lra; left; split; reflexivity.
Defined.

(** ** The local solar zenith angle *)

Lemma mu_local_bounds (sza saa slope aspect : R) :
  -1 <= mu_local sza saa slope aspect <= 1.
Proof.
  unfold mu_local.
  pose proof (sin2_cos2 sza) as Ha. pose proof (sin2_cos2 slope) as Hb.
  pose proof (COS_bound (saa - aspect)) as [Ht1 Ht2].
  unfold Rsqr in *.
  set (ca := cos sza) in *. set (sa := sin sza) in *.
  set (cb := cos slope) in *. set (sb := sin slope) in *.
  set (t := cos (saa - aspect)) in *.
  pose proof (Rle_0_sqr (ca - cb)) as H1.
  pose proof (Rle_0_sqr (ca + cb)) as H2.
  pose proof (Rle_0_sqr (sa - t * sb)) as H3.
  pose proof (Rle_0_sqr (sa + t * sb)) as H4.
  assert (H5 : 0 <= sb * sb * (1 - t * t)).
  { apply Rmult_le_pos; [ apply Rle_0_sqr | ].
    assert (0 <= (1 - t) * (1 + t)) by (apply Rmult_le_pos; lra). lra. }
  unfold Rsqr in *. split; lra.
Qed.

(** With doubles that do not round, the cosine of the local zenith angle
    is the projection formula. *)
Lemma cos_sum_exact (sza saa slope aspect : R) :
  cos_sum exact_arith sza saa slope aspect
  = mu_local sza saa slope aspect.
Proof. reflexivity. Qed.

Lemma local_sza_arccos (FP : double_arith) (sza saa slope aspect : R) :
  local_sza FP (Fin sza) (Fin saa) (Fin slope) (Fin aspect)
  = Float.arccos (Fin (cos_sum FP sza saa slope aspect)).
Proof. reflexivity. Qed.

(** The sum within [-1, 1]: the angle is a number. *)
Lemma local_sza_real (FP : double_arith) (sza saa slope aspect : R) :
  -1 <= cos_sum FP sza saa slope aspect <= 1 ->
  local_sza FP (Fin sza) (Fin saa) (Fin slope) (Fin aspect)
  = Fin (acos (cos_sum FP sza saa slope aspect)).
Proof. intros [H1 H2]. rewrite local_sza_arccos. now fcalc. Qed.


(** What a local zenith angle that is a number says of the sum. *)
Lemma local_sza_number (FP : double_arith) (sza saa slope aspect lsza : R) :
  local_sza FP (Fin sza) (Fin saa) (Fin slope) (Fin aspect) = Fin lsza ->
  -1 <= cos_sum FP sza saa slope aspect <= 1
  /\ lsza = acos (cos_sum FP sza saa slope aspect).
Proof.
  rewrite local_sza_arccos. cbn [Float.arccos].
  destruct (Rle_dec (-1) (cos_sum FP sza saa slope aspect)) as [H1 | H1];
    rtest; [ | discriminate ].
  destruct (Rle_dec (cos_sum FP sza saa slope aspect) 1) as [H2 | H2];
    rtest; [ | discriminate ].
  intros [= <-]. auto.
Qed.

Lemma acos_lt_PI2 (x : R) : -1 <= x <= 1 -> (0 < x <-> acos x < PI / 2).
Proof.
  intros Hx. pose proof (acos_bound x) as [H0 Hpi].
  pose proof (cos_acos x Hx) as Hc. pose proof PI_RGT_0 as Hpos.
  split; intros H.
  - destruct (Rlt_le_dec (acos x) (PI / 2)) as [Hlt | Hge]; [ assumption | ].
    assert (cos (acos x) <= 0) by (apply cos_le_0; lra). lra.
  - rewrite <- Hc. apply cos_gt_0; lra.
Qed.

(** The guard [lsza >= pi/2 or lsza < 0] of [albedo_P20_slope]. *)
Lemma lsza_guard (FP : double_arith) (sza saa slope aspect : R) :
  -1 <= cos_sum FP sza saa slope aspect <= 1 ->
  let lsza := local_sza FP (Fin sza) (Fin saa) (Fin slope) (Fin aspect) in
  ((lsza >=? Fin (PI / 2))%fl || (lsza <? Fin 0)%fl)
  = negb (Rltb 0 (cos_sum FP sza saa slope aspect)).
Proof.
  intros Hb. cbn zeta. rewrite local_sza_real by assumption.
  pose proof (acos_lt_PI2 _ Hb) as Hiff.
  pose proof (acos_bound (cos_sum FP sza saa slope aspect)) as [H0 _].
  set (mu := cos_sum FP sza saa slope aspect) in *.
  fsimpl.
  destruct (Rlt_le_dec 0 mu) as [Hpos | Hneg].
  - assert (acos mu < PI / 2) by now apply Hiff.
    now fcalc.
  - assert (PI / 2 <= acos mu).
    { destruct (Rlt_le_dec (acos mu) (PI / 2)) as [Hlt | Hge]; [ | lra ].
      apply Hiff in Hlt. lra. }
    now fcalc.
Qed.

(** A local zenith angle that is NaN goes through the guard. *)
Lemma lsza_guard_nan :
  ((NaN >=? Fin (PI / 2))%fl || (NaN <? Fin 0)%fl) = false.
Proof. reflexivity. Qed.

Lemma cos_lsza (FP : double_arith) (sza saa slope aspect : R) :
  -1 <= cos_sum FP sza saa slope aspect <= 1 ->
  Float.cos (local_sza FP (Fin sza) (Fin saa) (Fin slope) (Fin aspect))
  = Fin (cos_sum FP sza saa slope aspect).
Proof.
  intros Hb. rewrite local_sza_real by assumption. cbn [Float.cos].
  f_equal. now apply cos_acos.
Qed.

(** ** [albedo_P20_slope]: the recursion and the guard *)

Lemma top_model_not_recursive (model : string) :
  in_strings model ["DM"; "SM"]%string = true ->
  in_strings (drop_last model ++ "T") ["DM"; "SM"]%string = false.
Proof.
  unfold in_strings. cbn [existsb].
  destruct (String.eqb model "DM") eqn:E1;
    [ apply String.eqb_eq in E1; now subst | ].
  destruct (String.eqb model "SM") eqn:E2;
    [ apply String.eqb_eq in E2; now subst | discriminate ].
Qed.

(** A call that does not take the recursive branch does not need depth. *)
Lemma albedo_P20_slope_rec_flat_depth (RI : refractive_index)
  (FP : double_arith) (d : nat) (wavelengths : nd R)
  (sza saa ssa r_difftot slope aspect : fval)
  (model : string) (measured_difftot : bool)
  (fixed_flat_albedo : option fval) (impurities : option impurities_dict)
  (ni : ni_arg) (B g : fval) :
  negb measured_difftot && in_strings model ["DM"; "SM"]%string = false ->
  albedo_P20_slope_rec RI FP d wavelengths sza saa ssa r_difftot slope aspect
    model measured_difftot fixed_flat_albedo impurities ni B g
  = albedo_P20_slope_rec RI FP 0 wavelengths sza saa ssa r_difftot slope
      aspect model measured_difftot fixed_flat_albedo impurities ni B g.
Proof.
  intros H. destruct d; [ reflexivity | ].
  cbn [albedo_P20_slope_rec]. rewrite H. reflexivity.
Qed.

(** One level of recursion is all that [albedo_P20_slope] uses. *)
Lemma albedo_P20_slope_depth (RI : refractive_index)
  (FP : double_arith) (d : nat) (wavelengths : nd R)
  (sza saa ssa r_difftot slope aspect : fval)
  (model : string) (measured_difftot : bool)
  (fixed_flat_albedo : option fval) (impurities : option impurities_dict)
  (ni : ni_arg) (B g : fval) :
  albedo_P20_slope_rec RI FP (S d) wavelengths sza saa ssa r_difftot slope
    aspect model measured_difftot fixed_flat_albedo impurities ni B g
  = albedo_P20_slope RI FP wavelengths sza saa ssa r_difftot slope aspect
      model measured_difftot fixed_flat_albedo impurities ni B g.
Proof.
  unfold albedo_P20_slope. cbn [albedo_P20_slope_rec].
  destruct (negb measured_difftot && in_strings model ["DM"; "SM"]%string)
    eqn:E; [ | reflexivity ].
  apply andb_prop in E. destruct E as [_ E].
  rewrite (albedo_P20_slope_rec_flat_depth RI FP d); [ reflexivity | ].
  cbn [negb andb]. now apply top_model_not_recursive.
Qed.

(** Behind the slope ([cos lsza <= 0]) the result is NaN. *)
Lemma albedo_P20_slope_rec_shadow (RI : refractive_index)
  (FP : double_arith) (d : nat)
  (wavelengths : nd R) (sza saa slope aspect : R) (ssa r_difftot : fval)
  (model : string) (measured_difftot : bool)
  (fixed_flat_albedo : option fval) (impurities : option impurities_dict)
  (ni : ni_arg) (B g : fval) :
  -1 <= cos_sum FP sza saa slope aspect <= 0 ->
  albedo_P20_slope_rec RI FP d wavelengths (Fin sza) (Fin saa) ssa r_difftot
    (Fin slope) (Fin aspect) model measured_difftot fixed_flat_albedo
    impurities ni B g
  = Ret (Sc NaN).
Proof.
  intros Hmu. destruct d; cbn [albedo_P20_slope_rec];
    rewrite lsza_guard by lra; now rtest.
Qed.

(** ** The model "flat" and the KZ04 mixing formula *)

Lemma slope_model_flat (K V r_difftot : fval)
  (M alb_loc_dir alb_dir alb_diff : nd fval) :
  slope_model "flat" K V r_difftot M alb_loc_dir alb_dir alb_diff
  = Ret (negative_to_nan
           (Sc (Fin 1 - r_difftot)%fl * alb_dir + Sc r_difftot * alb_diff)%nd).
Proof. reflexivity. Qed.

Lemma negative_to_nan_not_negative (a : nd fval) :
  Nd.all not_negative a -> negative_to_nan a = a.
Proof.
  destruct a as [x | xs]; cbn [Nd.all negative_to_nan]; intros H.
  - f_equal. destruct x as [r | | | ]; cbn in *; try easy. now rtest.
  - f_equal. induction H as [ | x xs Hx Hxs IH]; cbn [List.map]; f_equal;
      [ | exact IH ].
    destruct x as [r | | | ]; cbn in *; try easy. now rtest.
Qed.

Lemma exp_not_negative (x : fval) : not_negative (Float.exp x).
Proof. destruct x; cbn; try lra; try exact I. left. apply exp_pos. Qed.

Lemma mix_not_negative (r a b : fval) :
  in_unit_interval r -> not_negative a -> not_negative b ->
  not_negative (mix r a b).
Proof.
  destruct r as [r | | | ]; cbn [in_unit_interval]; try contradiction.
  intros Hr Ha Hb. unfold mix.
  assert (Hscale : forall k x, 0 <= k -> not_negative x ->
                     not_negative (Fin k * x)%fl).
  { intros k [x | | | ] Hk Hx; cbn in *; try easy.
    - now apply Rmult_le_pos.
    - unfold Float.sgn_inf.
      destruct (Rlt_dec 0 k); rtest; cbn; [ exact I | ].
      now rtest. }
  assert (Hadd : forall x y, not_negative x -> not_negative y ->
                   not_negative (x + y)%fl).
  { intros [x | | | ] [y | | | ]; cbn; try easy. lra. }
  apply Hadd; [ | now apply Hscale ].
  fsimpl. apply Hscale; [ lra | assumption ].
Qed.

(** The model "flat" when the local zenith angle is a number below
    pi/2. *)
Lemma flat_model_lit (RI : refractive_index) (FP : double_arith)
  (wavelengths : nd R) (sza saa slope aspect : R) (ssa r_difftot : fval)
  (measured_difftot : bool) (impurities : option impurities_dict)
  (ni : ni_arg) (B g : fval) :
  0 < cos_sum FP sza saa slope aspect <= 1 ->
  albedo_P20_slope RI FP wavelengths (Fin sza) (Fin saa) ssa r_difftot
    (Fin slope) (Fin aspect) "flat" measured_difftot None impurities ni B g
  = (a <- albedo_KZ04 RI wavelengths (Fin sza) ssa r_difftot impurities
            ni B g ;;
     Ret (negative_to_nan a)).
Proof.
  intros Hmu. unfold albedo_P20_slope. cbn [albedo_P20_slope_rec].
  rewrite lsza_guard by lra. rtest. cbn [negb].
  change (in_strings "flat" ["DM"; "SM"]%string) with false.
  rewrite andb_false_r.
  unfold flat_albedos, albedo_KZ04.
  destruct (compute_co_single_scattering_albedo RI wavelengths ssa
              impurities ni B g) as [c | e] eqn:Hc.
  - rewrite !(albedo_direct_KZ04_eq _ _ _ _ _ _ _ _ Hc).
    rewrite !(albedo_diffuse_KZ04_eq _ _ _ _ _ _ _ _ Hc).
    rewrite cos_lsza by lra. cbn [Float.ge Float.le Float.cos]. rtest.
    cbn [bind].
    destruct (Rleb 0 (cos sza)); cbn [bind]; [ | reflexivity ].
    now rewrite slope_model_flat.
  - unfold albedo_direct_KZ04, compute_alpha. rewrite Hc. reflexivity.
Qed.

(** Without a fixed flat albedo, a local zenith angle that is NaN stops
    every model at the first flat albedo: after [compute_alpha], the
    assertion of [albedo_direct_KZ04] fails. *)
Lemma albedo_P20_slope_rec_lsza_nan (RI : refractive_index)
  (FP : double_arith) (d : nat) (wavelengths : nd R)
  (sza saa ssa r_difftot slope aspect : fval) (model : string)
  (measured_difftot : bool) (impurities : option impurities_dict)
  (ni : ni_arg) (B g : fval) :
  local_sza FP sza saa slope aspect = NaN ->
  albedo_P20_slope_rec RI FP d wavelengths sza saa ssa r_difftot slope
    aspect model measured_difftot None impurities ni B g
  = (alpha <- compute_alpha RI wavelengths ssa impurities ni B g ;;
     Raise AssertionError).
Proof.
  intros Hnan. destruct d; cbn [albedo_P20_slope_rec];
    rewrite Hnan, lsza_guard_nan; unfold flat_albedos, albedo_direct_KZ04;
    destruct (compute_alpha RI wavelengths ssa impurities ni B g);
    reflexivity.
Qed.

(** C1 (amended): when the local solar zenith angle that [local_sza]
    computes is a number below pi/2, [albedo_P20_slope] with model "flat"
    and no fixed flat albedo is [albedo_KZ04] on the same inputs with its
    negative values turned into NaN, errors included, and it equals
    [albedo_KZ04] when [r_difftot] is in [0, 1].  When that angle is pi/2
    or more the result is NaN, whatever [albedo_KZ04] is; and when it is
    NaN (the cosine sum, which is not clipped, rounded out of [-1, 1]) the
    call fails the assertion of [albedo_direct_KZ04], once [compute_alpha]
    has returned. *)
Theorem flat_model_is_KZ04 (RI : refractive_index) (FP : double_arith)
  (wavelengths : nd R) (sza saa slope aspect : R) (ssa r_difftot : fval)
  (measured_difftot : bool) (impurities : option impurities_dict)
  (ni : ni_arg) (B g : fval) :
  let lsza := local_sza FP (Fin sza) (Fin saa) (Fin slope) (Fin aspect) in
  let P20 :=
    albedo_P20_slope RI FP wavelengths (Fin sza) (Fin saa) ssa r_difftot
      (Fin slope) (Fin aspect) "flat" measured_difftot None impurities ni
      B g in
  let KZ04 :=
    albedo_KZ04 RI wavelengths (Fin sza) ssa r_difftot impurities ni B g in
  (forall l : R,
      lsza = Fin l -> l < PI / 2 ->
      P20 = (a <- KZ04 ;; Ret (negative_to_nan a))
      /\ (in_unit_interval r_difftot -> P20 = KZ04))
  /\ (forall l : R, lsza = Fin l -> PI / 2 <= l -> P20 = Ret (Sc NaN))
  /\ (lsza = NaN ->
      P20 = (alpha <- compute_alpha RI wavelengths ssa impurities ni B g ;;
             Raise AssertionError)).
Proof.
  intros lsza P20 KZ04. subst lsza P20 KZ04. split; [ | split ].
  - intros l Hl Hlt.
    apply local_sza_number in Hl. destruct Hl as [Hb ->].
    apply acos_lt_PI2 in Hlt; [ | exact Hb ].
    assert (Hclip :
              albedo_P20_slope RI FP wavelengths (Fin sza) (Fin saa) ssa
                r_difftot (Fin slope) (Fin aspect) "flat" measured_difftot
                None impurities ni B g
              = (a <- albedo_KZ04 RI wavelengths (Fin sza) ssa r_difftot
                        impurities ni B g ;;
                 Ret (negative_to_nan a)))
      by (apply flat_model_lit; lra).
    split; [ exact Hclip | ].
    intros Hr. rewrite Hclip.
    destruct (compute_co_single_scattering_albedo RI wavelengths ssa
                impurities ni B g) as [c | e] eqn:Hc.
    + rewrite (albedo_KZ04_eq _ _ _ _ _ _ _ _ _ _ Hc).
      destruct (Float.cos (Fin sza) >=? Fin 0)%fl; cbn [bind];
        [ | reflexivity ].
      f_equal. apply negative_to_nan_not_negative.
      apply NdFacts.all_map. apply NdFacts.all_true. intros x.
      apply mix_not_negative; [ assumption | | ]; apply exp_not_negative.
    + unfold albedo_KZ04, albedo_direct_KZ04, compute_alpha.
      rewrite Hc. reflexivity.
  - intros l Hl Hge.
    apply local_sza_number in Hl. destruct Hl as [Hb ->].
    apply albedo_P20_slope_rec_shadow. split; [ lra | ].
    destruct (Rlt_le_dec 0 (cos_sum FP sza saa slope aspect)) as [H | H];
      [ | exact H ].
    apply acos_lt_PI2 in H; [ lra | exact Hb ].
  - intros Hnan. now apply albedo_P20_slope_rec_lsza_nan.
Qed.

(** C1 (as stated, at a slope turned away from the sun): with the sun at
    60 degrees of zenith angle in the south and a slope of 60 degrees
    facing north, the local zenith angle is 120 degrees and
    [albedo_P20_slope] with model "flat" returns NaN, while [albedo_KZ04]
    returns an albedo between 0 and 1. *)
Lemma flat_model_behind_slope_is_nan :
  albedo_P20_slope RI_example exact_arith (Arr [500e-9]) (Fin (PI / 3))
    (Fin PI) (Fin 20) (Fin 0.25) (Fin (PI / 3)) (Fin 0) "flat" false None
    None (NiName "p2016") (Fin 1.6) (Fin 0.845)
  = Ret (Sc NaN)
  /\ (exists kz04,
        albedo_KZ04 RI_example (Arr [500e-9]) (Fin (PI / 3)) (Fin 20)
          (Fin 0.25) None (NiName "p2016") (Fin 1.6) (Fin 0.845)
        = Ret kz04
        /\ Nd.all in_unit_interval kz04)
  /\ albedo_P20_slope RI_example exact_arith (Arr [500e-9]) (Fin (PI / 3))
       (Fin PI) (Fin 20) (Fin 0.25) (Fin (PI / 3)) (Fin 0) "flat" false
       None None (NiName "p2016") (Fin 1.6) (Fin 0.845)
     <> albedo_KZ04 RI_example (Arr [500e-9]) (Fin (PI / 3)) (Fin 20)
          (Fin 0.25) None (NiName "p2016") (Fin 1.6) (Fin 0.845).
Proof.
  assert (Hmu : -1 <= cos_sum exact_arith (PI / 3) PI (PI / 3) 0 <= 0).
  { rewrite cos_sum_exact. split; [ apply mu_local_bounds | ].
    unfold mu_local. rewrite cos_PI3, sin_PI3.
    replace (PI - 0) with PI by ring. rewrite cos_PI.
    assert (H3 : sqrt 3 * sqrt 3 = 3) by (apply sqrt_sqrt; lra).
    nra. }
  assert (HP :
            albedo_P20_slope RI_example exact_arith (Arr [500e-9])
              (Fin (PI / 3)) (Fin PI) (Fin 20) (Fin 0.25) (Fin (PI / 3))
              (Fin 0) "flat" false None None (NiName "p2016") (Fin 1.6)
              (Fin 0.845)
            = Ret (Sc NaN))
    by now apply albedo_P20_slope_rec_shadow.
  assert (HK : exists kz04,
             albedo_KZ04 RI_example (Arr [500e-9]) (Fin (PI / 3)) (Fin 20)
               (Fin 0.25) None (NiName "p2016") (Fin 1.6) (Fin 0.845)
             = Ret kz04
             /\ Nd.all in_unit_interval kz04).
  { apply albedo_KZ04_valid; try lra; try exact I.
    - cbn. repeat constructor; lra.
    - rewrite cos_PI3. lra.
    - cbn. eexists. split; [ reflexivity | ]. cbn. repeat constructor; lra. }
  split; [ exact HP | ]. split; [ exact HK | ].
  destruct HK as (kz04 & HK & Hu). rewrite HP, HK.
  intros Heq. injection Heq as <-. exact Hu.
Qed.

(** The theorem on a slope of 30 degrees facing the sun, the sun at 60
    degrees of zenith angle: the local zenith angle is 30 degrees. *)
Lemma flat_model_is_KZ04_witness :
  albedo_P20_slope RI_example exact_arith (Arr [500e-9]) (Fin (PI / 3))
    (Fin 0) (Fin 20) (Fin 0.25) (Fin (PI / 6)) (Fin 0) "flat" false None
    None (NiName "p2016") (Fin 1.6) (Fin 0.845)
  = albedo_KZ04 RI_example (Arr [500e-9]) (Fin (PI / 3)) (Fin 20)
      (Fin 0.25) None (NiName "p2016") (Fin 1.6) (Fin 0.845).
Proof.
  assert (Hmu : cos_sum exact_arith (PI / 3) 0 (PI / 6) 0 = cos (PI / 6)).
  { rewrite cos_sum_exact. unfold mu_local.
    replace (0 - 0) with 0 by ring. rewrite cos_0, Rmult_1_r.
    rewrite <- cos_minus. f_equal. field. }
  pose proof PI_RGT_0 as Hpi.
  destruct (flat_model_is_KZ04 RI_example exact_arith (Arr [500e-9])
              (PI / 3) 0 (PI / 6) 0 (Fin 20) (Fin 0.25) false None
              (NiName "p2016") (Fin 1.6) (Fin 0.845)) as [Hlit _].
  apply (Hlit (PI / 6)).
  - rewrite local_sza_real; rewrite Hmu.
    + f_equal. apply acos_cos. lra.
    + apply COS_bound.
  - lra.
  - cbn. lra.
Defined.

(** ** Zero slope *)

Lemma negative_to_nan_map (a : nd fval) :
  negative_to_nan a = Nd.map clip_negative a.
Proof.
  destruct a as [x | xs]; [ | reflexivity ].
  cbn. f_equal. unfold clip_negative.
  destruct x as [r | | | ]; cbn; try reflexivity.
  destruct (Rlt_le_dec r 0); now rtest.
Qed.

Lemma cos_sum_flat_bounds (FP : double_arith) (sza saa aspect : R) :
  -1 <= cos_sum FP sza saa 0 aspect <= 1.
Proof. rewrite cos_sum_flat. apply COS_bound. Qed.

Lemma K_flat (c : R) : 0 < c -> Float.pymax (Fin c / Fin c)%fl (Fin 0) = Fin 1.
Proof.
  intros Hc. fcalc. replace (c / c) with 1 by (field; lra). now fcalc.
Qed.

Lemma V_flat : ((Fin 1 + Float.cos (Fin 0)) / Fin 2)%fl = Fin 1.
Proof. fsimpl. rewrite cos_0. fcalc. f_equal. lra. Qed.

Lemma KZ04_at_both (cz : R) (alpha : fval) :
  0 < cz ->
  both_finite_or_nan (direct_KZ04_at (Fin cz) alpha) (diffuse_KZ04_at alpha).
Proof.
  intros Hcz. unfold both_finite_or_nan, direct_KZ04_at, diffuse_KZ04_at.
  destruct alpha as [a | | | ]; cbn [Float.sqrt].
  - destruct (Rle_dec 0 a); rtest; fcalc; eauto 10.
  - assert (0 < 1 + 2 * cz) by lra. fcalc. eauto 10.
  - fcalc. eauto 10.
  - fcalc. eauto 10.
Qed.

(** The three flat albedos on a flat surface: the direct albedo at the
    local sza is the direct albedo at the sza. *)
Lemma flat_albedos_flat (RI : refractive_index) (FP : double_arith)
  (wavelengths : nd R) (sza saa aspect : R) (ssa : fval) (fixed : option R)
  (impurities : option impurities_dict) (ni : ni_arg) (B g : fval) :
  0 < cos sza ->
  match
    flat_albedos RI wavelengths
      (local_sza FP (Fin sza) (Fin saa) (Fin 0) (Fin aspect)) (Fin sza) ssa
      (option_map Fin fixed) impurities ni B g
  with
  | Raise _ => True
  | Ret (alb_loc_dir, alb_dir, alb_diff) =>
      exists (X : nd fval) (D F : fval -> fval),
        alb_loc_dir = Nd.map D X /\ alb_dir = Nd.map D X
        /\ alb_diff = Nd.map F X
        /\ forall x, both_finite_or_nan (D x) (F x)
  end.
Proof.
  intros Hc.
  assert (Hcomputed :
            match
              (alb_loc_dir <- albedo_direct_KZ04 RI wavelengths
                                (local_sza FP (Fin sza) (Fin saa) (Fin 0)
                                   (Fin aspect))
                                ssa impurities ni B g ;;
               alb_dir <- albedo_direct_KZ04 RI wavelengths (Fin sza) ssa
                            impurities ni B g ;;
               alb_diff <- albedo_diffuse_KZ04 RI wavelengths ssa
                             impurities ni B g ;;
               Ret (alb_loc_dir, alb_dir, alb_diff))
            with
            | Raise _ => True
            | Ret (alb_loc_dir, alb_dir, alb_diff) =>
                exists (X : nd fval) (D F : fval -> fval),
                  alb_loc_dir = Nd.map D X /\ alb_dir = Nd.map D X
                  /\ alb_diff = Nd.map F X
                  /\ forall x, both_finite_or_nan (D x) (F x)
            end).
  { destruct (compute_co_single_scattering_albedo RI wavelengths ssa
                impurities ni B g) as [c | e] eqn:Hcs.
    - rewrite !(albedo_direct_KZ04_eq _ _ _ _ _ _ _ _ Hcs).
      rewrite !(albedo_diffuse_KZ04_eq _ _ _ _ _ _ _ _ Hcs).
      rewrite cos_lsza by apply cos_sum_flat_bounds.
      rewrite cos_sum_flat. cbn [Float.cos Float.ge Float.le].
      rtest. cbn [bind].
      exists c, (fun x => direct_KZ04_at (Fin (cos sza)) (alpha_at g x)),
        (fun x => diffuse_KZ04_at (alpha_at g x)).
      repeat split. intros x. now apply KZ04_at_both.
    - unfold albedo_direct_KZ04, compute_alpha. rewrite Hcs. exact I. }
  unfold flat_albedos.
  destruct fixed as [f | ]; cbn [option_map]; [ | exact Hcomputed ].
  destruct (Float.truthy (Fin f)); [ | exact Hcomputed ].
  exists (Sc (Fin 0)), (fun _ => Fin f), (fun _ => Fin f).
  repeat split. intros _. left. eauto.
Qed.

Section FlatSurface.

Variable A : Type.
Variable X : nd A.
Variables D F : A -> fval.
Variable r : R.

Hypothesis albedos_ok : forall x, both_finite_or_nan (D x) (F x).

Ltac pointwise :=
  let x := fresh "x" in
  let a := fresh "a" in
  let b := fresh "b" in
  apply NdFacts.map_ext; intros x; unfold mix;
  destruct (albedos_ok x) as [(a & b & -> & ->) | [-> ->]];
  [ fcalc; try (f_equal; field) | reflexivity ].

(** With [K = 1], [V = 1] and [M = 0 * alb_diff], the formulas of the six
    models are the formula of "flat". *)
Lemma slope_model_flat_surface (model : string) :
  In model slope_models ->
  slope_model model (Fin 1) (Fin 1) (Fin r)
    (Sc (Fin 1 - Fin 1)%fl * Nd.map F X)%nd (Nd.map D X) (Nd.map D X)
    (Nd.map F X)
  = Ret (flat_value A X D F r).
Proof.
  intros Hin. unfold flat_value.
  repeat (destruct Hin as [<- | Hin]); [ .. | destruct Hin ];
    unfold slope_model; cbn [String.eqb Ascii.eqb Bool.eqb bind];
    cbn [Float.eq]; rtest; cbn [bind];
    f_equal; f_equal; nd_norm; pointwise.
Qed.

End FlatSurface.

Section FlatSurfaceTop.

Variable A : Type.
Variable X : nd A.
Variables D F : A -> fval.
Variable r : R.

Hypothesis albedos_ok : forall x, both_finite_or_nan (D x) (F x).

(** The coupling with the top of the hill leaves the value of the top
    model as it is. *)
Lemma top_of_hill_flat_surface (model : string) :
  In model ["DM"; "SM"]%string ->
  top_of_hill_coupling model (Fin 1) (Fin 1) (Fin r)
    (Sc (Fin 1 - Fin 1)%fl * Nd.map F X)%nd (Nd.map D X) (Nd.map D X)
    (Nd.map F X) (flat_value A X D F r)
  = Ret (flat_value A X D F r).
Proof.
  intros Hin. unfold flat_value. rewrite negative_to_nan_map.
  destruct Hin as [<- | [<- | []]];
    unfold top_of_hill_coupling; cbn [String.eqb Ascii.eqb Bool.eqb];
    cbn [Float.gt Float.lt]; rtest; f_equal; nd_norm;
    apply NdFacts.map_ext; intros x; unfold mix, clip_negative;
    (destruct (albedos_ok x) as [(a & b & -> & ->) | [-> ->]];
     [ | reflexivity ]);
    fsimpl;
    match goal with
    | |- context [Rleb 0 ?e] =>
        destruct (Rle_dec 0 e); rtest; fcalc;
        [ f_equal; field | reflexivity ]
    end.
Qed.

End FlatSurfaceTop.

Section ZeroSlope.

Variable RI : refractive_index.
Variable FP : double_arith.
Variable wavelengths : nd R.
Variables sza saa aspect r_difftot : R.
Variable ssa : fval.
Variable fixed_flat_albedo : option R.
Variable impurities : option impurities_dict.
Variable ni : ni_arg.
Variables B g : fval.

Hypothesis sun_above : 0 < cos sza.

Lemma albedo_P20_slope_rec_zero_slope_direct (d : nat) (model : string)
  (measured_difftot : bool) :
  In model slope_models ->
  negb measured_difftot && in_strings model ["DM"; "SM"]%string = false ->
  albedo_P20_slope_rec RI FP d wavelengths (Fin sza) (Fin saa) ssa
    (Fin r_difftot) (Fin 0) (Fin aspect) model measured_difftot
    (option_map Fin fixed_flat_albedo) impurities ni B g
  = flat_surface_result RI FP wavelengths sza saa aspect r_difftot ssa
      fixed_flat_albedo impurities ni B g.
Proof.
  intros Hin Hrec.
  rewrite albedo_P20_slope_rec_flat_depth by assumption.
  cbn [albedo_P20_slope_rec].
  rewrite lsza_guard by apply cos_sum_flat_bounds.
  rewrite cos_sum_flat. rtest.
  cbn [negb]. rewrite Hrec. unfold flat_surface_result.
  pose proof (flat_albedos_flat RI FP wavelengths sza saa aspect ssa
                fixed_flat_albedo impurities ni B g sun_above) as HA.
  destruct (flat_albedos RI wavelengths _ (Fin sza) ssa _ impurities ni B g)
    as [[[alb_loc_dir alb_dir] alb_diff] | e]; cbn [bind];
    [ | reflexivity ].
  destruct HA as (X & D & F & -> & -> & -> & Hok).
  rewrite cos_lsza by apply cos_sum_flat_bounds.
  rewrite cos_sum_flat, V_flat. cbn [Float.cos].
  rewrite (K_flat _ sun_above).
  rewrite (slope_model_flat_surface _ X D F r_difftot Hok model Hin).
  unfold flat_value. f_equal. f_equal. nd_norm. reflexivity.
Qed.

Lemma albedo_P20_slope_rec_zero_slope_top (d : nat) (model : string) :
  In model ["DM"; "SM"]%string ->
  albedo_P20_slope_rec RI FP (S d) wavelengths (Fin sza) (Fin saa) ssa
    (Fin r_difftot) (Fin 0) (Fin aspect) model false
    (option_map Fin fixed_flat_albedo) impurities ni B g
  = flat_surface_result RI FP wavelengths sza saa aspect r_difftot ssa
      fixed_flat_albedo impurities ni B g.
Proof.
  intros Hin.
  assert (Hrec : in_strings model ["DM"; "SM"]%string = true)
    by (destruct Hin as [<- | [<- | []]]; reflexivity).
  assert (Htop : In (drop_last model ++ "T")%string slope_models)
    by (destruct Hin as [<- | [<- | []]]; cbn; auto 10).
  cbn [albedo_P20_slope_rec].
  rewrite lsza_guard by apply cos_sum_flat_bounds.
  rewrite cos_sum_flat. rtest.
  cbn [negb andb]. rewrite Hrec.
  rewrite (albedo_P20_slope_rec_zero_slope_direct d _ false Htop)
    by (cbn [negb andb]; now apply top_model_not_recursive).
  unfold flat_surface_result.
  pose proof (flat_albedos_flat RI FP wavelengths sza saa aspect ssa
                fixed_flat_albedo impurities ni B g sun_above) as HA.
  destruct (flat_albedos RI wavelengths _ (Fin sza) ssa _ impurities ni B g)
    as [[[alb_loc_dir alb_dir] alb_diff] | e]; cbn [bind];
    [ | reflexivity ].
  destruct HA as (X & D & F & -> & -> & -> & Hok).
  rewrite cos_lsza by apply cos_sum_flat_bounds.
  rewrite cos_sum_flat, V_flat. cbn [Float.cos].
  rewrite (K_flat _ sun_above).
  replace (negative_to_nan
             (Sc (Fin 1 - Fin r_difftot)%fl * Nd.map D X
              + Sc (Fin r_difftot) * Nd.map F X)%nd)
    with (flat_value _ X D F r_difftot)
    by (unfold flat_value; f_equal; nd_norm; reflexivity).
  now apply top_of_hill_flat_surface.
Qed.

Lemma albedo_P20_slope_zero_slope (model : string)
  (measured_difftot : bool) :
  In model slope_models ->
  albedo_P20_slope RI FP wavelengths (Fin sza) (Fin saa) ssa
    (Fin r_difftot) (Fin 0) (Fin aspect) model measured_difftot
    (option_map Fin fixed_flat_albedo) impurities ni B g
  = flat_surface_result RI FP wavelengths sza saa aspect r_difftot ssa
      fixed_flat_albedo impurities ni B g.
Proof.
  intros Hin. unfold albedo_P20_slope.
  destruct (negb measured_difftot && in_strings model ["DM"; "SM"]%string)
    eqn:E.
  - apply andb_prop in E. destruct E as [Em Ein].
    destruct measured_difftot; [ discriminate | ].
    apply albedo_P20_slope_rec_zero_slope_top.
    unfold in_strings in Ein. cbn [existsb] in Ein.
    destruct (String.eqb model "DM") eqn:E1;
      [ apply String.eqb_eq in E1; subst; cbn; auto | ].
    destruct (String.eqb model "SM") eqn:E2;
      [ apply String.eqb_eq in E2; subst; cbn; auto | discriminate ].
  - now apply albedo_P20_slope_rec_zero_slope_direct.
Qed.

End ZeroSlope.

(** C3: at slope 0, for any aspect and solar azimuth and any sza with
    [cos sza > 0], [albedo_P20_slope] returns the same for each of the six
    models and either value of [measured_difftot] (the same value, or the
    same error), namely what "flat" returns; with or without a fixed flat
    albedo. *)
Theorem albedo_P20_slope_zero_slope_all_models (RI : refractive_index)
  (FP : double_arith) (wavelengths : nd R)
  (sza saa aspect r_difftot : R) (ssa : fval)
  (fixed_flat_albedo : option R) (impurities : option impurities_dict)
  (ni : ni_arg) (B g : fval) (model : string)
  (measured_difftot measured_difftot' : bool) :
  0 < cos sza ->
  In model slope_models ->
  albedo_P20_slope RI FP wavelengths (Fin sza) (Fin saa) ssa
    (Fin r_difftot) (Fin 0) (Fin aspect) model measured_difftot
    (option_map Fin fixed_flat_albedo) impurities ni B g
  = albedo_P20_slope RI FP wavelengths (Fin sza) (Fin saa) ssa
      (Fin r_difftot) (Fin 0) (Fin aspect) "flat" measured_difftot'
      (option_map Fin fixed_flat_albedo) impurities ni B g.
Proof.
  intros Hsun Hin.
  rewrite !albedo_P20_slope_zero_slope; auto.
  cbn. auto.
Qed.

(** The theorem for the model "SM" with a synthesized diffuse ratio, the
    sun at 60 degrees of zenith angle. *)
Lemma albedo_P20_slope_zero_slope_all_models_witness :
  albedo_P20_slope RI_example exact_arith (Arr [500e-9; 900e-9])
    (Fin (PI / 3)) (Fin 2) (Fin 20) (Fin 0.25) (Fin 0) (Fin 1) "SM" false
    None None (NiName "p2016") (Fin 1.6) (Fin 0.845)
  = albedo_P20_slope RI_example exact_arith (Arr [500e-9; 900e-9])
      (Fin (PI / 3)) (Fin 2) (Fin 20) (Fin 0.25) (Fin 0) (Fin 1) "flat"
      true None None (NiName "p2016") (Fin 1.6) (Fin 0.845).
Proof.
  apply (albedo_P20_slope_zero_slope_all_models RI_example exact_arith
           (Arr [500e-9; 900e-9]) (PI / 3) 2 1 0.25 (Fin 20) None None
           (NiName "p2016") (Fin 1.6) (Fin 0.845) "SM" false true).
  - rewrite cos_PI3. lra.
  - cbn. auto 10.
Defined.

(** ** The self-shadow case of the models "DM" and "SM" *)

Lemma in_DM_SM (model : string) :
  In model ["DM"; "SM"]%string ->
  in_strings model ["DM"; "SM"]%string = true.
Proof. intros [<- | [<- | []]]; reflexivity. Qed.

(** The self-shadow case: a local zenith angle that is a number below
    pi/2, and [K = 0]. *)
Lemma self_shadow_case (FP : double_arith) (sza saa slope aspect l : R) :
  local_sza FP (Fin sza) (Fin saa) (Fin slope) (Fin aspect) = Fin l ->
  l < PI / 2 ->
  K_factor (Fin l) (Fin sza) = Fin 0 ->
  0 < cos_sum FP sza saa slope aspect <= 1
  /\ cos l = cos_sum FP sza saa slope aspect
  /\ cos sza < 0.
Proof.
  intros Hl Hlt HK. apply local_sza_number in Hl. destruct Hl as [Hb ->].
  apply acos_lt_PI2 in Hlt; [ | exact Hb ].
  split; [ lra | ]. split; [ now apply cos_acos | ].
  unfold K_factor in HK. cbn [Float.cos] in HK.
  rewrite cos_acos in HK by exact Hb.
  set (mu := cos_sum FP sza saa slope aspect) in *.
  destruct (Rtotal_order (cos sza) 0) as [Hneg | [Hzero | Hpos]];
    [ exact Hneg | | ]; exfalso; revert HK.
  - rewrite Hzero. fcalc. discriminate.
  - assert (0 < mu / cos sza) by (apply Rdiv_lt_0_compat; lra).
    fcalc. intros [= HK]. lra.
Qed.

(** Without a measured diffuse ratio, the self-shadow case of "DM" and
    "SM" returns, when a fixed flat albedo is given. *)
Lemma unmeasured_self_shadow_returns (RI : refractive_index)
  (FP : double_arith) (wavelengths : nd R) (sza saa slope aspect l : R)
  (ssa r_difftot f : fval) (impurities : option impurities_dict)
  (ni : ni_arg) (B g : fval) (model : string) :
  In model ["DM"; "SM"]%string ->
  local_sza FP (Fin sza) (Fin saa) (Fin slope) (Fin aspect) = Fin l ->
  l < PI / 2 ->
  K_factor (Fin l) (Fin sza) = Fin 0 ->
  Float.truthy f = true ->
  let V := ((Fin 1 + Float.cos (Fin slope)) / Fin 2)%fl in
  albedo_P20_slope RI FP wavelengths (Fin sza) (Fin saa) ssa r_difftot
    (Fin slope) (Fin aspect) model false (Some f) impurities ni B g
  = (if (r_difftot >? Fin 0)%fl
     then
       Ret (if String.eqb model "DM"
            then (Sc V * Sc f / (Sc (Fin 1) + Sc (Fin 1 - V)%fl * Sc f))%nd
            else Sc f)
     else Ret (Sc NaN)).
Proof.
  intros Hin Hl Hlt HK Hf V.
  destruct (self_shadow_case FP sza saa slope aspect l Hl Hlt HK)
    as (Hmu & _ & _).
  unfold K_factor in HK.
  unfold albedo_P20_slope. cbn [albedo_P20_slope_rec].
  rewrite lsza_guard by lra. rtest. cbn [negb andb].
  rewrite (in_DM_SM _ Hin), (top_model_not_recursive _ (in_DM_SM _ Hin)).
  unfold flat_albedos. rewrite Hf. cbn [bind]. rewrite Hl, HK.
  destruct Hin as [<- | [<- | []]];
    cbn [drop_last append]; unfold slope_model, top_of_hill_coupling;
    cbn [String.eqb Ascii.eqb Bool.eqb bind Float.gt Float.lt]; rtest;
    destruct (Float.lt (Fin 0) r_difftot); reflexivity.
Qed.

(** With the flat albedos to compute, the self-shadow case stops at the
    direct albedo at the sza, whose cosine is negative. *)
Lemma self_shadow_without_fixed_albedo (RI : refractive_index)
  (FP : double_arith) (d : nat) (wavelengths : nd R)
  (sza saa slope aspect l : R) (ssa r_difftot : fval)
  (fixed_flat_albedo : option fval) (impurities : option impurities_dict)
  (ni : ni_arg) (B g : fval) (model : string) (measured_difftot : bool) :
  local_sza FP (Fin sza) (Fin saa) (Fin slope) (Fin aspect) = Fin l ->
  l < PI / 2 ->
  K_factor (Fin l) (Fin sza) = Fin 0 ->
  match fixed_flat_albedo with
  | None => True
  | Some f => Float.truthy f = false
  end ->
  albedo_P20_slope_rec RI FP d wavelengths (Fin sza) (Fin saa) ssa
    r_difftot (Fin slope) (Fin aspect) model measured_difftot
    fixed_flat_albedo impurities ni B g
  = (alpha <- compute_alpha RI wavelengths ssa impurities ni B g ;;
     Raise AssertionError).
Proof.
  intros Hl Hlt HK Hfix.
  destruct (self_shadow_case FP sza saa slope aspect l Hl Hlt HK)
    as (Hmu & Hcos & Hsza).
  assert (Hflat :
            flat_albedos RI wavelengths (Fin l) (Fin sza) ssa
              fixed_flat_albedo impurities ni B g
            = (alpha <- compute_alpha RI wavelengths ssa impurities ni B
                          g ;;
               Raise AssertionError)).
  { unfold flat_albedos.
    assert (Hcomputed :
              (alb_loc_dir <- albedo_direct_KZ04 RI wavelengths (Fin l) ssa
                                impurities ni B g ;;
               alb_dir <- albedo_direct_KZ04 RI wavelengths (Fin sza) ssa
                            impurities ni B g ;;
               alb_diff <- albedo_diffuse_KZ04 RI wavelengths ssa
                             impurities ni B g ;;
               Ret (alb_loc_dir, alb_dir, alb_diff))
              = (alpha <- compute_alpha RI wavelengths ssa impurities ni B
                            g ;;
                 Raise AssertionError)).
    { destruct (compute_co_single_scattering_albedo RI wavelengths ssa
                  impurities ni B g) as [c | e] eqn:Hc.
      - rewrite !(albedo_direct_KZ04_eq _ _ _ _ _ _ _ _ Hc).
        rewrite (compute_alpha_eq _ _ _ _ _ _ _ _ Hc).
        cbn [Float.cos Float.ge Float.le]. rewrite Hcos. now rtest.
      - unfold albedo_direct_KZ04, compute_alpha. rewrite Hc.
        reflexivity. }
    destruct fixed_flat_albedo as [f | ]; [ | exact Hcomputed ].
    rewrite Hfix. exact Hcomputed. }
  destruct d; cbn [albedo_P20_slope_rec];
    rewrite lsza_guard by lra; rtest; cbn [negb orb];
    rewrite Hl, Hflat;
    destruct (compute_alpha RI wavelengths ssa impurities ni B g);
    reflexivity.
Qed.

(** C8 (amended): in the self-shadow case [K = 0] with a local sza that is
    a number below pi/2, [albedo_P20_slope] with model "DM" or "SM" raises
    unless a fixed flat albedo is given together with [measured_difftot]
    false.  Without a fixed flat albedo (none, or 0.0) it raises for
    either value of [measured_difftot]: the error of [compute_alpha], else
    the assertion of [albedo_direct_KZ04], the cosine of the sza being
    negative when [K = 0].  With a fixed flat albedo and the diffuse ratio
    measured it raises NotImplementedError.  With a fixed flat albedo [f]
    and the diffuse ratio not measured it returns [V * f / (1 + M)] for
    "DM" and [f] for "SM" if [r_difftot > 0], and NaN if not. *)
Theorem self_shadow_raises (RI : refractive_index) (FP : double_arith)
  (wavelengths : nd R) (sza saa slope aspect l : R) (ssa r_difftot : fval)
  (impurities : option impurities_dict) (ni : ni_arg) (B g : fval)
  (model : string) :
  In model ["DM"; "SM"]%string ->
  local_sza FP (Fin sza) (Fin saa) (Fin slope) (Fin aspect) = Fin l ->
  l < PI / 2 ->
  K_factor (Fin l) (Fin sza) = Fin 0 ->
  let V := ((Fin 1 + Float.cos (Fin slope)) / Fin 2)%fl in
  let P20 measured_difftot fixed_flat_albedo :=
    albedo_P20_slope RI FP wavelengths (Fin sza) (Fin saa) ssa r_difftot
      (Fin slope) (Fin aspect) model measured_difftot fixed_flat_albedo
      impurities ni B g in
  (forall measured_difftot fixed_flat_albedo,
      match fixed_flat_albedo with
      | None => True
      | Some f => Float.truthy f = false
      end ->
      raises (P20 measured_difftot fixed_flat_albedo)
      /\ P20 measured_difftot fixed_flat_albedo
         = (alpha <- compute_alpha RI wavelengths ssa impurities ni B g ;;
            Raise AssertionError))
  /\ (forall f,
        Float.truthy f = true ->
        P20 true (Some f)
        = Raise (NotImplementedError "Incorrect in the self-shadow")
        /\ P20 false (Some f)
           = (if (r_difftot >? Fin 0)%fl
              then
                Ret (if String.eqb model "DM"
                     then (Sc V * Sc f
                           / (Sc (Fin 1) + Sc (Fin 1 - V)%fl * Sc f))%nd
                     else Sc f)
              else Ret (Sc NaN))).
Proof.
  intros Hin Hl Hlt HK V P20. subst P20. cbn beta. split.
  - intros measured_difftot fixed_flat_albedo Hfix.
    assert (Heq :
              albedo_P20_slope RI FP wavelengths (Fin sza) (Fin saa) ssa
                r_difftot (Fin slope) (Fin aspect) model measured_difftot
                fixed_flat_albedo impurities ni B g
              = (alpha <- compute_alpha RI wavelengths ssa impurities ni B
                            g ;;
                 Raise AssertionError))
      by now apply (self_shadow_without_fixed_albedo RI FP 1 wavelengths sza saa
                      slope aspect l).
    split; [ | exact Heq ].
    rewrite Heq.
    destruct (compute_alpha RI wavelengths ssa impurities ni B g);
      apply raises_Raise.
  - intros f Hf. split.
    + destruct (self_shadow_case FP sza saa slope aspect l Hl Hlt HK)
        as (Hmu & _ & _).
      unfold K_factor in HK.
      unfold albedo_P20_slope. cbn [albedo_P20_slope_rec].
      rewrite lsza_guard by lra. rtest. cbn [negb andb].
      unfold flat_albedos. rewrite Hf. cbn [bind]. rewrite Hl, HK.
      destruct Hin as [<- | [<- | []]]; unfold slope_model;
        cbn [String.eqb Ascii.eqb Bool.eqb Float.eq]; rtest; reflexivity.
    + now apply (unmeasured_self_shadow_returns RI FP wavelengths sza saa
                   slope aspect l).
Qed.

(** The sun 30 degrees below the horizon (sza of 120 degrees) in front of
    a vertical wall: the local sza is 30 degrees and [K = 0]. *)
Lemma self_shadow_geometry :
  local_sza exact_arith (Fin (2 * (PI / 3))) (Fin 0) (Fin (PI / 2)) (Fin 0)
  = Fin (PI / 6)
  /\ PI / 6 < PI / 2
  /\ K_factor (Fin (PI / 6)) (Fin (2 * (PI / 3))) = Fin 0.
Proof.
  pose proof PI_RGT_0 as Hpi.
  assert (Hmu : cos_sum exact_arith (2 * (PI / 3)) 0 (PI / 2) 0
                = cos (PI / 6)).
  { rewrite cos_sum_exact. unfold mu_local.
    rewrite cos_2PI3, sin_2PI3, cos_PI2, sin_PI2, cos_PI6.
    replace (0 - 0) with 0 by ring. rewrite cos_0. field. }
  pose proof (sqrt_lt_R0 3 ltac:(lra)) as H3.
  split; [ | split; [ lra | ] ].
  - rewrite local_sza_real; rewrite Hmu.
    + f_equal. apply acos_cos. lra.
    + apply COS_bound.
  - unfold K_factor. cbn [Float.cos]. rewrite cos_2PI3, cos_PI6. fcalc.
    assert (sqrt 3 / 2 / (-1 / 2) < 0).
    { replace (sqrt 3 / 2 / (-1 / 2)) with (- sqrt 3) by field. lra. }
    now fcalc.
Qed.

(** C8 (as stated, with the default [measured_difftot=False]): in that
    self-shadow geometry, with a fixed flat albedo of 0.9 and half of the
    light diffuse, the model "DM" returns a number and does not raise. *)
Lemma default_call_in_self_shadow_returns :
  K_factor
    (local_sza exact_arith (Fin (2 * (PI / 3))) (Fin 0) (Fin (PI / 2))
       (Fin 0))
    (Fin (2 * (PI / 3))) = Fin 0
  /\ (exists v : R,
        albedo_P20_slope RI_example exact_arith (Arr [500e-9])
          (Fin (2 * (PI / 3))) (Fin 0) (Fin 20) (Fin 0.5) (Fin (PI / 2))
          (Fin 0) "DM" false (Some (Fin 0.9)) None (NiName "p2016")
          (Fin 1.6) (Fin 0.845)
        = Ret (Sc (Fin v)))
  /\ ~ raises
         (albedo_P20_slope RI_example exact_arith (Arr [500e-9])
            (Fin (2 * (PI / 3))) (Fin 0) (Fin 20) (Fin 0.5) (Fin (PI / 2))
            (Fin 0) "DM" false (Some (Fin 0.9)) None (NiName "p2016")
            (Fin 1.6) (Fin 0.845)).
Proof.
  destruct self_shadow_geometry as (Hl & Hlt & HK).
  assert (Hret : exists v : R,
             albedo_P20_slope RI_example exact_arith (Arr [500e-9])
               (Fin (2 * (PI / 3))) (Fin 0) (Fin 20) (Fin 0.5)
               (Fin (PI / 2)) (Fin 0) "DM" false (Some (Fin 0.9)) None
               (NiName "p2016") (Fin 1.6) (Fin 0.845)
             = Ret (Sc (Fin v))).
  { rewrite (unmeasured_self_shadow_returns RI_example exact_arith
               (Arr [500e-9]) (2 * (PI / 3)) 0 (PI / 2) 0 (PI / 6));
      [ | cbn; auto | exact Hl | exact Hlt | exact HK | now fcalc ].
    cbn [String.eqb Ascii.eqb Bool.eqb]. fcalc. rewrite cos_PI2.
    cbn [Nd.mul Nd.add Nd.div Nd.map2]. fcalc.
    eexists. reflexivity. }
  split; [ rewrite Hl; exact HK | ]. split; [ exact Hret | ].
  destruct Hret as [v ->]. apply raises_Ret.
Qed.

(** The theorem in that geometry, without a fixed flat albedo and with
    the default [measured_difftot=False]. *)
Lemma self_shadow_raises_witness :
  raises
    (albedo_P20_slope RI_example exact_arith (Arr [500e-9])
       (Fin (2 * (PI / 3))) (Fin 0) (Fin 20) (Fin 0.5) (Fin (PI / 2))
       (Fin 0) "DM" false None None (NiName "p2016") (Fin 1.6)
       (Fin 0.845)).
Proof.
  destruct (self_shadow_raises RI_example exact_arith (Arr [500e-9])
              (2 * (PI / 3)) 0 (PI / 2) 0 (PI / 6) (Fin 20) (Fin 0.5) None
              (NiName "p2016") (Fin 1.6) (Fin 0.845) "DM")
    as [Hraise _].
  - cbn. auto.
  - apply self_shadow_geometry.
  - apply self_shadow_geometry.
  - apply self_shadow_geometry.
  - now apply (Hraise false None).
Defined.

(** * More properties of the module *)

(** ** The local solar zenith angle *)

(** X25: a local zenith angle that is NaN is not caught by the guard
    [lsza >= pi/2 or lsza < 0].  When [local_sza] returns NaN (the cosine
    sum, which is not clipped, rounded out of [-1, 1]; or an angle that is
    NaN) and no fixed flat albedo is given, [albedo_P20_slope] does not
    return NaN: for every model and either value of [measured_difftot] it
    raises, the error of [compute_alpha] or else the AssertionError of
    [albedo_direct_KZ04]; and so does [albedo_direct_KZ04_slope]. *)
Theorem local_sza_nan_raises (RI : refractive_index) (FP : double_arith)
  (wavelengths : nd R) (sza saa ssa r_difftot slope aspect : fval)
  (model : string) (measured_difftot : bool)
  (impurities : option impurities_dict) (ni : ni_arg) (B g : fval) :
  local_sza FP sza saa slope aspect = NaN ->
  albedo_P20_slope RI FP wavelengths sza saa ssa r_difftot slope aspect
    model measured_difftot None impurities ni B g
  = (alpha <- compute_alpha RI wavelengths ssa impurities ni B g ;;
     Raise AssertionError)
  /\ albedo_direct_KZ04_slope RI FP wavelengths sza ssa impurities ni B g
       slope aspect saa
     = (alpha <- compute_alpha RI wavelengths ssa impurities ni B g ;;
        Raise AssertionError).
Proof.
  intros Hnan. split.
  - now apply albedo_P20_slope_rec_lsza_nan.
  - unfold albedo_direct_KZ04_slope, albedo_direct_KZ04. rewrite Hnan.
    destruct (compute_alpha RI wavelengths ssa impurities ni B g);
      reflexivity.
Qed.

(** The theorem for a solar azimuth that is NaN. *)
Lemma local_sza_nan_raises_witness :
  albedo_P20_slope RI_example exact_arith (Arr [500e-9]) (Fin 0.5) NaN
    (Fin 20) (Fin 0.25) (Fin 0.1) (Fin 0) "small_slope" false None None
    (NiName "p2016") (Fin 1.6) (Fin 0.845)
  = (alpha <- compute_alpha RI_example (Arr [500e-9]) (Fin 20) None
                (NiName "p2016") (Fin 1.6) (Fin 0.845) ;;
     Raise AssertionError).
Proof.
  apply (local_sza_nan_raises RI_example exact_arith (Arr [500e-9])
           (Fin 0.5) NaN (Fin 20) (Fin 0.25) (Fin 0.1) (Fin 0)
           "small_slope" false None (NiName "p2016") (Fin 1.6)
           (Fin 0.845)).
  reflexivity.
Defined.

(** ** Direct albedo on a slope *)



(** X4: on flat terrain (slope 0) [albedo_direct_KZ04_slope] is
    [albedo_direct_KZ04], for every sza, azimuth and aspect: the same
    value, or the same error. *)
Theorem albedo_direct_KZ04_slope_flat (RI : refractive_index)
  (FP : double_arith)
  (wavelengths : nd R) (sza saa aspect : R) (ssa : fval)
  (impurities : option impurities_dict) (ni : ni_arg) (B g : fval) :
  albedo_direct_KZ04_slope RI FP wavelengths (Fin sza) ssa impurities ni B
    g (Fin 0) (Fin aspect) (Fin saa)
  = albedo_direct_KZ04 RI wavelengths (Fin sza) ssa impurities ni B g.
Proof.
  unfold albedo_direct_KZ04_slope, albedo_direct_KZ04.
  rewrite cos_lsza by apply cos_sum_flat_bounds.
  now rewrite cos_sum_flat.
Qed.

(** ** The geometry transform *)

(** Below the threshold on the cosine of the local incidence angle. *)
Lemma local_viewing_angle_low_sun
  (theta_i phi_i theta_v phi_v slope aspect : R) :
  mu_local theta_i phi_i slope aspect < 0.000001 ->
  exists theta_v_eff,
    local_viewing_angle (Fin theta_i) (Fin phi_i) (Fin theta_v) (Fin phi_v)
      (Fin slope) (Fin aspect)
    = (NaN, theta_v_eff, NaN).
Proof.
  intros Hmu. unfold local_viewing_angle.
  cbn [Float.cos Float.sin Float.sub Float.add Float.mul Float.neg
       Float.lt].
  change (cos theta_i * cos slope
          + sin theta_i * sin slope * cos (phi_i + - aspect))
    with (mu_local theta_i phi_i slope aspect).
  rtest. eexists. reflexivity.
Qed.

(** X5: grazing incidence.  When the cosine of the local incidence angle
    is below 1e-6 (the sun grazing the slope, or behind it),
    [local_viewing_angle] returns NaN for the local incidence angle and for
    the relative azimuth, whatever the viewing direction. *)
Theorem local_viewing_angle_grazing
  (theta_i phi_i theta_v phi_v slope aspect : R) :
  mu_local theta_i phi_i slope aspect < 0.000001 ->
  exists theta_v_eff,
    local_viewing_angle (Fin theta_i) (Fin phi_i) (Fin theta_v) (Fin phi_v)
      (Fin slope) (Fin aspect)
    = (NaN, theta_v_eff, NaN).
Proof. apply local_viewing_angle_low_sun. Qed.

(** The theorem for the sun at the horizon behind a slope of 45 degrees
    that faces away from it. *)
Lemma local_viewing_angle_grazing_witness :
  exists theta_v_eff,
    local_viewing_angle (Fin (PI / 2)) (Fin PI) (Fin 0) (Fin 0)
      (Fin (PI / 4)) (Fin 0)
    = (NaN, theta_v_eff, NaN).
Proof.
  apply (local_viewing_angle_grazing (PI / 2) PI 0 0 (PI / 4) 0).
  unfold mu_local. rewrite cos_PI2, sin_PI2, cos_PI4, sin_PI4.
  replace (PI - 0) with PI by ring. rewrite cos_PI.
  assert (0 < / sqrt 2).
  { apply Rinv_0_lt_compat. apply sqrt_lt_R0. lra. }
  unfold Rdiv. lra.
Defined.

Lemma sin_pos_upto_PI2 (x : R) : 0 < x <= PI / 2 -> 0 < sin x.
Proof.
  intros Hx. pose proof PI_RGT_0. apply sin_gt_0; lra.
Qed.

(** The local angles on flat terrain. *)
Lemma local_angles_on_flat_terrain
  (theta_i phi_i theta_v phi_v aspect : R) :
  0 < theta_i < PI / 2 -> 0.000001 <= cos theta_i ->
  0 < theta_v <= PI / 2 ->
  local_viewing_angle (Fin theta_i) (Fin phi_i) (Fin theta_v) (Fin phi_v)
    (Fin 0) (Fin aspect)
  = (Fin theta_i, Fin theta_v, Fin (acos (cos (phi_v - phi_i)))).
Proof.
  intros Hi Hci Hv. pose proof PI_RGT_0 as Hpi.
  pose proof (sin_pos_upto_PI2 theta_i ltac:(lra)) as Hsi.
  pose proof (sin_pos_upto_PI2 theta_v Hv) as Hsv.
  pose proof (COS_bound theta_v) as [Hv1 Hv2].
  pose proof (COS_bound theta_i) as [Hi1 Hi2].
  pose proof (COS_bound (phi_v - phi_i)) as [Hp1 Hp2].
  unfold local_viewing_angle.
  cbn [Float.cos Float.sin Float.sub Float.add Float.mul Float.neg].
  rewrite cos_0, sin_0.
  replace (cos theta_i * 1 + sin theta_i * 0 * cos (phi_i + - aspect))
    with (cos theta_i) by ring.
  replace (cos theta_v * 1 + sin theta_v * 0 * cos (phi_v + - aspect))
    with (cos theta_v) by ring.
  fcalc.
  rewrite (acos_cos theta_i) by lra. rewrite (acos_cos theta_v) by lra.
  assert (Hrad : 90 * PI / 180 = PI / 2) by field.
  rewrite Hrad. fcalc.
  assert (Hden : sin theta_i * sin theta_v <> 0) by nra.
  fcalc.
  replace ((cos theta_v * cos theta_i
            + sin theta_v * sin theta_i * cos (phi_v + - phi_i)
            + - (cos theta_i * cos theta_v))
           / (sin theta_i * sin theta_v))
    with (cos (phi_v - phi_i)) by (unfold Rminus; field; lra).
  now fcalc.
Qed.

(** X6: on flat terrain (slope 0), for an incidence zenith angle in
    (0, pi/2) that is not grazing and a viewing zenith angle in
    (0, pi/2], [local_viewing_angle] returns the true zenith angles, and
    the relative azimuth [phi_v - phi_i] folded into [0, pi]. *)
Theorem local_viewing_angle_flat
  (theta_i phi_i theta_v phi_v aspect : R) :
  0 < theta_i < PI / 2 -> 0.000001 <= cos theta_i ->
  0 < theta_v <= PI / 2 ->
  exists raa : R,
    local_viewing_angle (Fin theta_i) (Fin phi_i) (Fin theta_v) (Fin phi_v)
      (Fin 0) (Fin aspect)
    = (Fin theta_i, Fin theta_v, Fin raa)
    /\ 0 <= raa <= PI
    /\ cos raa = cos (phi_v - phi_i).
Proof.
  intros Hi Hci Hv. exists (acos (cos (phi_v - phi_i))).
  split; [ now apply local_angles_on_flat_terrain | ].
  split; [ apply acos_bound | ].
  apply cos_acos. apply COS_bound.
Qed.

(** The theorem for illumination at 60 degrees and view at 30 degrees. *)
Lemma local_viewing_angle_flat_witness :
  exists raa : R,
    local_viewing_angle (Fin (PI / 3)) (Fin 0) (Fin (PI / 6)) (Fin 1)
      (Fin 0) (Fin 2)
    = (Fin (PI / 3), Fin (PI / 6), Fin raa)
    /\ 0 <= raa <= PI
    /\ cos raa = cos (1 - 0).
Proof.
  pose proof PI_RGT_0 as Hpi.
  apply (local_viewing_angle_flat (PI / 3) 0 (PI / 6) 1 2).
  - lra.
  - rewrite cos_PI3. lra.
  - lra.
Defined.

(** ** The zero-order BRF *)

Lemma clip_unit (e : R) :
  exists e' : R,
    Float.clip (Fin e) (Fin (-1)) (Fin 1) = Fin e' /\ -1 <= e' <= 1
    /\ (-1 <= e <= 1 -> e' = e).
Proof.
  unfold Float.clip. fsimpl.
  destruct (Rlt_dec e (-1)); rtest; fcalc.
  - exists (-1). repeat split; lra.
  - destruct (Rlt_dec 1 e); rtest.
    + exists 1. repeat split; lra.
    + exists e. repeat split; lra.
Qed.

Lemma valid_formalism_phi (RAA_formalism : string) (phi : R) :
  In RAA_formalism ["angular"; "vectorial"]%string ->
  exists new_phi : R,
    (if String.eqb RAA_formalism "angular" then Ret (Fin PI - Fin phi)%fl
     else if String.eqb RAA_formalism "vectorial" then Ret (Fin phi)
     else Raise (ValueError "Invalid RAA_formalism in brf0"))
    = Ret (Fin new_phi).
Proof.
  intros [<- | [<- | []]]; cbn; eexists; reflexivity.
Qed.

(** For a sun and an observer above the horizon the zero-order BRF is a
    positive number. *)
Lemma brf0_KB12_value (theta_i theta_v phi : R) (RAA_formalism : string) :
  In RAA_formalism ["angular"; "vectorial"]%string ->
  0 <= cos theta_i -> 0 <= cos theta_v -> 0 < cos theta_i + cos theta_v ->
  exists r0 : R,
    brf0_KB12 (Fin theta_i) (Fin theta_v) (Fin phi) RAA_formalism
    = Ret (Fin r0)
    /\ 0 < r0.
Proof.
  intros Hf Hi Hv Hsum. pose proof PI_RGT_0 as Hpi.
  unfold brf0_KB12.
  destruct (valid_formalism_phi RAA_formalism phi Hf) as [new_phi ->].
  cbn [bind Float.cos Float.sin Float.neg Float.mul Float.add].
  match goal with
  | |- context [Float.clip (Fin ?e) _ _] =>
      destruct (clip_unit e) as (e' & -> & He' & _)
  end.
  fcalc.
  set (t := acos e' * 180 / PI).
  eexists. split; [ reflexivity | ].
  pose proof (exp_pos (Ropp 0.087 * t)) as H1.
  pose proof (exp_pos (Ropp 0.014 * t)) as H2.
  assert (H3 : 0 <= cos theta_i * cos theta_v) by now apply Rmult_le_pos.
  apply Rdiv_lt_0_compat; lra.
Qed.

(** The zero-order BRF sees the relative azimuth through its cosine. *)
Lemma brf0_KB12_cos_phi (theta_i theta_v : fval) (phi1 phi2 : R)
  (RAA_formalism : string) :
  cos phi1 = cos phi2 ->
  brf0_KB12 theta_i theta_v (Fin phi1) RAA_formalism
  = brf0_KB12 theta_i theta_v (Fin phi2) RAA_formalism.
Proof.
  intros Hcos. unfold brf0_KB12.
  assert (Hpi : forall x, cos (PI + - x) = - cos x).
  { intros x. rewrite cos_plus, cos_PI, sin_PI, cos_neg. ring. }
  destruct (String.eqb RAA_formalism "angular");
    [ | destruct (String.eqb RAA_formalism "vectorial") ];
    cbn [bind Float.sub Float.add Float.neg Float.cos];
    [ rewrite !Hpi | | reflexivity ]; now rewrite Hcos.
Qed.

(** X7: for finite angles with the sun and the observer above the horizon
    (nonnegative cosines, not both zero) and a valid [RAA_formalism],
    [brf0_KB12] returns a finite, positive number. *)
Theorem brf0_KB12_positive (theta_i theta_v phi : R)
  (RAA_formalism : string) :
  In RAA_formalism ["angular"; "vectorial"]%string ->
  0 <= cos theta_i -> 0 <= cos theta_v -> 0 < cos theta_i + cos theta_v ->
  exists r0 : R,
    brf0_KB12 (Fin theta_i) (Fin theta_v) (Fin phi) RAA_formalism
    = Ret (Fin r0)
    /\ 0 < r0.
Proof. apply brf0_KB12_value. Qed.

(** The theorem for illumination at 60 degrees and view at nadir. *)
Lemma brf0_KB12_positive_witness :
  exists r0 : R,
    brf0_KB12 (Fin (PI / 3)) (Fin 0) (Fin 1) "angular" = Ret (Fin r0)
    /\ 0 < r0.
Proof.
  apply (brf0_KB12_positive (PI / 3) 0 1 "angular").
  - cbn. auto.
  - rewrite cos_PI3. lra.
  - rewrite cos_0. lra.
  - rewrite cos_PI3, cos_0. lra.
Defined.

(** X8: [brf0_KB12] is even and 2 pi periodic in the relative azimuth, in
    both formalisms, and the "angular" formalism at [phi] is the
    "vectorial" one at [pi - phi]; whatever the zenith angles. *)
Theorem brf0_KB12_azimuth_symmetry (theta_i theta_v : fval) (phi : R)
  (RAA_formalism : string) :
  brf0_KB12 theta_i theta_v (Fin (- phi)) RAA_formalism
  = brf0_KB12 theta_i theta_v (Fin phi) RAA_formalism
  /\ brf0_KB12 theta_i theta_v (Fin (phi + 2 * PI)) RAA_formalism
     = brf0_KB12 theta_i theta_v (Fin phi) RAA_formalism
  /\ brf0_KB12 theta_i theta_v (Fin phi) "angular"
     = brf0_KB12 theta_i theta_v (Fin (PI - phi)) "vectorial".
Proof.
  split; [ apply brf0_KB12_cos_phi, cos_neg | ].
  split; [ apply brf0_KB12_cos_phi;
           rewrite cos_plus, cos_2PI, sin_2PI; ring | ].
  reflexivity.
Qed.

(** ** The bidirectional reflectance factors *)

Lemma G_value (theta : R) :
  G (Fin theta) = Fin (3 / 7 * (1 + 2 * cos theta)).
Proof. unfold G. now fcalc. Qed.

Lemma y_M16_at_nonnegative (g c : R) :
  0 <= g < 1 -> 0 <= c ->
  exists y : R, y_M16_at (Fin g) (Fin c) = Fin y /\ 0 <= y.
Proof.
  intros Hg Hc. unfold y_M16_at. fsimpl.
  assert (Hden : 0 < 3 * (1 + - ((1 + - c) * g))) by nra.
  assert (Hnum : 0 <= 1 + - (1 + - c)) by lra.
  set (den := 3 * (1 + - ((1 + - c) * g))) in *.
  set (num := 1 + - (1 + - c)) in *.
  assert (Hq : 0 <= num / den).
  { apply Rmult_le_pos; [ assumption | ]. left.
    now apply Rinv_0_lt_compat. }
  fcalc. eexists. split; [ reflexivity | ].
  pose proof (sqrt_pos (num / den)). lra.
Qed.



Section ValidGeometry.

Variable RI : refractive_index.
Variable wavelengths : nd R.
Variables theta_i theta_v phi : R.
Variable RAA_formalism : string.

Hypothesis formalism_valid :
  In RAA_formalism ["angular"; "vectorial"]%string.
Hypothesis sun_above : 0 <= cos theta_i.
Hypothesis observer_above : 0 <= cos theta_v.
Hypothesis not_both_grazing : 0 < cos theta_i + cos theta_v.
Hypothesis wavelengths_positive : Nd.all (fun w => 0 < w) wavelengths.



End ValidGeometry.





(** X11: on flat terrain (slope 0), for an incidence zenith angle in
    (0, pi/2) that is not grazing and a viewing zenith angle in (0, pi/2],
    the slope versions of the BRF are the flat ones at the relative
    azimuth [phi_i - phi_v]: [brf_M16_slope] is [brf_M16] and
    [brf_KB12_slope] is [brf_KB12], values and errors alike. *)
Theorem brf_slope_flat_terrain (RI : refractive_index) (wavelengths : nd R)
  (theta_i phi_i theta_v phi_v aspect : R) (ssa x M : fval)
  (impurities : option impurities_dict) (ni : ni_arg) (B g : fval)
  (RAA_formalism : string) :
  0 < theta_i < PI / 2 -> 0.000001 <= cos theta_i ->
  0 < theta_v <= PI / 2 ->
  brf_M16_slope RI wavelengths (Fin theta_i) (Fin theta_v) (Fin phi_i)
    (Fin phi_v) (Fin 0) (Fin aspect) ssa impurities ni B g RAA_formalism
  = brf_M16 RI wavelengths (Fin theta_i) (Fin theta_v)
      (Fin (phi_i - phi_v)) ssa impurities ni B g RAA_formalism
  /\ brf_KB12_slope RI wavelengths (Fin theta_i) (Fin theta_v) (Fin phi_i)
       (Fin phi_v) (Fin 0) (Fin aspect) ssa x M ni RAA_formalism
     = brf_KB12 RI wavelengths (Fin theta_i) (Fin theta_v)
         (Fin (phi_i - phi_v)) ssa x M ni RAA_formalism.
Proof.
  intros Hi Hci Hv.
  assert (Hcos : cos (acos (cos (phi_v - phi_i))) = cos (phi_i - phi_v)).
  { rewrite cos_acos by apply COS_bound.
    replace (phi_v - phi_i) with (- (phi_i - phi_v)) by ring.
    apply cos_neg. }
  unfold brf_M16_slope, brf_KB12_slope.
  rewrite local_angles_on_flat_terrain by assumption.
  unfold brf_M16, brf_KB12.
  now rewrite (brf0_KB12_cos_phi _ _ _ _ RAA_formalism Hcos).
Qed.

(** The theorem for illumination at 60 degrees and view at 30 degrees. *)
Lemma brf_slope_flat_terrain_witness :
  brf_M16_slope RI_example (Arr [500e-9]) (Fin (PI / 3)) (Fin (PI / 6))
    (Fin 2) (Fin 1) (Fin 0) (Fin 3) (Fin 20) None (NiName "p2016")
    (Fin 1.6) (Fin 0.845) "angular"
  = brf_M16 RI_example (Arr [500e-9]) (Fin (PI / 3)) (Fin (PI / 6))
      (Fin (2 - 1)) (Fin 20) None (NiName "p2016") (Fin 1.6) (Fin 0.845)
      "angular".
Proof.
  pose proof PI_RGT_0 as Hpi.
  apply (brf_slope_flat_terrain RI_example (Arr [500e-9]) (PI / 3) 2
           (PI / 6) 1 3 (Fin 20) (Fin 13) (Fin 0) None (NiName "p2016")
           (Fin 1.6) (Fin 0.845) "angular").
  - lra.
  - rewrite cos_PI3. lra.
  - lra.
Defined.




(** ** Direct and diffuse flat albedo *)

Lemma pow_exp (s n : R) :
  Float.pow (Fin (exp s)) (Fin n) = Fin (exp (s * n)).
Proof.
  pose proof (exp_pos s) as Hs. unfold Float.pow.
  destruct (Req_dec_T n 0) as [-> | Hn]; rtest.
  - now rewrite Rmult_0_r, exp_0.
  - unfold Rpower. rewrite ln_exp. f_equal. f_equal. ring.
Qed.

Lemma direct_KZ04_at_power (z g c : R) :
  g < 1 -> 0 <= c ->
  direct_KZ04_at (Fin (cos z)) (alpha_at (Fin g) (Fin c))
  = Float.pow (diffuse_KZ04_at (alpha_at (Fin g) (Fin c))) (G (Fin z)).
Proof.
  intros Hg Hc.
  rewrite direct_KZ04_at_real, diffuse_KZ04_at_real, G_value by assumption.
  rewrite pow_exp. f_equal. f_equal. field.
Qed.

Lemma direct_M16_at_power (z g c : R) :
  0 <= g < 1 -> 0 <= c ->
  direct_M16_at (Fin z) (y_M16_at (Fin g) (Fin c))
  = Float.pow (diffuse_M16_at (y_M16_at (Fin g) (Fin c))) (G (Fin z)).
Proof.
  intros Hg Hc.
  destruct (y_M16_at_nonnegative g c Hg Hc) as (y & -> & Hy).
  unfold direct_M16_at, diffuse_M16_at. rewrite G_value.
  cbn [Float.neg Float.mul Float.exp]. now rewrite pow_exp.
Qed.

(** X13: for valid optical inputs and [cos sza >= 0], the direct albedo
    is the diffuse albedo raised to the power [G(sza) = 3/7 (1 + 2 cos
    sza)], at every wavelength, in the KZ04 family as in the M16 family:
    the relation the slope corrections are built on. *)
Theorem direct_albedo_is_diffuse_power (RI : refractive_index)
  (wavelengths : nd R) (sza ssa B g : R)
  (impurities : option impurities_dict) (ni : ni_arg) :
  Nd.all (fun w => 0 < w) wavelengths ->
  0 < ssa -> 0 < B -> 0 <= g < 1 -> 0 <= cos sza ->
  valid_ni RI wavelengths ni ->
  match impurities with
  | None => True
  | Some l => valid_impurities RI wavelengths l
  end ->
  (exists diffuse,
      albedo_diffuse_KZ04 RI wavelengths (Fin ssa) impurities ni (Fin B)
        (Fin g) = Ret diffuse
      /\ albedo_direct_KZ04 RI wavelengths (Fin sza) (Fin ssa) impurities
           ni (Fin B) (Fin g)
         = Ret (Nd.map (fun d => Float.pow d (G (Fin sza))) diffuse))
  /\ (exists diffuse,
        albedo_diffuse_M16 RI wavelengths (Fin ssa) impurities ni (Fin B)
          (Fin g) = Ret diffuse
        /\ albedo_direct_M16 RI wavelengths (Fin sza) (Fin ssa) impurities
             ni (Fin B) (Fin g)
           = Ret (Nd.map (fun d => Float.pow d (G (Fin sza))) diffuse)).
Proof.
  intros Hw Hssa HB Hg Hz Hni Himp.
  destruct (cossalb_valid RI wavelengths ssa B (Fin g) impurities ni
              Hssa HB Hw Hni Himp) as (c & Hc & Hnn).
  split.
  - rewrite (albedo_diffuse_KZ04_eq _ _ _ _ _ _ _ _ Hc).
    rewrite (albedo_direct_KZ04_eq _ _ _ _ _ _ _ _ Hc).
    cbn [Float.cos Float.ge Float.le]. rtest.
    eexists. split; [ reflexivity | ]. f_equal.
    rewrite NdFacts.map_map.
    apply (NdFacts.map_ext_all nonnegative); [ assumption | ].
    intros [x | | | ]; cbn [nonnegative]; try contradiction. intros Hx.
    apply direct_KZ04_at_power; lra.
  - unfold albedo_diffuse_M16, albedo_direct_M16.
    rewrite (y_M16_eq _ _ _ _ _ _ _ _ Hc). cbn [bind].
    eexists. split; [ reflexivity | ]. f_equal. nd_norm.
    apply (NdFacts.map_ext_all nonnegative); [ assumption | ].
    intros [x | | | ]; cbn [nonnegative]; try contradiction. intros Hx.
    now apply direct_M16_at_power.
Qed.

(** The theorem for snow with black carbon under a sun at 60 degrees. *)
Lemma direct_albedo_is_diffuse_power_witness :
  exists diffuse,
    albedo_diffuse_KZ04 RI_example (Arr [500e-9; 900e-9]) (Fin 20)
      (Some [("BC"%string, Content (Fin 10e-9))]) (NiName "p2016")
      (Fin 1.6) (Fin 0.845) = Ret diffuse
    /\ albedo_direct_KZ04 RI_example (Arr [500e-9; 900e-9]) (Fin (PI / 3))
         (Fin 20) (Some [("BC"%string, Content (Fin 10e-9))])
         (NiName "p2016") (Fin 1.6) (Fin 0.845)
       = Ret (Nd.map (fun d => Float.pow d (G (Fin (PI / 3)))) diffuse).
Proof.
  apply (direct_albedo_is_diffuse_power RI_example (Arr [500e-9; 900e-9])
           (PI / 3) 20 1.6 0.845
           (Some [("BC"%string, Content (Fin 10e-9))]) (NiName "p2016")).
  - cbn. repeat constructor; lra.
  - lra.
  - lra.
  - lra.
  - rewrite cos_PI3. lra.
  - cbn. eexists. split; [ reflexivity | ]. cbn. repeat constructor; lra.
  - repeat constructor; cbn; try lra; left; split; reflexivity.
Defined.

(** ** The iterative corrections of one spectrum *)

Lemma pow_positive_base (a n : R) :
  0 < a -> Float.pow (Fin a) (Fin n) = Fin (Rpower a n).
Proof.
  intros Ha. unfold Float.pow.
  destruct (Req_dec_T n 0) as [-> | Hn]; rtest; [ | reflexivity ].
  now rewrite Rpower_O.
Qed.

Lemma maximum_0_nonnegative (a : R) :
  0 <= a -> FloatMore.maximum (Fin a) (Fin 0) = Fin a.
Proof. intros Ha. unfold FloatMore.maximum. now fcalc. Qed.

Lemma minimum_1_below (a : R) :
  a <= 1 -> FloatMore.minimum (Fin a) (Fin 1) = Fin a.
Proof. intros Ha. unfold FloatMore.minimum. now fcalc. Qed.

Lemma iterate_fixed {A} (step : A -> A) (x : A) (k : nat) :
  step x = x -> iterate k step x = x.
Proof. intros H. induction k; cbn; [ | rewrite H ]; auto. Qed.

Lemma iterate_last {A} (step : A -> A) (x : A) (k : nat) :
  iterate (S k) step x = step (iterate k step x).
Proof.
  revert x. induction k as [ | k IH]; intros x; [ reflexivity | ].
  change (iterate (S (S k)) step x) with (iterate (S k) step (step x)).
  rewrite IH. reflexivity.
Qed.

Section SyntheticSpectrum.

(** A spectrum on a grid [X]: the diffuse albedo [a] and the diffuse ratio
    [d] at each wavelength, and the albedo that the slope factor [K] and
    the exponent [n] make of them. *)
Variable A : Type.
Variable X : nd A.
Variables a d : A -> R.
Variables K n : R.

Let albedo_diff : nd fval := Nd.map (fun x => Fin (a x)) X.
Let difftot : nd fval := Nd.map (fun x => Fin (d x)) X.
Let albedo : nd fval :=
  Nd.map (fun x => Fin ((1 - d x) * K * Rpower (a x) n + d x * a x)) X.

Hypothesis spectrum_ok :
  Nd.all (fun x => 0 < a x /\ d x + (1 - d x) * K <> 0) X.

Lemma correction_step_fixed :
  correction_step albedo difftot (Fin K) (Fin n) albedo_diff = albedo_diff.
Proof.
  unfold correction_step, albedo, difftot, albedo_diff. nd_norm.
  apply (NdFacts.map_ext_all _ _ _ _ spectrum_ok).
  intros x [Ha Hd]. rewrite pow_positive_base by assumption.
  assert (Hd' : d x + (1 + - d x) * K <> 0) by (unfold Rminus in Hd; lra).
  fcalc.
  replace ((((1 - d x) * K * Rpower (a x) n + d x * a x)
            + - ((1 + - d x) * K * (Rpower (a x) n + - a x)))
           / (d x + (1 + - d x) * K))
    with (a x) by (unfold Rminus; field; lra).
  apply maximum_0_nonnegative. lra.
Qed.

Lemma correction_step2_fixed :
  n <> 0 ->
  correction_step2 albedo difftot (Fin K) (Fin n) albedo_diff = albedo_diff.
Proof.
  intros Hn.
  unfold correction_step2, albedo, difftot, albedo_diff. nd_norm.
  apply (NdFacts.map_ext_all _ _ _ _ spectrum_ok).
  intros x [Ha Hd]. rewrite pow_positive_base by assumption.
  assert (Hd' : (1 + - d x) * K + d x <> 0) by (unfold Rminus in Hd; lra).
  fcalc.
  replace ((((1 - d x) * K * Rpower (a x) n + d x * a x)
            + - (d x * (a x + - Rpower (a x) n)))
           / ((1 + - d x) * K + d x))
    with (Rpower (a x) n) by (unfold Rminus; field; lra).
  rewrite pow_positive_base by apply exp_pos.
  rewrite Rpower_mult.
  replace (n * (1 / n)) with 1 by (field; assumption).
  rewrite Rpower_1 by assumption.
  apply maximum_0_nonnegative. lra.
Qed.

End SyntheticSpectrum.

(** X26: in purely diffuse light the slope has no effect, and the two
    corrections give back the measured albedo.  For a spectrum of albedos
    in (0, 1] measured with a diffuse ratio of 1 at every wavelength,
    [albedo_correction_with_slope] returns the spectrum itself and its
    power [n = 3/7 (1 + 2 K cos sza)], whatever the sza, the slope factor
    [K] and the number of iterations; and so does
    [albedo_correction_with_slope2] when [n] is not zero (its power
    [1/n] undoing the power [n], with no rounding). *)
Theorem diffuse_light_needs_no_correction (A : Type) (X : nd A)
  (a : A -> R) (K sza : R) (niteration : nat) :
  let n := 3 / 7 * (1 + 2 * K * cos sza) in
  let albedo := Nd.map (fun x => Fin (a x)) X in
  let difftot := Nd.map (fun _ => Fin 1) X in
  Nd.all (fun x => 0 < a x <= 1) X ->
  albedo_correction_with_slope albedo difftot (Fin sza) (Fin K) niteration
  = (albedo, Nd.map (fun x => Fin (Rpower (a x) n)) X)
  /\ (n <> 0 ->
      albedo_correction_with_slope2 albedo difftot (Fin sza) (Fin K)
        niteration
      = (albedo, Nd.map (fun x => Fin (Rpower (a x) n)) X)).
Proof.
  intros n albedo difftot Ha.
  assert (Hn : (Fin 3 / Fin 7
                * (Fin 1 + Fin 2 * Fin K * Float.cos (Fin sza)))%fl
               = Fin n) by now fcalc.
  assert (Hok : Nd.all (fun x => 0 < a x /\ 1 + (1 - 1) * K <> 0) X).
  { revert Ha. apply NdFacts.all_impl. intros x Hx. split; lra. }
  assert (Halbedo :
            Nd.map (fun x => Fin ((1 - 1) * K * Rpower (a x) n + 1 * a x))
              X
            = albedo).
  { unfold albedo. apply NdFacts.map_ext. intros x. f_equal. ring. }
  assert (Hguess :
            Nd.map (fun v => FloatMore.minimum v (Fin 1)) albedo = albedo).
  { unfold albedo. rewrite NdFacts.map_map.
    apply (NdFacts.map_ext_all _ _ _ _ Ha).
    intros x Hx. apply minimum_1_below. lra. }
  assert (Hpow :
            Nd.map (fun v => Float.pow v (Fin n)) albedo
            = Nd.map (fun x => Fin (Rpower (a x) n)) X).
  { unfold albedo. rewrite NdFacts.map_map.
    apply (NdFacts.map_ext_all _ _ _ _ Ha).
    intros x Hx. apply pow_positive_base. lra. }
  split.
  - unfold albedo_correction_with_slope. rewrite Hn, Hguess.
    rewrite iterate_fixed; [ now rewrite Hpow | ].
    pose proof (correction_step_fixed A X a (fun _ => 1) K n Hok) as Hfix.
    cbv beta zeta in Hfix. now rewrite Halbedo in Hfix.
  - intros Hn0. unfold albedo_correction_with_slope2. rewrite Hn, Hguess.
    rewrite iterate_fixed; [ now rewrite Hpow | ].
    pose proof (correction_step2_fixed A X a (fun _ => 1) K n Hok Hn0)
      as Hfix.
    cbv beta zeta in Hfix. now rewrite Halbedo in Hfix.
Qed.

(** The theorem for two wavelengths, [K = 0.8] and a sun at 60 degrees. *)
Lemma diffuse_light_needs_no_correction_witness :
  albedo_correction_with_slope (Arr [Fin 0.9; Fin 0.6])
    (Arr [Fin 1; Fin 1]) (Fin (PI / 3)) (Fin 0.8) 5
  = (Arr [Fin 0.9; Fin 0.6],
     Arr [Fin (Rpower 0.9 (3 / 7 * (1 + 2 * 0.8 * cos (PI / 3))));
          Fin (Rpower 0.6 (3 / 7 * (1 + 2 * 0.8 * cos (PI / 3))))]).
Proof.
  apply (diffuse_light_needs_no_correction R (Arr [0.9; 0.6])
           (fun x => x) 0.8 (PI / 3) 5).
  cbn. repeat constructor; lra.
Defined.

Lemma maximum_0_not_below (x : fval) :
  (FloatMore.maximum x (Fin 0) <? Fin 0)%fl = false.
Proof.
  destruct x as [r | | | ]; unfold FloatMore.maximum, Float.ge;
    cbn [Float.le Float.lt]; try reflexivity; [ | now rtest ].
  destruct (Rle_dec 0 r); rtest; cbn [Float.lt]; now rtest.
Qed.

Lemma pow_not_below (x y : fval) :
  (x <? Fin 0)%fl = false -> (Float.pow x y <? Fin 0)%fl = false.
Proof.
  destruct x as [a | | | ]; cbn [Float.lt]; try discriminate.
  - intros Ha. apply Rltb_false in Ha.
    destruct y as [b | | | ]; unfold Float.pow.
    + destruct (Req_dec_T b 0); rtest; cbn [Float.lt]; [ now rtest | ].
      destruct (Rtotal_order a 0) as [H | [H | H]]; [ lra | | ]; rtest.
      * destruct (Rlt_dec 0 b); rtest; cbn [Float.lt]; now rtest.
      * cbn [Float.lt]. apply Rltb_false. left. apply exp_pos.
    + destruct (Reqb (Rabs a) 1); cbn [Float.lt]; [ now rtest | ].
      destruct (Bool.eqb _ _); cbn [Float.lt]; now rtest.
    + destruct (Reqb (Rabs a) 1); cbn [Float.lt]; [ now rtest | ].
      destruct (Bool.eqb _ _); cbn [Float.lt]; now rtest.
    + destruct (Reqb a 1); cbn [Float.lt]; now rtest.
  - intros _. destruct y as [b | | | ]; unfold Float.pow;
      try reflexivity; [ | cbn [Float.lt]; now rtest ].
    destruct (Reqb b 0); [ cbn [Float.lt]; now rtest | ].
    destruct (Rltb 0 b); cbn [Float.lt]; now rtest.
  - intros _. destruct y as [b | | | ]; unfold Float.pow;
      try reflexivity.
    destruct (Reqb b 0); [ cbn [Float.lt]; now rtest | reflexivity ].
Qed.

(** The loop bodies keep the shape of the spectrum. *)
Ltac shape_step :=
  first [ assumption
        | apply ShapeFacts.refl
        | apply ShapeFacts.map_r
        | apply ShapeFacts.scalar_l
        | apply ShapeFacts.scalar_r
        | apply ShapeFacts.map2 ].

Lemma correction_steps_shape (albedo difftot : nd fval) (K n : fval)
  (albedo_diff : nd fval) :
  same_shape albedo difftot \/ (exists d, difftot = Sc d) ->
  same_shape albedo albedo_diff ->
  same_shape albedo (correction_step albedo difftot K n albedo_diff)
  /\ same_shape albedo (correction_step2 albedo difftot K n albedo_diff).
Proof.
  intros [Hd | [d ->]] Ha;
    unfold correction_step, correction_step2, Nd.add, Nd.sub, Nd.mul,
      Nd.div;
    split; repeat shape_step.
Qed.

(** X27: the corrections of one spectrum never return a negative albedo.
    For a spectrum of albedos with a diffuse ratio of the same shape, or
    one diffuse ratio for all wavelengths, and as soon as one iteration is
    made, [albedo_correction_with_slope] and
    [albedo_correction_with_slope2] return one diffuse albedo and one
    modelled albedo [albedo_diff ** n] for each albedo of the spectrum,
    none of them below zero, whatever the values (negative or NaN albedos,
    any diffuse ratio, any [K] and sza). *)
Theorem corrected_albedo_not_negative (albedo difftot : nd fval)
  (sza K : fval) (k : nat) :
  same_shape albedo difftot \/ (exists d, difftot = Sc d) ->
  let not_below_zero :=
    Nd.all2 (fun _ x : fval => (x <? Fin 0)%fl = false) albedo in
  let c1 := albedo_correction_with_slope albedo difftot sza K (S k) in
  let c2 := albedo_correction_with_slope2 albedo difftot sza K (S k) in
  not_below_zero (fst c1) /\ not_below_zero (snd c1)
  /\ not_below_zero (fst c2) /\ not_below_zero (snd c2).
Proof.
  intros Hd not_below_zero c1 c2. subst not_below_zero c1 c2.
  unfold albedo_correction_with_slope, albedo_correction_with_slope2.
  cbn [fst snd]. rewrite !iterate_last.
  set (n := (Fin 3 / Fin 7 * (Fin 1 + Fin 2 * K * Float.cos sza))%fl).
  set (first := Nd.map (fun a => FloatMore.minimum a (Fin 1)) albedo).
  assert (Hfirst : same_shape albedo first)
    by apply ShapeFacts.map_r, ShapeFacts.refl.
  assert (Hmax : forall a : nd fval,
            Nd.all (fun x => (x <? Fin 0)%fl = false)
              (Nd.map (fun v => FloatMore.maximum v (Fin 0)) a)).
  { intros a. apply NdFacts.all_map. apply NdFacts.all_true.
    apply maximum_0_not_below. }
  assert (Hpow : forall (n : fval) (a : nd fval),
            Nd.all (fun x => (x <? Fin 0)%fl = false) a ->
            Nd.all (fun x => (x <? Fin 0)%fl = false)
              (Nd.map (fun v => Float.pow v n) a)).
  { intros m a Ha. apply NdFacts.all_map. revert Ha.
    apply NdFacts.all_impl. intros x. apply pow_not_below. }
  assert (H1 : same_shape albedo
                 (correction_step albedo difftot K n
                    (iterate k (correction_step albedo difftot K n)
                       first))).
  { apply correction_steps_shape; [ assumption | ].
    apply ShapeFacts.iterated; [ | assumption ].
    intros y Hy. now apply correction_steps_shape. }
  assert (H2 : same_shape albedo
                 (correction_step2 albedo difftot K n
                    (iterate k (correction_step2 albedo difftot K n)
                       first))).
  { apply correction_steps_shape; [ assumption | ].
    apply ShapeFacts.iterated; [ | assumption ].
    intros y Hy. now apply correction_steps_shape. }
  split; [ | split; [ | split ] ]; apply ShapeFacts.all_on_shape;
    try exact H1; try exact H2;
    try (apply ShapeFacts.map_r; assumption); try apply Hpow.
  1, 2: unfold correction_step at 1; apply Hmax.
  1, 2: unfold correction_step2 at 1; apply Hmax.
Qed.

(** The theorem on a spectrum with a negative and a NaN albedo, half of
    the light diffuse, after one iteration. *)
Lemma corrected_albedo_not_negative_witness :
  Nd.all2 (fun _ x : fval => (x <? Fin 0)%fl = false)
    (Arr [Fin (-0.2); NaN])
    (fst (albedo_correction_with_slope (Arr [Fin (-0.2); NaN])
            (Sc (Fin 0.5)) (Fin 0) (Fin 1) 1)).
Proof.
  apply (corrected_albedo_not_negative (Arr [Fin (-0.2); NaN])
           (Sc (Fin 0.5)) (Fin 0) (Fin 1) 0).
  right. now exists (Fin 0.5).
Defined.

(** ** A spectrum without the reference band *)









(** ** More on [albedo_P20_slope] *)




Lemma negative_to_nan_not_below (a : nd fval) :
  Nd.all (fun x => (x <? Fin 0)%fl = false) (negative_to_nan a).
Proof.
  rewrite negative_to_nan_map. apply NdFacts.all_map.
  apply NdFacts.all_true. intros x. unfold clip_negative.
  destruct x as [r | | | ]; cbn; try reflexivity.
  destruct (Rle_dec 0 r); rtest; cbn; [ now rtest | reflexivity ].
Qed.

(** X18: [albedo_P20_slope] never returns a negative albedo, except
    possibly through the top-of-hill coupling ("DM" or "SM" with
    [measured_difftot] false): for every other call, whatever the inputs,
    no returned value is below zero (a negative mix has become NaN). *)
Theorem albedo_P20_slope_not_negative (RI : refractive_index)
  (FP : double_arith) (wavelengths : nd R)
  (sza saa ssa r_difftot slope aspect : fval)
  (model : string) (measured_difftot : bool)
  (fixed_flat_albedo : option fval) (impurities : option impurities_dict)
  (ni : ni_arg) (B g : fval) (albedo : nd fval) :
  negb measured_difftot && in_strings model ["DM"; "SM"]%string = false ->
  albedo_P20_slope RI FP wavelengths sza saa ssa r_difftot slope aspect
    model measured_difftot fixed_flat_albedo impurities ni B g
  = Ret albedo ->
  Nd.all (fun x => (x <? Fin 0)%fl = false) albedo.
Proof.
  intros Hbranch. unfold albedo_P20_slope. cbn [albedo_P20_slope_rec].
  rewrite Hbranch.
  destruct ((local_sza FP sza saa slope aspect >=? Fin (PI / 2))%fl
            || (local_sza FP sza saa slope aspect <? Fin 0)%fl).
  - intros [= <-]. reflexivity.
  - destruct (flat_albedos RI wavelengths _ sza ssa fixed_flat_albedo
                impurities ni B g)
      as [[[alb_loc_dir alb_dir] alb_diff] | e]; cbn [bind];
      [ | discriminate ].
    unfold slope_model.
    match goal with
    | |- bind ?m _ = _ -> _ => destruct m as [[Adir Adiff] | e]
    end; cbn [bind]; [ | discriminate ].
    intros [= <-]. apply negative_to_nan_not_below.
Qed.

(** The theorem for the model "ST" on a slope of 30 degrees. *)
Lemma albedo_P20_slope_not_negative_witness :
  exists albedo,
    albedo_P20_slope RI_example exact_arith (Arr [500e-9]) (Fin (PI / 3))
      (Fin 0) (Fin 20) (Fin 0.25) (Fin (PI / 6)) (Fin 0) "ST" false
      (Some (Fin 0.9)) None (NiName "p2016") (Fin 1.6) (Fin 0.845)
    = Ret albedo
    /\ Nd.all (fun x => (x <? Fin 0)%fl = false) albedo.
Proof.
  assert (Hmu : 0 < cos_sum exact_arith (PI / 3) 0 (PI / 6) 0 <= 1).
  { rewrite cos_sum_exact. split; [ | apply mu_local_bounds ].
    unfold mu_local. rewrite cos_PI3, sin_PI3, cos_PI6, sin_PI6.
    replace (0 - 0) with 0 by ring. rewrite cos_0.
    pose proof (sqrt_lt_R0 3). nra. }
  assert (Hret : exists albedo,
             albedo_P20_slope RI_example exact_arith (Arr [500e-9])
               (Fin (PI / 3)) (Fin 0) (Fin 20) (Fin 0.25) (Fin (PI / 6))
               (Fin 0) "ST" false (Some (Fin 0.9)) None (NiName "p2016")
               (Fin 1.6) (Fin 0.845)
             = Ret albedo).
  { unfold albedo_P20_slope. cbn [albedo_P20_slope_rec].
    rewrite lsza_guard by lra. rtest. cbn [negb].
    change (in_strings "ST" ["DM"; "SM"]%string) with false.
    cbn [andb]. unfold flat_albedos. fcalc. cbn [bind].
    eexists. reflexivity. }
  destruct Hret as [albedo Hret]. exists albedo.
  split; [ exact Hret | ].
  eapply albedo_P20_slope_not_negative; [ | exact Hret ].
  reflexivity.
Defined.

Lemma flat_albedos_zero (RI : refractive_index) (wavelengths : nd R)
  (lsza sza ssa : fval) (impurities : option impurities_dict)
  (ni : ni_arg) (B g : fval) :
  flat_albedos RI wavelengths lsza sza ssa (Some (Fin 0)) impurities ni B g
  = flat_albedos RI wavelengths lsza sza ssa None impurities ni B g.
Proof. unfold flat_albedos. now fcalc. Qed.

Lemma albedo_P20_slope_rec_zero_fixed (RI : refractive_index)
  (FP : double_arith) (d : nat) (wavelengths : nd R)
  (sza saa ssa r_difftot slope aspect : fval)
  (model : string) (measured_difftot : bool)
  (impurities : option impurities_dict) (ni : ni_arg) (B g : fval) :
  albedo_P20_slope_rec RI FP d wavelengths sza saa ssa r_difftot slope
    aspect model measured_difftot (Some (Fin 0)) impurities ni B g
  = albedo_P20_slope_rec RI FP d wavelengths sza saa ssa r_difftot slope
      aspect model measured_difftot None impurities ni B g.
Proof.
  revert model measured_difftot.
  induction d as [ | d IH]; intros model measured_difftot;
    cbn [albedo_P20_slope_rec]; rewrite flat_albedos_zero;
    [ reflexivity | ].
  destruct ((local_sza FP sza saa slope aspect >=? Fin (PI / 2))%fl
            || (local_sza FP sza saa slope aspect <? Fin 0)%fl);
    [ reflexivity | ].
  destruct (flat_albedos RI wavelengths _ sza ssa None impurities ni B g)
    as [[[alb_loc_dir alb_dir] alb_diff] | e]; cbn [bind];
    [ | reflexivity ].
  now rewrite IH.
Qed.

(** X19: a fixed flat albedo of 0.0 is not used: [fixed_flat_albedo] is
    tested for truth, so [albedo_P20_slope] with [fixed_flat_albedo=0.0]
    computes the flat albedos from the optical inputs, as if none was
    given, for every model and every input. *)
Theorem albedo_P20_slope_zero_fixed_albedo (RI : refractive_index)
  (FP : double_arith)
  (wavelengths : nd R) (sza saa ssa r_difftot slope aspect : fval)
  (model : string) (measured_difftot : bool)
  (impurities : option impurities_dict) (ni : ni_arg) (B g : fval) :
  albedo_P20_slope RI FP wavelengths sza saa ssa r_difftot slope aspect
    model measured_difftot (Some (Fin 0)) impurities ni B g
  = albedo_P20_slope RI FP wavelengths sza saa ssa r_difftot slope aspect
      model measured_difftot None impurities ni B g.
Proof. apply albedo_P20_slope_rec_zero_fixed. Qed.

(** ** Shape factors and extinction *)

Lemma compute_b_real (B g : R) :
  0 < B -> g < 1 ->
  compute_b (Fin B) (Fin g) = Ret (Fin (4 / 3 * sqrt (B / (1 - g)))).
Proof.
  intros HB Hg. unfold compute_b. fsimpl.
  rewrite py_div_Fin by lra. cbn [bind].
  assert (0 <= B / (1 + - g)).
  { apply Rmult_le_pos; [ lra | ]. left. apply Rinv_0_lt_compat. lra. }
  now fcalc.
Qed.

Lemma same_b_same_ratio (B1 g1 B2 g2 : R) :
  0 < B1 -> g1 < 1 -> 0 < B2 -> g2 < 1 ->
  compute_b (Fin B1) (Fin g1) = compute_b (Fin B2) (Fin g2) ->
  B1 / (1 - g1) = B2 / (1 - g2).
Proof.
  intros HB1 Hg1 HB2 Hg2. rewrite !compute_b_real by assumption.
  intros [= H].
  assert (0 <= B1 / (1 - g1)).
  { apply Rmult_le_pos; [ lra | ]. left. apply Rinv_0_lt_compat. lra. }
  assert (0 <= B2 / (1 - g2)).
  { apply Rmult_le_pos; [ lra | ]. left. apply Rinv_0_lt_compat. lra. }
  apply sqrt_inj; try assumption. lra.
Qed.

(** [alpha] of pure snow at one wavelength, from the ice absorption. *)
Lemma pure_snow_alpha_same_b (ssa B1 g1 B2 g2 : R) (gamma : fval) :
  0 < ssa -> 0 < B1 -> g1 < 1 -> 0 < B2 -> g2 < 1 ->
  B1 / (1 - g1) = B2 / (1 - g2) ->
  alpha_at (Fin g1) (Fin 2 / (Fin ssa * rho_ice) * Fin B1 * gamma)%fl
  = alpha_at (Fin g2) (Fin 2 / (Fin ssa * rho_ice) * Fin B2 * gamma)%fl.
Proof.
  intros Hssa HB1 Hg1 HB2 Hg2 Hratio. unfold alpha_at, rho_ice.
  assert (H917 : ssa * 917 <> 0) by nra.
  assert (Hk : 0 < 2 / (ssa * 917)) by (apply Rdiv_lt_0_compat; nra).
  assert (Hk1 : 0 < 2 / (ssa * 917) * B1) by now apply Rmult_lt_0_compat.
  assert (Hk2 : 0 < 2 / (ssa * 917) * B2) by now apply Rmult_lt_0_compat.
  destruct gamma as [x | | | ]; fcalc; try reflexivity.
  f_equal.
  replace (16 / 3 * (2 / (ssa * 917) * B1 * x) / (1 + - g1))
    with (16 / 3 * (2 / (ssa * 917)) * x * (B1 / (1 - g1)))
    by (unfold Rminus; field; lra).
  rewrite Hratio. unfold Rminus. field. lra.
Qed.

(** X20: [compute_b] is the one number through which the shape factors
    act on pure snow: two pairs (B, g) with the same [compute_b] give the
    same [compute_alpha], hence the same KZ04 albedo, for any wavelengths,
    index of ice, positive SSA, sza and diffuse ratio. *)
Theorem same_compute_b_same_albedo (RI : refractive_index)
  (wavelengths : nd R) (ssa B1 g1 B2 g2 : R) (sza r_difftot : fval)
  (ni : ni_arg) :
  0 < ssa -> 0 < B1 -> g1 < 1 -> 0 < B2 -> g2 < 1 ->
  compute_b (Fin B1) (Fin g1) = compute_b (Fin B2) (Fin g2) ->
  compute_alpha RI wavelengths (Fin ssa) None ni (Fin B1) (Fin g1)
  = compute_alpha RI wavelengths (Fin ssa) None ni (Fin B2) (Fin g2)
  /\ albedo_KZ04 RI wavelengths sza (Fin ssa) r_difftot None ni (Fin B1)
       (Fin g1)
     = albedo_KZ04 RI wavelengths sza (Fin ssa) r_difftot None ni (Fin B2)
         (Fin g2).
Proof.
  intros Hssa HB1 Hg1 HB2 Hg2 Hb.
  pose proof (same_b_same_ratio B1 g1 B2 g2 HB1 Hg1 HB2 Hg2 Hb) as Hratio.
  assert (Halpha :
            compute_alpha RI wavelengths (Fin ssa) None ni (Fin B1)
              (Fin g1)
            = compute_alpha RI wavelengths (Fin ssa) None ni (Fin B2)
                (Fin g2)).
  { unfold compute_alpha.
    rewrite !compute_co_single_scattering_albedo_nonzero by lra.
    destruct (resolve_ni RI wavelengths ni) as [niv | e]; cbn [bind];
      [ | reflexivity ].
    f_equal.
    set (gamma := (Sc (Fin 4 * Fin PI)%fl * niv / lift wavelengths)%nd).
    unfold Nd.mul, Nd.div.
    rewrite !NdFacts.map2_Sc_l, !NdFacts.map2_Sc_r, !NdFacts.map_map.
    apply NdFacts.map_ext. intros x.
    now apply (pure_snow_alpha_same_b ssa B1 g1 B2 g2 x). }
  split; [ exact Halpha | ].
  unfold albedo_KZ04, albedo_direct_KZ04, albedo_diffuse_KZ04.
  now rewrite Halpha.
Qed.

(** The theorem for (B, g) = (1.6, 0.845) and (3.2, 0.69). *)
Lemma same_compute_b_same_albedo_witness :
  compute_alpha RI_example (Arr [500e-9]) (Fin 20) None (NiName "p2016")
    (Fin 1.6) (Fin 0.845)
  = compute_alpha RI_example (Arr [500e-9]) (Fin 20) None (NiName "p2016")
      (Fin 3.2) (Fin 0.69).
Proof.
  apply (same_compute_b_same_albedo RI_example (Arr [500e-9]) 20 1.6 0.845
           3.2 0.69 (Fin 0) (Fin 0) (NiName "p2016")); try lra.
  rewrite !compute_b_real by lra.
  replace (3.2 / (1 - 0.69)) with (1.6 / (1 - 0.845)) by lra.
  reflexivity.
Defined.



(** ** Comparing flat albedos *)

Lemma exp_monotone (x y : R) : x <= y -> exp x <= exp y.
Proof.
  intros [H | ->]; [ | lra ]. left. now apply exp_increasing.
Qed.

Lemma y_M16_at_value (g c : R) :
  0 <= g < 1 -> 0 <= c ->
  y_M16_at (Fin g) (Fin c) = Fin (4 * sqrt (c / (3 * (1 - g + c * g)))).
Proof.
  intros Hg Hc. unfold y_M16_at. fsimpl.
  assert (Hden : 0 < 3 * (1 + - ((1 + - c) * g))) by nra.
  assert (Hnum : 0 <= 1 + - (1 + - c)) by lra.
  set (den := 3 * (1 + - ((1 + - c) * g))) in *.
  set (num := 1 + - (1 + - c)) in *.
  assert (Hq : 0 <= num / den).
  { apply Rmult_le_pos; [ assumption | ]. left.
    now apply Rinv_0_lt_compat. }
  fcalc. do 3 f_equal.
  subst num den. unfold Rdiv. f_equal; [ ring | f_equal; ring ].
Qed.

Lemma four_sqrt (q : R) : 0 <= q -> 4 * sqrt q = sqrt (16 * q).
Proof.
  intros Hq. rewrite sqrt_mult by lra.
  replace 16 with (4 * 4) by lra. rewrite sqrt_square by lra. reflexivity.
Qed.

Lemma mix_not_increased (r a1 b1 a2 b2 : R) :
  0 <= r <= 1 -> a2 <= a1 -> b2 <= b1 ->
  not_increased (mix (Fin r) (Fin a1) (Fin b1))
    (mix (Fin r) (Fin a2) (Fin b2)).
Proof.
  intros Hr Ha Hb. unfold mix. fcalc.
  eexists _, _. split; [ reflexivity | ]. split; [ reflexivity | ]. nra.
Qed.

Lemma KZ04_root_monotone (g c1 c2 : R) :
  g < 1 -> 0 <= c1 <= c2 ->
  sqrt (16 / 3 * c1 / (1 - g)) <= sqrt (16 / 3 * c2 / (1 - g)).
Proof.
  intros Hg Hc. apply sqrt_le_1_alt.
  assert (0 < / (1 - g)) by (apply Rinv_0_lt_compat; lra).
  unfold Rdiv. apply Rmult_le_compat_r; lra.
Qed.

Lemma M16_ratio_monotone (g c1 c2 : R) :
  0 <= g < 1 -> 0 <= c1 <= c2 ->
  c1 / (3 * (1 - g + c1 * g)) <= c2 / (3 * (1 - g + c2 * g)).
Proof.
  intros Hg Hc.
  assert (H1 : 0 < 3 * (1 - g + c1 * g)) by nra.
  assert (H2 : 0 < 3 * (1 - g + c2 * g)) by nra.
  apply (Rmult_le_reg_r (3 * (1 - g + c1 * g) * (3 * (1 - g + c2 * g)))).
  - now apply Rmult_lt_0_compat.
  - replace (c1 / (3 * (1 - g + c1 * g))
             * (3 * (1 - g + c1 * g) * (3 * (1 - g + c2 * g))))
      with (c1 * (3 * (1 - g + c2 * g))) by (field; lra).
    replace (c2 / (3 * (1 - g + c2 * g))
             * (3 * (1 - g + c1 * g) * (3 * (1 - g + c2 * g))))
      with (c2 * (3 * (1 - g + c1 * g))) by (field; lra).
    nra.
Qed.

Lemma M16_root_below_KZ04_root (g c : R) :
  0 <= g < 1 -> 0 <= c ->
  4 * sqrt (c / (3 * (1 - g + c * g))) <= sqrt (16 / 3 * c / (1 - g)).
Proof.
  intros Hg Hc.
  assert (H1 : 0 < 3 * (1 - g + c * g)) by nra.
  assert (Hq : 0 <= c / (3 * (1 - g + c * g))).
  { apply Rmult_le_pos; [ lra | ]. left. now apply Rinv_0_lt_compat. }
  rewrite four_sqrt by assumption. apply sqrt_le_1_alt.
  apply (Rmult_le_reg_r (3 * (1 - g + c * g) * (1 - g))).
  - apply Rmult_lt_0_compat; lra.
  - replace (16 * (c / (3 * (1 - g + c * g)))
             * (3 * (1 - g + c * g) * (1 - g)))
      with (16 * c * (1 - g)) by (field; lra).
    replace (16 / 3 * c / (1 - g) * (3 * (1 - g + c * g) * (1 - g)))
      with (16 * c * (1 - g + c * g)) by (field; lra).
    nra.
Qed.

Lemma exp_scaled_antitone (s1 s2 k : R) :
  0 <= k -> s1 <= s2 -> exp (- s2 * k) <= exp (- s1 * k).
Proof. intros Hk Hs. apply exp_monotone. nra. Qed.

Lemma KZ04_at_value (z g c r : R) :
  g < 1 -> 0 <= c ->
  mix (Fin r) (direct_KZ04_at (Fin (cos z)) (alpha_at (Fin g) (Fin c)))
    (diffuse_KZ04_at (alpha_at (Fin g) (Fin c)))
  = mix (Fin r)
      (Fin (exp (- sqrt (16 / 3 * c / (1 - g))
                 * (3 / 7 * (1 + 2 * cos z)))))
      (Fin (exp (- sqrt (16 / 3 * c / (1 - g)) * 1))).
Proof.
  intros Hg Hc.
  rewrite direct_KZ04_at_real, diffuse_KZ04_at_real by assumption.
  f_equal; do 2 f_equal; field.
Qed.

Lemma M16_at_value (z g c r : R) :
  0 <= g < 1 -> 0 <= c ->
  mix (Fin r) (direct_M16_at (Fin z) (y_M16_at (Fin g) (Fin c)))
    (diffuse_M16_at (y_M16_at (Fin g) (Fin c)))
  = mix (Fin r)
      (Fin (exp (- (4 * sqrt (c / (3 * (1 - g + c * g))))
                 * (3 / 7 * (1 + 2 * cos z)))))
      (Fin (exp (- (4 * sqrt (c / (3 * (1 - g + c * g)))) * 1))).
Proof.
  intros Hg Hc. rewrite y_M16_at_value by assumption.
  unfold direct_M16_at, diffuse_M16_at. rewrite G_value.
  cbn [Float.neg Float.mul Float.exp].
  f_equal; do 2 f_equal; ring.
Qed.

Lemma M16_above_KZ04_at (z g c r : R) :
  0 <= cos z -> 0 <= g < 1 -> 0 <= c -> 0 <= r <= 1 ->
  not_increased
    (mix (Fin r) (direct_M16_at (Fin z) (y_M16_at (Fin g) (Fin c)))
       (diffuse_M16_at (y_M16_at (Fin g) (Fin c))))
    (mix (Fin r) (direct_KZ04_at (Fin (cos z)) (alpha_at (Fin g) (Fin c)))
       (diffuse_KZ04_at (alpha_at (Fin g) (Fin c)))).
Proof.
  intros Hz Hg Hc Hr.
  rewrite M16_at_value, KZ04_at_value by (assumption || lra).
  pose proof (M16_root_below_KZ04_root g c Hg Hc).
  apply mix_not_increased; [ assumption | | ];
    apply exp_scaled_antitone; (assumption || lra).
Qed.

Lemma KZ04_at_antitone (z g c1 c2 r : R) :
  0 <= cos z -> g < 1 -> 0 <= c1 <= c2 -> 0 <= r <= 1 ->
  not_increased
    (mix (Fin r) (direct_KZ04_at (Fin (cos z)) (alpha_at (Fin g) (Fin c1)))
       (diffuse_KZ04_at (alpha_at (Fin g) (Fin c1))))
    (mix (Fin r) (direct_KZ04_at (Fin (cos z)) (alpha_at (Fin g) (Fin c2)))
       (diffuse_KZ04_at (alpha_at (Fin g) (Fin c2)))).
Proof.
  intros Hz Hg Hc Hr.
  rewrite !KZ04_at_value by (assumption || lra).
  pose proof (KZ04_root_monotone g c1 c2 Hg Hc).
  apply mix_not_increased; [ assumption | | ];
    apply exp_scaled_antitone; (assumption || lra).
Qed.

Lemma M16_at_antitone (z g c1 c2 r : R) :
  0 <= cos z -> 0 <= g < 1 -> 0 <= c1 <= c2 -> 0 <= r <= 1 ->
  not_increased
    (mix (Fin r) (direct_M16_at (Fin z) (y_M16_at (Fin g) (Fin c1)))
       (diffuse_M16_at (y_M16_at (Fin g) (Fin c1))))
    (mix (Fin r) (direct_M16_at (Fin z) (y_M16_at (Fin g) (Fin c2)))
       (diffuse_M16_at (y_M16_at (Fin g) (Fin c2)))).
Proof.
  intros Hz Hg Hc Hr.
  rewrite !M16_at_value by (assumption || lra).
  pose proof (M16_ratio_monotone g c1 c2 Hg Hc) as Hq.
  apply sqrt_le_1_alt in Hq.
  apply mix_not_increased; [ assumption | | ];
    apply exp_scaled_antitone; (assumption || lra).
Qed.

Lemma all2_with_all {A B} (P : A -> Prop) (R : A -> B -> Prop)
  (a : nd A) (b : nd B) :
  Nd.all P a -> Nd.all2 R a b ->
  Nd.all2 (fun x y => P x /\ R x y) a b.
Proof.
  destruct a as [x | xs], b as [y | ys]; cbn; try tauto.
  intros Ha Hab. induction Hab as [ | x y xs ys Hxy Hrest IH];
    constructor.
  - split; [ now inversion Ha | assumption ].
  - apply IH. now inversion Ha.
Qed.

Lemma all2_map {A B C D} (R : A -> B -> Prop) (R' : C -> D -> Prop)
  (f : A -> C) (g : B -> D) (a : nd A) (b : nd B) :
  (forall x y, R x y -> R' (f x) (g y)) ->
  Nd.all2 R a b -> Nd.all2 R' (Nd.map f a) (Nd.map g b).
Proof.
  intros H. destruct a as [x | xs], b as [y | ys]; cbn; auto.
  intros Hab. induction Hab; cbn; constructor; auto.
Qed.

Lemma nonnegative_not_decreased (x y : fval) :
  nonnegative x /\ not_decreased x y ->
  exists p q : R, x = Fin p /\ y = Fin q /\ 0 <= p <= q.
Proof.
  destruct x as [p | | | ]; cbn [nonnegative]; intros [Hp Hxy];
    try contradiction.
  destruct y as [q | | | ]; cbn in Hxy; try discriminate.
  exists p, q. repeat split; (reflexivity || assumption).
Qed.

(** X22: for valid inputs (positive wavelengths, SSA and B,
    [0 <= g < 1], a valid ice index and valid impurities, [r_difftot] in
    [0, 1] and [cos sza >= 0]), [albedo_KZ04] and [albedo_M16] both
    return, with the same shape, and at every wavelength the M16 albedo is
    not below the KZ04 albedo: [4 sqrt(c / (3 (1 - w0 g)))] is at most
    [sqrt(16/3 c / (1 - g))] because [w0 <= 1] and [g >= 0]. *)
Theorem albedo_M16_not_below_KZ04 (RI : refractive_index)
  (wavelengths : nd R) (sza ssa r_difftot B g : R)
  (impurities : option impurities_dict) (ni : ni_arg) :
  Nd.all (fun w => 0 < w) wavelengths ->
  0 < ssa -> 0 < B -> 0 <= g < 1 -> 0 <= r_difftot <= 1 ->
  0 <= cos sza ->
  valid_ni RI wavelengths ni ->
  match impurities with
  | None => True
  | Some l => valid_impurities RI wavelengths l
  end ->
  exists kz04 m16 : nd fval,
    albedo_KZ04 RI wavelengths (Fin sza) (Fin ssa) (Fin r_difftot)
      impurities ni (Fin B) (Fin g) = Ret kz04
    /\ albedo_M16 RI wavelengths (Fin sza) (Fin ssa) (Fin r_difftot)
         impurities ni (Fin B) (Fin g) = Ret m16
    /\ Nd.all2 not_increased m16 kz04.
Proof.
  intros Hw Hssa HB Hg Hr Hz Hni Himp.
  destruct (cossalb_valid RI wavelengths ssa B (Fin g) impurities ni
              Hssa HB Hw Hni Himp) as (c & Hc & Hnn).
  rewrite (albedo_KZ04_eq _ _ _ _ _ _ _ _ _ _ Hc).
  rewrite (albedo_M16_eq _ _ _ _ _ _ _ _ _ _ Hc).
  cbn [Float.cos Float.ge Float.le].
  rewrite (proj2 (Rleb_true 0 (cos sza)) Hz).
  eexists _, _. split; [ reflexivity | ]. split; [ reflexivity | ].
  apply (Nd2Facts.all2_map_same nonnegative); [ assumption | ].
  intros [x | | | ]; cbn [nonnegative]; try contradiction. intros Hx.
  now apply M16_above_KZ04_at.
Qed.

(** The theorem for snow with black carbon under a sun at 60 degrees. *)
Lemma albedo_M16_not_below_KZ04_witness :
  exists kz04 m16 : nd fval,
    albedo_KZ04 RI_example (Arr [500e-9; 900e-9]) (Fin (PI / 3)) (Fin 20)
      (Fin 0.25) (Some [("BC"%string, Content (Fin 10e-9))])
      (NiName "p2016") (Fin 1.6) (Fin 0.845) = Ret kz04
    /\ albedo_M16 RI_example (Arr [500e-9; 900e-9]) (Fin (PI / 3)) (Fin 20)
         (Fin 0.25) (Some [("BC"%string, Content (Fin 10e-9))])
         (NiName "p2016") (Fin 1.6) (Fin 0.845) = Ret m16
    /\ Nd.all2 not_increased m16 kz04.
Proof.
  apply (albedo_M16_not_below_KZ04 RI_example (Arr [500e-9; 900e-9])
           (PI / 3) 20 0.25 1.6 0.845
           (Some [("BC"%string, Content (Fin 10e-9))]) (NiName "p2016")).
  - cbn. repeat constructor; lra.
  - lra.
  - lra.
  - lra.
  - lra.
  - rewrite cos_PI3. lra.
  - cbn. eexists. split; [ reflexivity | ].
    cbn. repeat constructor; lra.
  - repeat constructor; cbn; try lra; left; split; reflexivity.
Defined.

(** X23: impurities darken snow. For valid inputs, raising the
    concentration of one species of the mapping from [c1] to [c2], all
    else the same, never raises the albedo: [albedo_KZ04] and
    [albedo_M16] return for both concentrations, with the same shape, and
    at every wavelength the albedo with [c2] is not above the one with
    [c1]. *)
Theorem impurities_darken_snow (RI : refractive_index)
  (wavelengths : nd R) (sza ssa r_difftot B g c1 c2 : R)
  (species : string) (density : option fval)
  (before after : impurities_dict) (ni : ni_arg) :
  Nd.all (fun w => 0 < w) wavelengths ->
  0 < ssa -> 0 < B -> 0 <= g < 1 -> 0 <= r_difftot <= 1 ->
  0 <= cos sza ->
  valid_ni RI wavelengths ni ->
  valid_impurities RI wavelengths
    (before ++ (species, impurity_of (Fin c1) density) :: after) ->
  c1 <= c2 ->
  (exists k1 k2 : nd fval,
      albedo_KZ04 RI wavelengths (Fin sza) (Fin ssa) (Fin r_difftot)
        (Some (before ++ (species, impurity_of (Fin c1) density) :: after))
        ni (Fin B) (Fin g) = Ret k1
      /\ albedo_KZ04 RI wavelengths (Fin sza) (Fin ssa) (Fin r_difftot)
           (Some (before ++ (species, impurity_of (Fin c2) density)
                    :: after))
           ni (Fin B) (Fin g) = Ret k2
      /\ Nd.all2 not_increased k1 k2)
  /\ (exists m1 m2 : nd fval,
         albedo_M16 RI wavelengths (Fin sza) (Fin ssa) (Fin r_difftot)
           (Some (before ++ (species, impurity_of (Fin c1) density)
                    :: after))
           ni (Fin B) (Fin g) = Ret m1
         /\ albedo_M16 RI wavelengths (Fin sza) (Fin ssa) (Fin r_difftot)
              (Some (before ++ (species, impurity_of (Fin c2) density)
                       :: after))
              ni (Fin B) (Fin g) = Ret m2
         /\ Nd.all2 not_increased m1 m2).
Proof.
  intros Hw Hssa HB Hg Hr Hz Hni Himp Hc.
  destruct (cossalb_valid RI wavelengths ssa B (Fin g) (Some _) ni
              Hssa HB Hw Hni Himp) as (old & Hold & Hnn).
  assert (Hv : valid_species RI wavelengths species density).
  { unfold valid_impurities in Himp. rewrite Forall_app in Himp.
    destruct Himp as [_ Himp]. inversion Himp as [ | ? ? [_ Hs] _ ].
    cbn [fst snd] in Hs. now rewrite unpack_impurity_of in Hs. }
  destruct (cossalb_not_decreased RI wavelengths ssa c1 c2 species density
              before after ni (Fin B) (Fin g) old Hssa Hw Hv Hc Hold)
    as (new & Hnew & Hmono).
  pose proof (all2_with_all nonnegative not_decreased old new Hnn Hmono)
    as Hboth.
  rewrite (albedo_KZ04_eq _ _ _ _ _ _ _ _ _ _ Hold).
  rewrite (albedo_KZ04_eq _ _ _ _ _ _ _ _ _ _ Hnew).
  rewrite (albedo_M16_eq _ _ _ _ _ _ _ _ _ _ Hold).
  rewrite (albedo_M16_eq _ _ _ _ _ _ _ _ _ _ Hnew).
  cbn [Float.cos Float.ge Float.le].
  rewrite (proj2 (Rleb_true 0 (cos sza)) Hz).
  split; eexists _, _; (split; [ reflexivity | ]);
    (split; [ reflexivity | ]); revert Hboth; apply all2_map;
    intros x y Hxy;
    destruct (nonnegative_not_decreased x y Hxy)
      as (p & q & -> & -> & Hpq).
  - apply KZ04_at_antitone; (assumption || lra).
  - apply M16_at_antitone; (assumption || lra).
Qed.

(** The theorem for black carbon going from 10 to 20 ng/g. *)
Lemma impurities_darken_snow_witness :
  exists k1 k2 : nd fval,
    albedo_KZ04 RI_example (Arr [500e-9; 900e-9]) (Fin (PI / 3)) (Fin 20)
      (Fin 0.25) (Some [("BC"%string, Content (Fin 10e-9))])
      (NiName "p2016") (Fin 1.6) (Fin 0.845) = Ret k1
    /\ albedo_KZ04 RI_example (Arr [500e-9; 900e-9]) (Fin (PI / 3))
         (Fin 20) (Fin 0.25) (Some [("BC"%string, Content (Fin 20e-9))])
         (NiName "p2016") (Fin 1.6) (Fin 0.845) = Ret k2
    /\ Nd.all2 not_increased k1 k2.
Proof.
  apply (impurities_darken_snow RI_example (Arr [500e-9; 900e-9])
           (PI / 3) 20 0.25 1.6 0.845 10e-9 20e-9 "BC" None [] []
           (NiName "p2016")).
  - cbn. repeat constructor; lra.
  - lra.
  - lra.
  - lra.
  - lra.
  - rewrite cos_PI3. lra.
  - cbn. eexists. split; [ reflexivity | ].
    cbn. repeat constructor; lra.
  - repeat constructor; cbn; try lra; left; split; reflexivity.
  - lra.
Defined.

(** ** Monotonicity in the specific surface area *)

Lemma not_decreased_trans (x y z : fval) :
  not_decreased x y -> not_decreased y z -> not_decreased x z.
Proof.
  destruct x as [a | | | ], y as [b | | | ], z as [c | | | ]; cbn;
    intros H1 H2; try discriminate; try reflexivity; lra.
Qed.

Lemma all2_trans {A} (R : A -> A -> Prop) (a b c : nd A) :
  (forall x y z, R x y -> R y z -> R x z) ->
  Nd.all2 R a b -> Nd.all2 R b c -> Nd.all2 R a c.
Proof.
  intros HR.
  destruct a as [x | xs], b as [y | ys], c as [z | zs]; cbn;
    try contradiction; eauto.
  intros Hab. revert zs. induction Hab as [ | x y xs ys Hxy Hrest IH];
    intros zs Hbc; inversion Hbc; subst; constructor; eauto.
Qed.

Lemma scaled_by_ssa_not_decreased (ssa1 ssa2 c : R) (m : fval) :
  0 < ssa1 <= ssa2 -> 0 <= c -> nonnegative m ->
  not_decreased (Fin 2 / Fin ssa2 * Fin c * m)%fl
    (Fin 2 / Fin ssa1 * Fin c * m)%fl.
Proof.
  intros Hs Hc Hm. destruct m as [a | | | ]; cbn in Hm; try contradiction.
  fcalc. cbn.
  assert (H12 : / ssa2 <= / ssa1) by (apply Rinv_le_contravar; lra).
  assert (0 < / ssa2) by (apply Rinv_0_lt_compat; lra).
  apply Rmult_le_compat_r; [ assumption | ].
  apply Rmult_le_compat_r; [ assumption | ].
  unfold Rdiv. nra.
Qed.

(** With a larger SSA every species adds less. *)
Lemma add_impurities_ssa (RI : refractive_index) (wavelengths : nd R)
  (ssa1 ssa2 : R) (impurities : impurities_dict) (fine coarse : nd fval)
  (coarse' : nd fval) :
  0 < ssa1 <= ssa2 ->
  Nd.all (fun w => 0 < w) wavelengths ->
  valid_impurities RI wavelengths impurities ->
  Nd.all2 not_decreased fine coarse ->
  add_impurities RI wavelengths (Fin ssa1) impurities coarse = Ret coarse' ->
  exists fine',
    add_impurities RI wavelengths (Fin ssa2) impurities fine = Ret fine'
    /\ Nd.all2 not_decreased fine' coarse'.
Proof.
  intros Hs Hw Hv. revert fine coarse.
  induction Hv as [ | [species v] rest [Hc Hsp] Hrest IH];
    intros fine coarse Hfc Hcoarse.
  - cbn in *. injection Hcoarse as <-. eauto.
  - rewrite add_impurities_cons in * by lra. cbn [fst snd] in *.
    destruct (unpack_impurity v) as [content density]. cbn [fst snd] in *.
    destruct (species_MAC_valid RI wavelengths species density Hw Hsp)
      as (MAC & HMAC & Hnn).
    rewrite HMAC in *. cbn [bind] in *.
    eapply IH; [ | exact Hcoarse ].
    destruct content as [c | | | ]; cbn in Hc; try contradiction.
    apply (all2_trans not_decreased _
             (coarse + Sc (Fin 2 / Fin ssa2 * Fin c)%fl * MAC)%nd);
      [ exact not_decreased_trans | | ].
    + unfold Nd.add.
      apply (Nd2Facts.all2_map2_l not_decreased); auto.
      intros x1 x2 y. apply not_decreased_add_r.
    + unfold Nd.add. apply (Nd2Facts.all2_map2_r not_decreased);
        [ intros x y1 y2; apply not_decreased_add_l | ].
      unfold Nd.mul. rewrite !NdFacts.map2_Sc_l.
      apply (Nd2Facts.all2_map_same nonnegative); [ assumption | ].
      intros m Hm. now apply scaled_by_ssa_not_decreased.
Qed.

Lemma pure_snow_ssa_not_decreased (ssa1 ssa2 B : R) (gamma : fval) :
  0 < ssa1 <= ssa2 -> 0 < B -> nonnegative gamma ->
  not_decreased (Fin 2 / (Fin ssa2 * rho_ice) * Fin B * gamma)%fl
    (Fin 2 / (Fin ssa1 * rho_ice) * Fin B * gamma)%fl.
Proof.
  intros Hs HB Hg. destruct gamma as [x | | | ]; cbn in Hg;
    try contradiction.
  unfold rho_ice.
  assert (ssa1 * 917 <> 0) by nra. assert (ssa2 * 917 <> 0) by nra.
  fcalc. cbn.
  assert (H12 : / (ssa2 * 917) <= / (ssa1 * 917))
    by (apply Rinv_le_contravar; nra).
  assert (0 < / (ssa2 * 917)) by (apply Rinv_0_lt_compat; nra).
  apply Rmult_le_compat_r; [ assumption | ].
  apply Rmult_le_compat_r; [ lra | ].
  unfold Rdiv. nra.
Qed.

Lemma gamma_valid (RI : refractive_index) (wavelengths : nd R)
  (ni : ni_arg) :
  Nd.all (fun w => 0 < w) wavelengths ->
  valid_ni RI wavelengths ni ->
  exists niv,
    resolve_ni RI wavelengths ni = Ret niv
    /\ Nd.all nonnegative
         (Sc (Fin 4 * Fin PI)%fl * niv / lift wavelengths)%nd.
Proof.
  intros Hw Hni. pose proof PI_RGT_0 as Hpi.
  destruct (resolve_ni_valid RI wavelengths ni Hni) as (niv & Hr & Hniv).
  exists niv. split; [ assumption | ].
  unfold Nd.div.
  apply (all_map2 nonnegative positive);
    [ | | now apply all_lift_positive ].
  - intros [x | | | ] [y | | | ]; cbn [nonnegative positive];
      try contradiction.
    intros Hx Hy. fcalc. cbn. apply Rmult_le_pos; [ assumption | ].
    left. now apply Rinv_0_lt_compat.
  - unfold Nd.mul. rewrite NdFacts.map2_Sc_l. apply NdFacts.all_map.
    revert Hniv. apply NdFacts.all_impl.
    intros [x | | | ]; cbn; try contradiction. intros Hx. nra.
Qed.

Lemma cossalb_ssa_not_decreased (RI : refractive_index)
  (wavelengths : nd R) (ssa1 ssa2 B : R) (g : fval)
  (impurities : option impurities_dict) (ni : ni_arg) :
  0 < ssa1 <= ssa2 -> 0 < B ->
  Nd.all (fun w => 0 < w) wavelengths ->
  valid_ni RI wavelengths ni ->
  match impurities with
  | None => True
  | Some l => valid_impurities RI wavelengths l
  end ->
  exists coarse fine,
    compute_co_single_scattering_albedo RI wavelengths (Fin ssa1)
      impurities ni (Fin B) g = Ret coarse
    /\ compute_co_single_scattering_albedo RI wavelengths (Fin ssa2)
         impurities ni (Fin B) g = Ret fine
    /\ Nd.all nonnegative fine
    /\ Nd.all2 not_decreased fine coarse.
Proof.
  intros Hs HB Hw Hni Himp.
  destruct (cossalb_valid RI wavelengths ssa1 B g impurities ni
              ltac:(lra) HB Hw Hni Himp) as (coarse & Hcoarse & _).
  destruct (cossalb_valid RI wavelengths ssa2 B g impurities ni
              ltac:(lra) HB Hw Hni Himp) as (fine & Hfine & Hnn).
  exists coarse, fine. repeat split; try assumption.
  rewrite compute_co_single_scattering_albedo_nonzero in * by lra.
  destruct (gamma_valid RI wavelengths ni Hw Hni) as (niv & Hr & Hgamma).
  rewrite Hr in *. cbn [bind] in *.
  set (gamma := (Sc (Fin 4 * Fin PI)%fl * niv / lift wavelengths)%nd) in *.
  assert (Hbase :
            Nd.all2 not_decreased
              (Sc (Fin 2 / (Fin ssa2 * rho_ice) * Fin B)%fl * gamma)%nd
              (Sc (Fin 2 / (Fin ssa1 * rho_ice) * Fin B)%fl * gamma)%nd).
  { unfold Nd.mul. rewrite !NdFacts.map2_Sc_l.
    apply (Nd2Facts.all2_map_same nonnegative); [ assumption | ].
    intros x Hx. now apply pure_snow_ssa_not_decreased. }
  destruct impurities as [l | ].
  - destruct (add_impurities_ssa RI wavelengths ssa1 ssa2 l _ _ coarse
                Hs Hw Himp Hbase Hcoarse) as (fine' & Hfine' & Hrel).
    rewrite Hfine in Hfine'. now injection Hfine' as <-.
  - injection Hcoarse as <-. injection Hfine as <-. exact Hbase.
Qed.

(** X24: finer snow is brighter. For valid inputs, raising the specific
    surface area from [ssa1] to [ssa2], all else the same (impurities
    included), never lowers the albedo: [albedo_KZ04] and [albedo_M16]
    return for both, with the same shape, and at every wavelength the
    albedo with [ssa2] is not below the one with [ssa1]. *)
Theorem finer_snow_is_brighter (RI : refractive_index)
  (wavelengths : nd R) (sza ssa1 ssa2 r_difftot B g : R)
  (impurities : option impurities_dict) (ni : ni_arg) :
  Nd.all (fun w => 0 < w) wavelengths ->
  0 < ssa1 <= ssa2 -> 0 < B -> 0 <= g < 1 -> 0 <= r_difftot <= 1 ->
  0 <= cos sza ->
  valid_ni RI wavelengths ni ->
  match impurities with
  | None => True
  | Some l => valid_impurities RI wavelengths l
  end ->
  (exists k1 k2 : nd fval,
      albedo_KZ04 RI wavelengths (Fin sza) (Fin ssa1) (Fin r_difftot)
        impurities ni (Fin B) (Fin g) = Ret k1
      /\ albedo_KZ04 RI wavelengths (Fin sza) (Fin ssa2) (Fin r_difftot)
           impurities ni (Fin B) (Fin g) = Ret k2
      /\ Nd.all2 not_increased k2 k1)
  /\ (exists m1 m2 : nd fval,
         albedo_M16 RI wavelengths (Fin sza) (Fin ssa1) (Fin r_difftot)
           impurities ni (Fin B) (Fin g) = Ret m1
         /\ albedo_M16 RI wavelengths (Fin sza) (Fin ssa2) (Fin r_difftot)
              impurities ni (Fin B) (Fin g) = Ret m2
         /\ Nd.all2 not_increased m2 m1).
Proof.
  intros Hw Hs HB Hg Hr Hz Hni Himp.
  destruct (cossalb_ssa_not_decreased RI wavelengths ssa1 ssa2 B (Fin g)
              impurities ni Hs HB Hw Hni Himp)
    as (coarse & fine & Hcoarse & Hfine & Hnn & Hrel).
  pose proof (all2_with_all nonnegative not_decreased fine coarse Hnn Hrel)
    as Hboth.
  rewrite (albedo_KZ04_eq _ _ _ _ _ _ _ _ _ _ Hcoarse).
  rewrite (albedo_KZ04_eq _ _ _ _ _ _ _ _ _ _ Hfine).
  rewrite (albedo_M16_eq _ _ _ _ _ _ _ _ _ _ Hcoarse).
  rewrite (albedo_M16_eq _ _ _ _ _ _ _ _ _ _ Hfine).
  cbn [Float.cos Float.ge Float.le].
  rewrite (proj2 (Rleb_true 0 (cos sza)) Hz).
  split; eexists _, _; (split; [ reflexivity | ]);
    (split; [ reflexivity | ]); revert Hboth; apply all2_map;
    intros x y Hxy;
    destruct (nonnegative_not_decreased x y Hxy)
      as (p & q & -> & -> & Hpq).
  - apply KZ04_at_antitone; (assumption || lra).
  - apply M16_at_antitone; (assumption || lra).
Qed.

(** The theorem for an SSA going from 10 to 40 m2/kg. *)
Lemma finer_snow_is_brighter_witness :
  exists k1 k2 : nd fval,
    albedo_KZ04 RI_example (Arr [500e-9; 900e-9]) (Fin (PI / 3)) (Fin 10)
      (Fin 0.25) (Some [("BC"%string, Content (Fin 10e-9))])
      (NiName "p2016") (Fin 1.6) (Fin 0.845) = Ret k1
    /\ albedo_KZ04 RI_example (Arr [500e-9; 900e-9]) (Fin (PI / 3))
         (Fin 40) (Fin 0.25) (Some [("BC"%string, Content (Fin 10e-9))])
         (NiName "p2016") (Fin 1.6) (Fin 0.845) = Ret k2
    /\ Nd.all2 not_increased k2 k1.
Proof.
  apply (finer_snow_is_brighter RI_example (Arr [500e-9; 900e-9])
           (PI / 3) 10 40 0.25 1.6 0.845
           (Some [("BC"%string, Content (Fin 10e-9))]) (NiName "p2016")).
  - cbn. repeat constructor; lra.
  - lra.
  - lra.
  - lra.
  - lra.
  - rewrite cos_PI3. lra.
  - cbn. eexists. split; [ reflexivity | ].
    cbn. repeat constructor; lra.
  - repeat constructor; cbn; try lra; left; split; reflexivity.
Defined.
